(** * The discrete Hankel transform of fbpic (fbpic/hankel_dt.py)

    A shallow embedding of the [DHT] class and of [array_multiply].

    Numbers.  Python floats and numpy's float64/complex128 are read as exact
    real and complex numbers: [R] of the Standard Library, and pairs of reals.
    Rounding, overflow and the non-finite values (inf, nan) are outside the
    model; in particular [x / 0] is [0] in [R] where numpy gives inf or nan,
    so every statement that depends on a quotient says which divisor is not
    zero.  The division of the matrix rows in [MDHT_init], which the code
    guards against 0/0, is also given for any division of floats, whose value
    on a zero divisor is left open ([float_division], [MDHT_init_with]).
    One array type serves for both dtypes: a float64 array is an array of
    complex numbers whose imaginary parts are zero.

    Arrays.  A numpy array is its shape and its elements in row-major order.
    Arrays live in a heap, and a name of the program holds a location, so that
    aliasing, views ([swapaxes], [split]) and assignment in place are what
    they are in numpy.

    The instance.  [self] is the dictionary of its attributes; a method runs
    in a state monad over this dictionary and the heap, and raises exceptions.

    scipy, numpy.linalg and the CUDA library are outside the repository: the
    Bessel functions, their zeros, the root finder, the matrix inversion and
    the device product are parameters of the development. *)

From Stdlib Require Import Reals Lra Lia ZArith String List DecimalString.
From stdpp Require Import base option list strings gmap.

Local Open Scope nat_scope.

(** ** Complex numbers *)

Definition C : Type := (R * R)%type.

Definition RtoC (x : R) : C := (x, 0%R).
Definition C0 : C := RtoC 0.
Definition C1 : C := RtoC 1.
Definition Cadd (x y : C) : C := (fst x + fst y, snd x + snd y)%R.
Definition Copp (x : C) : C := (- fst x, - snd x)%R.
Definition Cmul (x y : C) : C :=
  (fst x * fst y - snd x * snd y, fst x * snd y + snd x * fst y)%R.
Definition Cdiv (x y : C) : C :=
  let n := (fst y * fst y + snd y * snd y)%R in
  ((fst x * fst y + snd x * snd y) / n, (snd x * fst y - fst x * snd y) / n)%R.

(** [exp(i*t)] *)
Definition Cexp_i (t : R) : C := (cos t, sin t).

Declare Scope C_scope.
Delimit Scope C_scope with C.
Bind Scope C_scope with C.
Infix "+" := Cadd : C_scope.
Infix "*" := Cmul : C_scope.
Infix "/" := Cdiv : C_scope.
Notation "- x" := (Copp x) : C_scope.

(** [sum_n f n] is [f 0 + ... + f (n-1)]. *)
Fixpoint sum_n (f : nat -> C) (n : nat) : C :=
  match n with
  | O => C0
  | S k => (sum_n f k + f k)%C
  end.

(** ** Arrays as values *)

Record ndarray : Type := mk_nd { shape : list nat; data : list C }.

Definition tabulate {A} (n : nat) (f : nat -> A) : list A := map f (seq 0 n).

(** Element [i] of the row-major data; zero outside. *)
Definition get (l : list C) (i : nat) : C := nth i l C0.

Definition size_of (s : list nat) : nat := fold_right Nat.mul 1 s.

Definition ndim (a : ndarray) : nat := length (shape a).

(** The length of the last axis, and the number of rows along it. *)
Definition ncols (a : ndarray) : nat := List.last (shape a) 1.
Definition nrows (a : ndarray) : nat := size_of (removelast (shape a)).

(** Every array numpy builds has as many elements as its shape says. *)
Definition wf_nd (a : ndarray) : Prop := length (data a) = size_of (shape a).

Definition nd_of_reals (s : list nat) (xs : list R) : ndarray :=
  mk_nd s (map RtoC xs).

(** The real parts of an array's elements. *)
Definition reals_of (a : ndarray) : list R := map fst (data a).

(** ** Exceptions *)

Inductive exn : Type :=
| ValueError (msg : string)
| ZeroDivisionError
| IndexError
| TypeError
| AttributeError (name : string)
| LinAlgError
| UnboundLocalError
| Unmodelled (what : string).

(** ** numpy on values

    Each function gives the array numpy returns, or the exception it raises.
    The second operand of [*] is one-dimensional and the second operand of
    [dot] is a matrix, as they are everywhere in the module; other ranks are
    [Unmodelled]. *)

Definition scalar_mul_val (a : ndarray) (x : C) : ndarray :=
  mk_nd (shape a) (map (fun y => y * x)%C (data a)).

Definition div_scalar_val (a : ndarray) (x : C) : ndarray :=
  mk_nd (shape a) (map (fun y => y / x)%C (data a)).

Definition rdiv_scalar_val (x : C) (a : ndarray) : ndarray :=
  mk_nd (shape a) (map (fun y => x / y)%C (data a)).

(** [a * v], the vector [v] broadcast along the last axis of [a]. *)
Definition mul_val (a v : ndarray) : exn + ndarray :=
  match shape v with
  | [n] =>
      match shape a with
      | [] => inr (mk_nd [n] (map (Cmul (get (data a) 0)) (data v)))
      | _ =>
          let k := ncols a in
          if k =? n then
            inr (mk_nd (shape a)
                   (tabulate (nrows a * n)
                      (fun i => get (data a) i * get (data v) (i mod n))%C))
          else if k =? 1 then
            inr (mk_nd (removelast (shape a) ++ [n])
                   (tabulate (nrows a * n)
                      (fun i => get (data a) (i / n) * get (data v) (i mod n))%C))
          else if n =? 1 then
            inr (mk_nd (shape a)
                   (map (fun x => x * get (data v) 0)%C (data a)))
          else inl (ValueError "operands could not be broadcast together")
      end
  | _ => inl (Unmodelled "multiplication by an array that is not 1-d")
  end.

(** [np.dot(a, B)] for a matrix [B]: the sum over the last axis of [a] and the
    first axis of [B]. *)
Definition dot_val (a B : ndarray) : exn + ndarray :=
  match shape B with
  | [k; j] =>
      match shape a with
      | [] => inr (mk_nd [k; j] (map (Cmul (get (data a) 0)) (data B)))
      | _ =>
          if ncols a =? k then
            inr (mk_nd (removelast (shape a) ++ [j])
                   (tabulate (nrows a * j)
                      (fun i =>
                         sum_n (fun t => get (data a) (i / j * k + t)
                                         * get (data B) (t * j + i mod j))%C k)))
          else inl (ValueError "shapes not aligned")
      end
  | _ => inl (Unmodelled "dot with a second operand that is not 2-d")
  end.

(** The discrete Fourier sum of the sequence [x], of length [n], at frequency
    [q]; [sgn] is -1 for [fft] and +1 for [ifft]. *)
Definition dft (sgn : R) (x : nat -> C) (n q : nat) : C :=
  sum_n (fun t => x t * Cexp_i (sgn * (2 * PI * INR q * INR t / INR n)))%C n.

(** [np.fft.fft(a, n, axis=-1)] and [np.fft.ifft(a, n, axis=-1)]: along the
    last axis the input is cropped or padded with zeros to [n] points. *)
Definition fft_gen (inverse : bool) (a : ndarray) (n : option Z) : exn + ndarray :=
  match shape a with
  | [] => inl IndexError
  | _ =>
      let k := ncols a in
      let nz := match n with Some z => z | None => Z.of_nat k end in
      if (nz <? 1)%Z then inl (ValueError "Invalid number of FFT data points")
      else
        let n' := Z.to_nat nz in
        inr (mk_nd (removelast (shape a) ++ [n'])
               (tabulate (nrows a * n')
                  (fun i =>
                     let x := fun t => if t <? k then get (data a) (i / n' * k + t)
                                       else C0 in
                     if inverse
                     then (dft 1 x n' (i mod n') / RtoC (INR n'))%C
                     else dft (-1) x n' (i mod n'))))
  end.

Definition fft_val : ndarray -> option Z -> exn + ndarray := fft_gen false.
Definition ifft_val : ndarray -> option Z -> exn + ndarray := fft_gen true.

(** [np.split(a, 2, axis=-1)[0]] *)
Definition split_first_val (a : ndarray) : exn + ndarray :=
  match shape a with
  | [] => inl IndexError
  | _ =>
      let k := ncols a in
      if k mod 2 =? 0 then
        let h := k / 2 in
        inr (mk_nd (removelast (shape a) ++ [h])
               (tabulate (nrows a * h)
                  (fun i => get (data a) (i / h * k + i mod h))))
      else inl (ValueError "array split does not result in an equal division")
  end.

(** Multi-indices in row-major order. *)
Fixpoint unravel (s : list nat) (i : nat) : list nat :=
  match s with
  | [] => []
  | _ :: s' => i / size_of s' :: unravel s' (i mod size_of s')
  end.

Fixpoint ravel (s idx : list nat) : nat :=
  match s, idx with
  | _ :: s', j :: idx' => j * size_of s' + ravel s' idx'
  | _, _ => 0
  end.

Definition swap_list (l : list nat) (i j : nat) : list nat :=
  <[i := nth j l 0]> (<[j := nth i l 0]> l).

(** The elements of [a.swapaxes(i, j)] for axes already counted from 0. *)
Definition swapaxes_val (a : ndarray) (i j : nat) : ndarray :=
  let s' := swap_list (shape a) i j in
  mk_nd s' (tabulate (size_of s')
              (fun t => get (data a) (ravel (shape a) (swap_list (unravel s' t) i j)))).

(** An axis number of Python, negative ones counted from the end. *)
Definition norm_axis (nd : nat) (axis : Z) : option nat :=
  let ax := if (axis <? 0)%Z then (axis + Z.of_nat nd)%Z else axis in
  if ((0 <=? ax) && (ax <? Z.of_nat nd))%Z then Some (Z.to_nat ax) else None.

(** ** The heap

    A cell is an array that owns its data, or a view of one: [swapaxes] and
    [split] return views. *)

Definition loc := nat.

Inductive view_op : Type :=
| VSwap (i j : nat)
| VFirstHalf.

Inductive cell : Type :=
| Arr (a : ndarray)
| View (base : loc) (ops : list view_op).

Definition apply_view (op : view_op) (a : ndarray) : exn + ndarray :=
  match op with
  | VSwap i j => inr (swapaxes_val a i j)
  | VFirstHalf => split_first_val a
  end.

Fixpoint apply_views (ops : list view_op) (a : ndarray) : exn + ndarray :=
  match ops with
  | [] => inr a
  | op :: ops' =>
      match apply_view op a with
      | inr a' => apply_views ops' a'
      | inl e => inl e
      end
  end.

(** The array a location denotes, read through the view if it is one. *)
Definition deref (h : list cell) (l : loc) : option ndarray :=
  match h !! l with
  | Some (Arr a) => Some a
  | Some (View b ops) =>
      match h !! b with
      | Some (Arr a) =>
          match apply_views ops a with inr a' => Some a' | inl _ => None end
      | _ => None
      end
  | None => None
  end.

(** ** The instance and the monad of the methods *)

Inductive pyval : Type :=
| VNone
| VBool (b : bool)
| VInt (z : Z)
| VFloat (x : R)
| VStr (s : string)
| VRef (l : loc)
| VBlas.

Record State : Type := mk_state {
  self : gmap string pyval;
  heap : list cell
}.

Definition Py (A : Type) : Type := State -> (exn + A) * State.

Definition ret {A} (x : A) : Py A := fun s => (inr x, s).
Definition raise {A} (e : exn) : Py A := fun s => (inl e, s).
Definition bind {A B} (c : Py A) (k : A -> Py B) : Py B :=
  fun s => match c s with
           | (inr x, s') => k x s'
           | (inl e, s') => (inl e, s')
           end.

Notation "'do' x <- c ; k" := (bind c (fun x => k))
  (at level 10, x name, c at level 100, k at level 200,
   format "'[v' 'do'  x  <-  c ; '/' k ']'").
Notation "c ;; k" := (bind c (fun _ => k))
  (at level 100, k at level 200, right associativity,
   format "'[v' c  ;; '/' k ']'").

Definition lift {A} (r : exn + A) : Py A :=
  match r with inr x => ret x | inl e => raise e end.

(** [self.name = v] *)
Definition setattr (name : string) (v : pyval) : Py unit :=
  fun s => (inr tt, mk_state (<[name := v]> (self s)) (heap s)).

(** [self.name] *)
Definition getattr (name : string) : Py pyval :=
  fun s => match self s !! name with
           | Some v => (inr v, s)
           | None => (inl (AttributeError name), s)
           end.

Definition as_ref (v : pyval) : Py loc :=
  match v with VRef l => ret l | _ => raise TypeError end.
Definition as_float (v : pyval) : Py R :=
  match v with VFloat x => ret x | VInt z => ret (IZR z) | _ => raise TypeError end.
Definition as_int (v : pyval) : Py Z :=
  match v with VInt z => ret z | _ => raise TypeError end.

(** A new array on the heap. *)
Definition new_array (a : ndarray) : Py loc :=
  fun s => (inr (length (heap s)), mk_state (self s) (heap s ++ [Arr a])).

Definition new_view (b : loc) (ops : list view_op) : Py loc :=
  fun s => (inr (length (heap s)), mk_state (self s) (heap s ++ [View b ops])).

(** The value of an array operand; a dangling location is a [TypeError]. *)
Definition read (l : loc) : Py ndarray :=
  fun s => match deref (heap s) l with
           | Some a => (inr a, s)
           | None => (inl TypeError, s)
           end.

(** ** numpy on the heap: every operation returns a new array *)

Definition np_scalar_mul (a : loc) (x : R) : Py loc :=
  do av <- read a; new_array (scalar_mul_val av (RtoC x)).

Definition np_div_scalar (a : loc) (x : R) : Py loc :=
  do av <- read a; new_array (div_scalar_val av (RtoC x)).

Definition np_rdiv_scalar (x : R) (a : loc) : Py loc :=
  do av <- read a; new_array (rdiv_scalar_val (RtoC x) av).

Definition np_mul (a v : loc) : Py loc :=
  do av <- read a; do vv <- read v; do r <- lift (mul_val av vv); new_array r.

Definition np_dot (a b : loc) : Py loc :=
  do av <- read a; do bv <- read b; do r <- lift (dot_val av bv); new_array r.

Definition np_fft_fft (a : loc) (n : option Z) : Py loc :=
  do av <- read a; do r <- lift (fft_val av n); new_array r.

(** [a.swapaxes(ax1, ax2)]: a view of the array [a] is a view of. *)
Definition swapaxes (a : loc) (ax1 ax2 : Z) : Py loc :=
  do av <- read a;
  match norm_axis (ndim av) ax1, norm_axis (ndim av) ax2 with
  | Some i, Some j =>
      fun s => match heap s !! a with
               | Some (View b ops) => new_view b (ops ++ [VSwap i j]) s
               | _ => new_view a [VSwap i j] s
               end
  | _, _ => raise (ValueError "bad axis argument to swapaxes")
  end.

(** [np.split(a, 2, axis=-1)[0]]: a view of the first half. *)
Definition np_split_first (a : loc) : Py loc :=
  do av <- read a;
  do _ <- lift (split_first_val av);
  fun s => match heap s !! a with
           | Some (View b ops) => new_view b (ops ++ [VFirstHalf]) s
           | _ => new_view a [VFirstHalf] s
           end.

(** [a[0,:] = x] in place, for a matrix that owns its data. *)
Definition setitem_row0 (a : loc) (x : R) : Py unit :=
  fun s => match heap s !! a with
           | Some (Arr (mk_nd [n; k] d)) =>
               if n =? 0 then (inl IndexError, s)
               else (inr tt,
                     mk_state (self s)
                       (<[a := Arr (mk_nd [n; k]
                                      (tabulate (length d)
                                         (fun i => if i <? k then RtoC x
                                                   else get d i)))]> (heap s)))
           | Some _ => (inl (Unmodelled "row assignment to a view or a non-matrix"), s)
           | None => (inl TypeError, s)
           end.

(** ** array_multiply (lines 512-549) *)

Definition array_multiply (a v : loc) (axis : Z) : Py loc :=
  do av <- read a;
  let moved := (1 <? ndim av) && negb (axis =? -1)%Z in
  do r <- (if moved then swapaxes a (-1) axis else ret a);
  do r <- np_mul r v;
  do r <- (if moved then swapaxes r (-1) axis else ret r);
  ret r.

(** ** Python scalars and lists *)

(** Division of Python floats raises on a zero divisor. *)
Definition py_div (x y : R) : Py R :=
  if Req_dec_T y 0 then raise ZeroDivisionError else ret (x / y)%R.

(** [l[i]], a negative index counted from the end. *)
Definition py_index {A} (l : list A) (i : Z) : Py A :=
  let j := if (i <? 0)%Z then (i + Z.of_nat (length l))%Z else i in
  if (j <? 0)%Z then raise IndexError
  else match l !! Z.to_nat j with
       | Some x => ret x
       | None => raise IndexError
       end.

(** [l[i] = v] *)
Definition py_setitem {A} (l : list A) (i : nat) (v : A) : Py (list A) :=
  if i <? length l then ret (<[i := v]> l) else raise IndexError.

(** [np.arange(N)] *)
Definition arange (N : Z) : list R := map INR (seq 0 (Z.to_nat N)).

Definition sum_list_R (l : list R) : R := fold_right Rplus 0%R l.

(** [x == 0] on floats *)
Definition is_zero (x : R) : bool := if Req_dec_T x 0 then true else false.

(** A matrix of reals given by its rows, as the array of shape [(rows, cols)]. *)
Definition nd_of_rows (cols : nat) (rows : list (list R)) : ndarray :=
  nd_of_reals [length rows; cols] (concat rows).

(** [x / y] on the floats of numpy.  Where the divisor is not zero the model
    takes the quotient of the reals.  With a zero divisor numpy stores nan or
    inf, which are no reals: a float division is any function that is the
    quotient wherever the divisor is not zero, its value on a zero divisor
    being left open. *)
Definition float_division (div : R -> R -> R) : Prop :=
  forall x y : R, y <> 0%R -> div x y = (x / y)%R.

(** [num / denom[:, np.newaxis]], for a division [div] of the elements. *)
Definition divide_rows_with (div : R -> R -> R) (num : list (list R))
  (denom : list R) : list (list R) :=
  zip_with (fun row d => map (fun x => div x d) row) num denom.

(** The same with the quotient of the reals, where x / 0 = 0. *)
Definition divide_rows (num : list (list R)) (denom : list R) : list (list R) :=
  divide_rows_with Rdiv num denom.

Definition decimal (z : Z) : string := NilZero.string_of_int (Z.to_int z).

(** ['m must be either %d, %d or %d, but is %d' %(p-1,p,p+1,m)] *)
Definition msg_bad_m (p m : Z) : string :=
  "m must be either " ++ decimal (p - 1) ++ ", " ++ decimal p ++ " or "
    ++ decimal (p + 1) ++ ", but is " ++ decimal m.

(** Line 53. *)
Definition available_methods : list string :=
  ["QDHT"; "MDHT(m+1,m)"; "MDHT(m-1,m)"; "MDHT(m,m)"].

Definition str_in (x : string) (l : list string) : bool := existsb (String.eqb x) l.
Definition Z_in (x : Z) (l : list Z) : bool := existsb (Z.eqb x) l.

(** Line 242. *)
Definition include_0 : list Z := [-1; 1]%Z.

(** The optional arguments [**kw] of the constructor: [d] absent, [None] or a
    float, [Fw] absent or a string. *)
Record kwargs : Type := mk_kw { kw_d : option (option R); kw_Fw : option string }.

Definition no_kw : kwargs := mk_kw None None.

(** ** The class DHT *)

Section DHT.

(** [scipy.special.jn(n, x)], the Bessel function of the first kind. *)
Variable jn : Z -> R -> R.
(** [scipy.special.jn_zeros(n, nt)] for [nt > 0]. *)
Variable jn_zeros : Z -> nat -> list R.
(** [scipy.optimize.fsolve(f, x0)[0]] *)
Variable fsolve : (R -> R) -> R -> R.
(** [np.linalg.inv] on the row-major elements of an n by n matrix; [None]
    when numpy raises [LinAlgError]. *)
Variable linalg_inv : nat -> list C -> option (list C).
(** Whether [numbapro.cudalib] could be imported (lines 43-49). *)
Variable cuda_installed : bool.
(** [cudablas.Blas().dot], as a function of its two operands. *)
Variable cuda_dot : ndarray -> ndarray -> exn + ndarray.

Definition scipy_jn_zeros (n nt : Z) : Py (list R) :=
  if (nt <=? 0)%Z then raise (ValueError "jn_zeros: nt must be positive")
  else ret (jn_zeros n (Z.to_nat nt)).

Definition np_linalg_inv (a : loc) : Py loc :=
  do av <- read a;
  match shape av with
  | [n; k] =>
      if n =? k then
        match linalg_inv n (data av) with
        | Some d => new_array (mk_nd [n; n] d)
        | None => raise LinAlgError
        end
      else raise LinAlgError
  | _ => raise LinAlgError
  end.

(** [self.cuda_stream.dot(a, b)] followed by [self.cuda_stream.synchronize()]:
    the product comes back in a new array. *)
Definition cuda_stream_dot (a b : loc) : Py loc :=
  do av <- read a; do bv <- read b; do r <- lift (cuda_dot av bv); new_array r.

(** The truth value of [if x]. *)
Definition truthy (v : pyval) : bool :=
  match v with
  | VNone => false
  | VBool b => b
  | VInt z => negb (z =? 0)%Z
  | VFloat x => negb (is_zero x)
  | VStr s => negb (String.eqb s "")
  | VRef _ | VBlas => true
  end.

(** Lines 241-250: the zeros of the Bessel function. *)
Definition MDHT_zeros (m N : Z) : Py (list R) :=
  if Z_in m include_0 then
    do z <- scipy_jn_zeros m N; ret (0%R :: z)
  else scipy_jn_zeros m (N + 1).

(** Lines 267-273: S from Kai-Ming et al. *)
Definition MDHT_S_KaiMing (m N : Z) (alphas : list R) : Py R :=
  let k := (N / 4)%Z in
  do A <- py_index alphas k;
  do zs <- scipy_jn_zeros m N;
  do J <- py_index zs (-1);
  do ak <- py_index alphas k;
  ret (Rabs (2 / jn (m - 1) ak)
       * sqrt (1 + sum_list_R
                     (map (fun a => jn (m - 1) (A * a / J) ^ 2 / jn (m - 1) a ^ 2)
                        (tail alphas))))%R.

(** Lines 279-285: the denominators, and the guard against 0/0. *)
Definition MDHT_denom (p m : Z) (rmax : R) (alphas : list R) : list R :=
  let p_denom := if (p =? m)%Z then (m + 1)%Z else p in
  map (fun a => PI * rmax ^ 2 * jn p_denom a ^ 2)%R alphas.

Definition MDHT_num (p : Z) (r nu : list R) : list (list R) :=
  map (fun nu_i => map (fun r_j => jn p (2 * PI * r_j * nu_i))%R r) nu.

Definition MDHT_guard (num : list (list R)) (denom : list R) : Py (list R) :=
  do d0 <- py_index denom 0;
  if is_zero d0 then
    do row0 <- py_index num 0;
    if forallb is_zero row0 then py_setitem denom 0 1%R else ret denom
  else ret denom.

(** Lines 255-274: the spatial grid, and the product S of the spatial and
    spectral bandwidths. *)
Definition MDHT_grid (N : Z) (rmax : R) (m p : Z) (d : option R)
  (alphas : list R) (last_alpha : R) : Py (list R * R) :=
  match d with
  | Some dv =>
      do h <- py_div (rmax * 1) (IZR N);
      ret (map (fun n => h * (n + dv))%R (arange N), last_alpha)
  | None =>
      do S <- (if (m =? p)%Z then ret last_alpha
               else MDHT_S_KaiMing m N alphas);
      ret (map (fun a => rmax * a / S)%R alphas, S)
  end.

(** Lines 288-307: the matrix M, once [self.invM] is stored at [l_invM];
    [div] is the division of the elements in line 298. *)
Definition MDHT_matrix_M_with (div : R -> R -> R) (p m : Z) (rmax : R)
  (Fw : string) (r : list R) (last_alpha S : R) (num : list (list R))
  (denom : list R) (l_invM : loc) : Py unit :=
  let p_denom := if (p =? m)%Z then (m + 1)%Z else p in
  (if String.eqb Fw "inverse" then
     if Z_in m include_0 && negb (p =? 0)%Z then
       do c' <- py_div 1 (2 * PI * rmax);
       let nu_additional := (c' * last_alpha)%R in
       do denom <- py_setitem denom 0 (PI * rmax ^ 2 * jn p_denom last_alpha ^ 2)%R;
       do num <- py_setitem num 0
                   (map (fun r_j => jn p (2 * PI * r_j * nu_additional))%R r);
       do l_invM <- new_array (nd_of_rows (length r)
                                 (divide_rows_with div num denom));
       setattr "invM" (VRef l_invM) ;;
       do l_M <- np_linalg_inv l_invM;
       setattr "M" (VRef l_M) ;;
       setitem_row0 l_invM 0
     else
       do l_M <- np_linalg_inv l_invM;
       setattr "M" (VRef l_M)
   else ret tt) ;;
  (if String.eqb Fw "symmetric" then
     do v <- getattr "invM"; do l <- as_ref v;
     do lT <- swapaxes l 0 1;
     do l_M <- np_scalar_mul lT ((2 * PI * rmax ^ 2 / S) ^ 2)%R;
     setattr "M" (VRef l_M)
   else ret tt).

Definition MDHT_matrix_M (p m : Z) (rmax : R) (Fw : string) (r : list R)
  (last_alpha S : R) (num : list (list R)) (denom : list R) (l_invM : loc)
  : Py unit :=
  MDHT_matrix_M_with Rdiv p m rmax Fw r last_alpha S num denom l_invM.

(** The rows of the matrix that lines 295-298 build: the first numerator row
    and the first denominator are those of one more Bessel zero. *)
Definition corrected_rows (p m : Z) (rmax : R) (r : list R) (la : R)
  (num : list (list R)) (denom : list R) : list (list R) :=
  let p_denom := if (p =? m)%Z then (m + 1)%Z else p in
  divide_rows
    (<[0 := map (fun r_j => jn p (2 * PI * r_j * (1 / (2 * PI * rmax) * la)))%R r]> num)
    (<[0 := (PI * rmax ^ 2 * jn p_denom la ^ 2)%R]> denom).

(** Lines 200-307; [div] is the division of the elements in lines 286
    and 298. *)
Definition MDHT_init_with (div : R -> R -> R) (p N : Z) (rmax : R) (m : Z)
  (d : option R) (Fw : string) : Py unit :=
  (if Z_in m [p - 1; p; p + 1]%Z then ret tt
   else raise (ValueError (msg_bad_m p m))) ;;
  setattr "d" (match d with Some x => VFloat x | None => VNone end) ;;
  setattr "Fw" (VStr Fw) ;;
  setattr "p" (VInt p) ;;
  setattr "m" (VInt m) ;;
  setattr "N" (VInt N) ;;
  setattr "rmax" (VFloat rmax) ;;
  do zeros <- MDHT_zeros m N;
  do last_alpha <- py_index zeros (-1);
  let alphas := removelast zeros in
  do c <- py_div 1 (2 * PI * rmax);
  let nu := map (Rmult c) alphas in
  do l_nu <- new_array (nd_of_reals [length nu] nu);
  setattr "nu" (VRef l_nu) ;;
  do rS <- MDHT_grid N rmax m p d alphas last_alpha;
  let r := fst rS in
  let S := snd rS in
  do l_r <- new_array (nd_of_reals [length r] r);
  setattr "r" (VRef l_r) ;;
  let num := MDHT_num p r nu in
  do denom <- MDHT_guard num (MDHT_denom p m rmax alphas);
  do l_invM <- new_array (nd_of_rows (length r) (divide_rows_with div num denom));
  setattr "invM" (VRef l_invM) ;;
  MDHT_matrix_M_with div p m rmax Fw r last_alpha S num denom l_invM.

(** Lines 200-307, with the quotient of the reals. *)
Definition MDHT_init (p N : Z) (rmax : R) (m : Z) (d : option R) (Fw : string)
  : Py unit :=
  MDHT_init_with Rdiv p N rmax m d Fw.

(** Lines 309-325. *)
Definition MDHT_transform (F : loc) : Py loc :=
  do uc <- getattr "use_cuda";
  if truthy uc then
    do _ <- getattr "cuda_stream";
    do v <- getattr "M"; do M <- as_ref v;
    cuda_stream_dot F M
  else
    do v <- getattr "M"; do M <- as_ref v;
    np_dot F M.

(** Lines 328-344. *)
Definition MDHT_inverse_transform (G : loc) : Py loc :=
  do uc <- getattr "use_cuda";
  if truthy uc then
    do _ <- getattr "cuda_stream";
    do v <- getattr "invM"; do invM <- as_ref v;
    cuda_stream_dot G invM
  else
    do v <- getattr "invM"; do invM <- as_ref v;
    np_dot G invM.

(** Lines 347-380. *)
Definition QDHT_init (p N : Z) (rmax : R) : Py unit :=
  do zeros <- scipy_jn_zeros p (N + 1);
  do last_alpha <- py_index zeros (-1);
  let alphas := removelast zeros in
  let numax := (last_alpha / (2 * PI * rmax))%R in
  setattr "N" (VInt N) ;;
  setattr "rmax" (VFloat rmax) ;;
  setattr "numax" (VFloat numax) ;;
  let r := map (fun a => rmax * a / last_alpha)%R alphas in
  do l_r <- new_array (nd_of_reals [length r] r);
  setattr "r" (VRef l_r) ;;
  let nu := map (fun a => numax * a / last_alpha)%R alphas in
  do l_nu <- new_array (nd_of_reals [length nu] nu);
  setattr "nu" (VRef l_nu) ;;
  let J := map (fun a => Rabs (jn (p + 1) a)) alphas in
  do l_J <- new_array (nd_of_reals [length J] J);
  setattr "J" (VRef l_J) ;;
  do l_Jinv <- new_array (nd_of_reals [length J] (map (fun x => 1 / x)%R J));
  setattr "J_inv" (VRef l_Jinv) ;;
  let denom := map (fun Ji => map (fun Jj => Ji * Jj * last_alpha)%R J) J in
  let num := map (fun ai => map (fun aj => 2 * jn p (ai * aj / last_alpha))%R alphas)
               alphas in
  do l_T <- new_array
              (nd_of_rows (length alphas)
                 (zip_with (zip_with (fun x y => x / y)%R) num denom));
  setattr "T" (VRef l_T).

(** Lines 382-400. *)
Definition QDHT_transform (F : loc) : Py loc :=
  do v <- getattr "J_inv"; do J_inv <- as_ref v;
  do v <- getattr "rmax"; do rmax <- as_float v;
  do w <- np_scalar_mul J_inv rmax;
  do F <- array_multiply F w (-1);
  do v <- getattr "T"; do T <- as_ref v;
  do G <- np_dot F T;
  do v <- getattr "J"; do J <- as_ref v;
  do v <- getattr "numax"; do numax <- as_float v;
  do w <- np_div_scalar J numax;
  do G <- array_multiply G w (-1);
  ret G.

(** Lines 402-420. *)
Definition QDHT_inverse_transform (G : loc) : Py loc :=
  do v <- getattr "J_inv"; do J_inv <- as_ref v;
  do v <- getattr "numax"; do numax <- as_float v;
  do w <- np_scalar_mul J_inv numax;
  do G <- array_multiply G w (-1);
  do v <- getattr "T"; do T <- as_ref v;
  do F <- np_dot G T;
  do v <- getattr "J"; do J <- as_ref v;
  do v <- getattr "rmax"; do rmax <- as_float v;
  do w <- np_div_scalar J rmax;
  do F <- array_multiply F w (-1);
  ret F.

(** The equation that fixes the spacing of the exponential grid (line 442). *)
Definition FHT_equation (N : Z) (x : R) : R :=
  (exp (x * IZR N) * (1 - exp (- x)) - 1)%R.

(** Lines 422-454. *)
Definition FHT_init (p N : Z) (rmax : R) : Py unit :=
  let K := 4%R in
  let alpha := fsolve (FHT_equation N) 1%R in
  let dr := (rmax / exp (alpha * IZR N))%R in
  setattr "N" (VInt N) ;;
  let r := map (fun n => dr * exp (alpha * n))%R (arange N) in
  do l_r <- new_array (nd_of_reals [length r] r);
  setattr "r" (VRef l_r) ;;
  do c <- py_div 1 (K * rmax);
  let nu := map (fun n => c * exp (alpha * n))%R (arange N) in
  do l_nu <- new_array (nd_of_reals [length nu] nu);
  setattr "nu" (VRef l_nu) ;;
  let r_nu := map (fun n => dr / (K * rmax) * exp (alpha * n))%R (arange (2 * N)) in
  let j_convol := map (fun x => 2 * PI * alpha * x * jn p (2 * PI * x))%R r_nu in
  do f <- lift (ifft_val (nd_of_reals [length j_convol] j_convol) None);
  do l_f <- new_array f;
  setattr "fft_j_convol" (VRef l_f).

(** Lines 457-482. *)
Definition FHT_transform (F : loc) : Py loc :=
  do v <- getattr "r"; do r <- as_ref v;
  do rF <- array_multiply F r (-1);
  do v <- getattr "N"; do N <- as_int v;
  do fft_rF <- np_fft_fft rF (Some (2 * N)%Z);
  do v <- getattr "fft_j_convol"; do k <- as_ref v;
  do fft_nuG <- array_multiply fft_rF k (-1);
  do nuG_large <- np_fft_fft fft_nuG None;
  do nuG <- np_split_first nuG_large;
  do v <- getattr "nu"; do nu <- as_ref v;
  do w <- np_rdiv_scalar 1 nu;
  do G <- array_multiply nuG w (-1);
  ret G.

(** Lines 484-509. *)
Definition FHT_inverse_transform (G : loc) : Py loc :=
  do v <- getattr "nu"; do nu <- as_ref v;
  do nuG <- array_multiply G nu (-1);
  do v <- getattr "N"; do N <- as_int v;
  do fft_nuG <- np_fft_fft nuG (Some (2 * N)%Z);
  do v <- getattr "fft_j_convol"; do k <- as_ref v;
  do fft_rF <- array_multiply fft_nuG k (-1);
  do rF_large <- np_fft_fft fft_rF None;
  do rF <- np_split_first rF_large;
  do v <- getattr "r"; do r <- as_ref v;
  do w <- np_rdiv_scalar 1 r;
  do F <- array_multiply rF w (-1);
  ret F.

Definition is_str (v : pyval) (s : string) : bool :=
  match v with VStr t => String.eqb t s | _ => false end.

Definition is_in (v : pyval) (l : list string) : bool :=
  match v with VStr t => str_in t l | _ => false end.

(** Lines 67-121. *)
Definition __init__ (p N : Z) (rmax : R) (method : string) (use_cuda : bool)
  (kw : kwargs) : Py unit :=
  (if str_in method available_methods then setattr "method" (VStr method)
   else raise (ValueError "Illegal method string")) ;;
  setattr "use_cuda" (VBool use_cuda) ;;
  (if use_cuda && negb cuda_installed then setattr "use_cuda" (VBool false)
   else ret tt) ;;
  do uc <- getattr "use_cuda";
  (if truthy uc then setattr "cuda_stream" VBlas else ret tt) ;;
  let d := match kw_d kw with Some d => d | None => Some (1 / 2)%R end in
  let Fw := match kw_Fw kw with Some Fw => Fw | None => "inverse" end in
  do meth <- getattr "method";
  if is_str meth "FHT" then FHT_init p N rmax
  else if is_str meth "QDHT" then QDHT_init p N rmax
  else if is_str meth "MDHT(m,m)" then MDHT_init p N rmax p d Fw
  else if is_str meth "MDHT(m-1,m)" then MDHT_init p N rmax (p + 1) d Fw
  else if is_str meth "MDHT(m+1,m)" then MDHT_init p N rmax (p - 1) d Fw
  else ret tt.

(** Lines 123-142. *)
Definition get_r : Py loc := do v <- getattr "r"; as_ref v.
Definition get_nu : Py loc := do v <- getattr "nu"; as_ref v.

Definition MDHT_methods : list string :=
  ["MDHT(m,m)"; "MDHT(m-1,m)"; "MDHT(m+1,m)"].

(** Lines 145-170. *)
Definition transform (F : loc) : Py loc :=
  do meth <- getattr "method";
  if is_str meth "FHT" then FHT_transform F
  else if is_str meth "QDHT" then QDHT_transform F
  else if is_in meth MDHT_methods then MDHT_transform F
  else raise UnboundLocalError.

(** Lines 172-197. *)
Definition inverse_transform (G : loc) : Py loc :=
  do meth <- getattr "method";
  if is_str meth "FHT" then FHT_inverse_transform G
  else if is_str meth "QDHT" then QDHT_inverse_transform G
  else if is_in meth MDHT_methods then MDHT_inverse_transform G
  else raise UnboundLocalError.

End DHT.

(** ** Notions used in the statements *)

(** The error of line 231. *)
Definition is_bad_m (e : exn) : bool :=
  match e with
  | ValueError msg => String.prefix "m must be either" msg
  | _ => false
  end.

(** [c] raises none of the exceptions [bad]. *)
Definition never {A} (bad : exn -> bool) (c : Py A) : Prop :=
  forall s, match fst (c s) with inl e => bad e = false | inr _ => True end.

(** Sequencing of results. *)
Definition ebind {A B} (r : exn + A) (f : A -> exn + B) : exn + B :=
  match r with inr x => f x | inl e => inl e end.

(** [s'] is [s] with more cells: the attributes are the same and every cell
    of [s] is where and what it was. *)
Definition extends (s s' : State) : Prop :=
  self s' = self s /\ exists cells, heap s' = heap s ++ cells.

(** The attribute [name] holds the array [a]. *)
Definition has_array (s : State) (name : string) (a : ndarray) : Prop :=
  exists l, self s !! name = Some (VRef l) /\ deref (heap s) l = Some a.

(** What a call does, seen from outside: started in [s] it changes nothing
    that exists, and either raises [e], or returns a location that did not
    exist in [s] and denotes [v]; with [own] the location holds an array of
    its own and no view. *)
Definition outcome (own : bool) (c : Py loc) (s : State) (r : exn + ndarray) : Prop :=
  match r with
  | inr v =>
      exists l s', c s = (inr l, s') /\ extends s s' /\ length (heap s) <= l
                   /\ if own then heap s' !! l = Some (Arr v)
                      else deref (heap s') l = Some v
  | inl e => exists s', c s = (inl e, s') /\ extends s s'
  end.

(** The array a call returns, or the exception it raises. *)
Definition result_of (c : Py loc) (s : State) : exn + ndarray :=
  match c s with
  | (inr l, s') =>
      match deref (heap s') l with Some a => inr a | None => inl TypeError end
  | (inl e, _) => inl e
  end.

(** What the three methods compute, as functions of the arrays involved. *)
Definition MDHT_value (M x : ndarray) : exn + ndarray := dot_val x M.

Definition QDHT_value (J_inv J T : ndarray) (c1 c2 : R) (x : ndarray)
  : exn + ndarray :=
  ebind (mul_val x (scalar_mul_val J_inv (RtoC c1))) (fun x1 =>
  ebind (dot_val x1 T) (fun x2 =>
  mul_val x2 (div_scalar_val J (RtoC c2)))).

Definition FHT_value (w1 k w2 : ndarray) (N : Z) (x : ndarray) : exn + ndarray :=
  ebind (mul_val x w1) (fun x1 =>
  ebind (fft_val x1 (Some (2 * N)%Z)) (fun x2 =>
  ebind (mul_val x2 k) (fun x3 =>
  ebind (fft_val x3 None) (fun x4 =>
  ebind (split_first_val x4) (fun x5 =>
  mul_val x5 (rdiv_scalar_val (RtoC 1) w2)))))).

(** The state of an instance after construction, method by method: the
    attributes the transforms read, and the shapes of the arrays they hold. *)
Record MDHT_instance (s : State) (n : nat) (M invM : ndarray) : Prop := {
  md_method : exists meth, self s !! "method" = Some (VStr meth)
                           /\ str_in meth MDHT_methods = true;
  md_use_cuda : exists uc, self s !! "use_cuda" = Some (VBool uc)
                           /\ (uc = true -> self s !! "cuda_stream" = Some VBlas);
  md_M : has_array s "M" M;
  md_M_shape : shape M = [n; n];
  md_invM : has_array s "invM" invM;
  md_invM_shape : shape invM = [n; n]
}.

Record QDHT_instance (s : State) (n : nat) (J_inv J T : ndarray) (rmax numax : R)
  : Prop := {
  qd_method : self s !! "method" = Some (VStr "QDHT");
  qd_J_inv : has_array s "J_inv" J_inv;
  qd_J_inv_shape : shape J_inv = [n];
  qd_J : has_array s "J" J;
  qd_J_shape : shape J = [n];
  qd_T : has_array s "T" T;
  qd_T_shape : shape T = [n; n];
  qd_rmax : self s !! "rmax" = Some (VFloat rmax);
  qd_numax : self s !! "numax" = Some (VFloat numax)
}.

Record FHT_instance (s : State) (n : nat) (r nu k : ndarray) : Prop := {
  fh_method : self s !! "method" = Some (VStr "FHT");
  fh_N : self s !! "N" = Some (VInt (Z.of_nat n));
  fh_N_pos : 1 <= n;
  fh_r : has_array s "r" r;
  fh_r_shape : shape r = [n];
  fh_nu : has_array s "nu" nu;
  fh_nu_shape : shape nu = [n];
  fh_k : has_array s "fft_j_convol" k;
  fh_k_shape : shape k = [2 * n]
}.

(** What [transform] and [inverse_transform] compute on an instance. *)
Inductive computes (s : State) (n : nat) (fwd inv : ndarray -> exn + ndarray)
  : Prop :=
| computes_MDHT M invM :
    MDHT_instance s n M invM ->
    fwd = MDHT_value M -> inv = MDHT_value invM -> computes s n fwd inv
| computes_QDHT J_inv J T rmax numax :
    QDHT_instance s n J_inv J T rmax numax ->
    fwd = QDHT_value J_inv J T rmax numax ->
    inv = QDHT_value J_inv J T numax rmax -> computes s n fwd inv
| computes_FHT r nu k :
    FHT_instance s n r nu k ->
    fwd = FHT_value r k nu (Z.of_nat n) ->
    inv = FHT_value nu k r (Z.of_nat n) -> computes s n fwd inv.

(** [a*x + b*y] for arrays of one shape. *)
Definition lin_comb (a b : C) (x y : ndarray) : ndarray :=
  mk_nd (shape x) (zip_with (fun u v => a * u + b * v)%C (data x) (data y)).

Definition same_shape (x y : ndarray) : Prop :=
  shape x = shape y /\ length (data x) = length (data y).

(** [f] is linear: where it is defined on [x] and on [y], it is defined on
    their linear combinations and commutes with them. *)
Definition linear_op (f : ndarray -> exn + ndarray) : Prop :=
  forall a b x1 x2 y1 y2,
    same_shape x1 x2 -> f x1 = inr y1 -> f x2 = inr y2 ->
    same_shape y1 y2 /\ f (lin_comb a b x1 x2) = inr (lin_comb a b y1 y2).

(** A computation that reads no state and changes none. *)
Definition stateless {A} (c : Py A) (r : exn + A) : Prop := forall s, c s = (r, s).

(** The attributes [MDHT_init] has stored when it reaches line 288, and the
    three arrays it has built: the two grids and the first [self.invM]. *)
Definition MDHT_attrs (p N : Z) (rmax : R) (m : Z) (d : option R) (Fw : string)
  (l : loc) (attrs : gmap string pyval) : gmap string pyval :=
  <["invM" := VRef (l + 2)]>
    (<["r" := VRef (l + 1)]>
       (<["nu" := VRef l]>
          (<["rmax" := VFloat rmax]>
             (<["N" := VInt N]>
                (<["m" := VInt m]>
                   (<["p" := VInt p]>
                      (<["Fw" := VStr Fw]>
                         (<["d" := match d with
                                   | Some x => VFloat x
                                   | None => VNone
                                   end]> attrs)))))))).

(** [A] with its first row set to zero (line 302). *)
Definition zero_row0 (A : ndarray) : ndarray :=
  mk_nd (shape A)
    (tabulate (length (data A))
       (fun i => if i <? ncols A then RtoC 0 else get (data A) i)).

(** [c] leaves the cells below [b] as they are, and every attribute but those
    named in [touched]. *)
Definition keeps_below {A} (b : nat) (touched : list string) (c : Py A) : Prop :=
  forall s o s', c s = (o, s') -> b <= length (heap s) ->
    b <= length (heap s')
    /\ (forall l, l < b -> heap s' !! l = heap s !! l)
    /\ (forall name, name ∉ touched -> self s' !! name = self s !! name).

(** A step that fails, or adds one cell and returns its location. *)
Definition allocs (c : Py loc) : Prop :=
  forall s, (exists e, c s = (inl e, s))
            \/ (exists x, c s = (inr (length (heap s)),
                                 mk_state (self s) (heap s ++ [x]))).

(** ** Stand-ins for the external functions

    Where a statement needs functions to run on, these take the place of
    scipy's: the zeros are 1, 2, 3, ... (positive and increasing, as Bessel
    zeros are), and [sample_jn] has the values of the Bessel functions at 0. *)
Definition sample_jn_zeros (n : Z) (nt : nat) : list R := map INR (seq 1 nt).

Definition sample_jn (n : Z) (x : R) : R := if (n =? 0)%Z then 1%R else x.

(** A division of floats that leaves 1 where the divisor is zero. *)
Definition sample_division (x y : R) : R :=
  if Req_dec_T y 0 then 1%R else (x / y)%R.

(** The claim C3 as the specification words it: zero is prepended exactly
    when [m] is [p - 1] or [p + 1]. *)
Definition zeros_for_neighbours : Prop :=
  forall jn_zeros : Z -> nat -> list R,
    (forall n nt x, In x (jn_zeros n nt) -> (0 < x)%R) ->
    (forall n nt, length (jn_zeros n nt) = nt) ->
    forall p m N : Z,
      (0 <= p)%Z -> (1 <= N)%Z -> Z_in m [p - 1; p; p + 1]%Z = true ->
      stateless (MDHT_zeros jn_zeros m N)
        (inr (if ((m =? p - 1) || (m =? p + 1))%Z
              then 0%R :: jn_zeros m (Z.to_nat N)
              else jn_zeros m (Z.to_nat (N + 1)))).

(** The element in row [i] and column [j] of an [n] by [n] matrix. *)
Definition entry (n : nat) (A : list C) (i j : nat) : C := get A (i * n + j).

(** [B] is a left inverse of [A]: the product [B A] is the identity. *)
Definition left_inverse (n : nat) (B A : list C) : Prop :=
  forall i j, i < n -> j < n ->
    sum_n (fun t => entry n B i t * entry n A t j)%C n = if i =? j then C1 else C0.

(** What is expected of [np.linalg.inv]: when it returns, it returns an
    n by n matrix that is an inverse on both sides. *)
Definition inverts (linalg_inv : nat -> list C -> option (list C)) : Prop :=
  forall n A B, linalg_inv n A = Some B ->
    length B = n * n /\ left_inverse n B A /\ left_inverse n A B.

(** The state in which the constructor calls the initialization routine of
    the method (lines 96-108). *)
Definition init_state (cuda_installed : bool) (method : string) (use_cuda : bool)
  (s : State) : State :=
  let a1 := <["use_cuda" := VBool use_cuda]> (<["method" := VStr method]> (self s)) in
  let a2 := if use_cuda && negb cuda_installed
            then <["use_cuda" := VBool false]> a1 else a1 in
  let a3 := if use_cuda && cuda_installed
            then <["cuda_stream" := VBlas]> a2 else a2 in
  mk_state a3 (heap s).

(** The auxiliary order each matrix method passes to [MDHT_init]
    (lines 115-120). *)
Definition aux_order (method : string) (p : Z) : Z :=
  if String.eqb method "MDHT(m,m)" then p
  else if String.eqb method "MDHT(m-1,m)" then (p + 1)%Z
  else (p - 1)%Z.

Definition kw_d_or_default (kw : kwargs) : option R :=
  match kw_d kw with Some d => d | None => Some (1 / 2)%R end.

Definition kw_Fw_or_default (kw : kwargs) : string :=
  match kw_Fw kw with Some Fw => Fw | None => "inverse" end.

(** A stand-in for [np.linalg.inv] that inverts 1 by 1 matrices. *)
Definition sample_inv (n : nat) (A : list C) : option (list C) :=
  match n, A with
  | 1, [z] => if is_zero (fst z) && is_zero (snd z) then None
              else Some [(C1 / z)%C]
  | _, _ => None
  end.

(** The claim C2 as the specification words it: on every matrix instance,
    the inverse transform undoes the transform. *)
Definition round_trip_on_every_instance : Prop :=
  forall (jn : Z -> R -> R) (jn_zeros : Z -> nat -> list R)
         (fsolve : (R -> R) -> R -> R)
         (linalg_inv : nat -> list C -> option (list C))
         (cuda_installed : bool) (cuda_dot : ndarray -> ndarray -> exn + ndarray),
    (forall n nt, length (jn_zeros n nt) = nt) ->
    inverts linalg_inv ->
    (forall a b, cuda_dot a b = dot_val a b) ->
    forall p N rmax method use_cuda kw s s' F x sh,
      str_in method MDHT_methods = true ->
      __init__ jn jn_zeros fsolve linalg_inv cuda_installed
        p N rmax method use_cuda kw s = (inr tt, s') ->
      deref (heap s') F = Some x -> shape x = sh ++ [Z.to_nat N] -> wf_nd x ->
      result_of (do G <- transform cuda_dot F; inverse_transform cuda_dot G) s'
      = inr x.

(** The claim C4 as the specification words it: whenever [m] is [p - 1] or
    [p + 1] and [p] is not 0, a construction with Fw = 'inverse' leaves M the
    inverse of the matrix with the corrected first row, and [invM] that matrix
    with its first row at zero. *)
Definition corrected_for_neighbours : Prop :=
  forall (jn : Z -> R -> R) (jn_zeros : Z -> nat -> list R)
         (linalg_inv : nat -> list C -> option (list C)),
    (forall n nt, length (jn_zeros n nt) = nt) ->
    inverts linalg_inv ->
    forall p N rmax m d s s',
      (m = p - 1 \/ m = p + 1)%Z -> p <> 0%Z ->
      MDHT_init jn jn_zeros linalg_inv p N rmax m d "inverse" s = (inr tt, s') ->
      exists A M,
        shape A = [Z.to_nat N; Z.to_nat N]
        /\ linalg_inv (Z.to_nat N) (data A) = Some (data M)
        /\ has_array s' "M" M
        /\ has_array s' "invM" (zero_row0 A).

(** * The forward FHT (C5) *)

(** The forward pipeline with the second Fourier transform taken as the
    inverse one, [np.fft.ifft]: C5 as it is worded. *)
Definition FHT_value_inverse_fft (w1 k w2 : ndarray) (N : Z) (x : ndarray)
  : exn + ndarray :=
  ebind (mul_val x w1) (fun x1 =>
  ebind (fft_val x1 (Some (2 * N)%Z)) (fun x2 =>
  ebind (mul_val x2 k) (fun x3 =>
  ebind (ifft_val x3 None) (fun x4 =>
  ebind (split_first_val x4) (fun x5 =>
  mul_val x5 (rdiv_scalar_val (RtoC 1) w2)))))).

(** A root finder for N = 1: the root of exp(x) (1 - exp(-x)) = 1 is ln 2. *)
Definition sample_fsolve (f : R -> R) (x0 : R) : R := ln 2.

(** C5 as it is worded: on every instance that [FHT_init] constructs, with
    N at least 1, [rmax] positive and [fsolve] returning a root of the grid
    equation, the forward transform of an array whose last axis has N
    elements is the value of the pipeline that ends with [ifft]. *)
Definition FHT_forward_with_inverse_fft : Prop :=
  forall (jn : Z -> R -> R) (fsolve : (R -> R) -> R -> R) p N rmax s s' F x sh,
    (1 <= N)%Z -> (0 < rmax)%R ->
    FHT_equation N (fsolve (FHT_equation N) 1%R) = 0%R ->
    FHT_init jn fsolve p N rmax s = (inr tt, s') ->
    deref (heap s') F = Some x ->
    shape x = sh ++ [Z.to_nat N] ->
    exists r k nu,
      has_array s' "r" r /\ has_array s' "fft_j_convol" k
      /\ has_array s' "nu" nu
      /\ result_of (FHT_transform F) s' = FHT_value_inverse_fft r k nu N x.

(** The instance that [FHT_init] constructs for order 0 with one sample and
    rmax = 1, beside an array holding [1.]. *)
Definition sample_FHT_state : State :=
  snd (FHT_init sample_jn sample_fsolve 0 1 1 (mk_state ∅ [Arr (mk_nd [1] [C1])])).

(** * The grids (C7) *)

Definition strictly_increasing (xs : list R) : Prop :=
  forall i j x y, xs !! i = Some x -> xs !! j = Some y -> i < j -> (x < y)%R.

(** A grid of N points: real, strictly increasing, and starting at 0 or
    above. *)
Definition is_grid (N : Z) (a : ndarray) : Prop :=
  exists xs, a = nd_of_reals [Z.to_nat N] xs
             /\ length xs = Z.to_nat N
             /\ strictly_increasing xs
             /\ forall x, xs !! 0 = Some x -> (0 <= x)%R.

(** * Instances and calls (C8, C9) *)

(** [s] is the state of an instance after its construction from [s0]: by the
    constructor, with the forward mode 'inverse' or 'symmetric', or, for the
    FHT, by [FHT_init] on an instance whose method is 'FHT'. *)
Definition constructed (jn : Z -> R -> R) (jn_zeros : Z -> nat -> list R)
  (fsolve : (R -> R) -> R -> R) (linalg_inv : nat -> list C -> option (list C))
  (cuda_installed : bool) (p N : Z) (rmax : R) (s0 s : State) : Prop :=
  (exists method use_cuda kw,
      (kw_Fw_or_default kw = "inverse" \/ kw_Fw_or_default kw = "symmetric")
      /\ __init__ jn jn_zeros fsolve linalg_inv cuda_installed
           p N rmax method use_cuda kw s0 = (inr tt, s))
  \/ (self s0 !! "method" = Some (VStr "FHT")
      /\ FHT_init jn fsolve p N rmax s0 = (inr tt, s)).

(** The call [c] on the array [x] only reads: whatever it returns, the
    attributes and the cells of [s] are as they were; and when the last axis
    of [x] has [n] elements it returns a new cell, an array of its own with
    the shape of [x]. *)
Definition pure_read (c : Py loc) (s : State) (x : ndarray) (n : nat) : Prop :=
  exists o s',
    c s = (o, s') /\ extends s s'
    /\ forall sh, shape x = sh ++ [n] ->
         exists l y, o = inr l /\ length (heap s) <= l
                     /\ heap s' !! l = Some (Arr y) /\ shape y = shape x.

(** * array_multiply along any axis *)

(** [a.swapaxes(ax1, ax2)] as a value. *)
Definition swapaxes_res (a : ndarray) (ax1 ax2 : Z) : exn + ndarray :=
  match norm_axis (ndim a) ax1, norm_axis (ndim a) ax2 with
  | Some i, Some j => inr (swapaxes_val a i j)
  | _, _ => inl (ValueError "bad axis argument to swapaxes")
  end.

(** What [array_multiply(a, v, axis)] denotes. *)
Definition array_multiply_val (a v : ndarray) (axis : Z) : exn + ndarray :=
  if (1 <? ndim a) && negb (axis =? -1)%Z then
    ebind (swapaxes_res a (-1) axis) (fun r =>
    ebind (mul_val r v) (fun r => swapaxes_res r (-1) axis))
  else mul_val a v.

(** [idx] is a multi-index of an array of shape [s]. *)
Definition valid_index (s idx : list nat) : Prop :=
  Forall2 (fun d j => j < d) s idx.
(** * Errors of the constructor *)

(** The error of line 98. *)
Definition is_illegal_method (e : exn) : bool :=
  match e with
  | ValueError msg => String.eqb msg "Illegal method string"
  | _ => false
  end.

(** * What a call can raise *)

(** An operation on arrays returned an array with at least one axis, or
    raised a ValueError. *)
Definition value_or_ValueError (r : exn + ndarray) : Prop :=
  match r with
  | inr y => shape y <> []
  | inl e => exists msg, e = ValueError msg
  end.

(** * Proofs *)

(** ** The complex numbers form a commutative ring *)

Lemma C_eq (x y : C) : fst x = fst y -> snd x = snd y -> x = y.
Proof. destruct x, y; simpl; congruence. Qed.

Ltac C_ring := intros; apply C_eq; simpl; ring.

Lemma C_ring_theory : ring_theory C0 C1 Cadd Cmul (fun x y => x + - y)%C Copp eq.
Proof. constructor; C_ring. Qed.

Add Ring C_ring : C_ring_theory.

Lemma Cmul_0_l (x : C) : (C0 * x)%C = C0.
Proof. ring. Qed.

Lemma Cmul_0_r (x : C) : (x * C0)%C = C0.
Proof. ring. Qed.

Lemma Cdiv_lin (a b x y z : C) : ((a * x + b * y) / z)%C = (a * (x / z) + b * (y / z))%C.
Proof. apply C_eq; simpl; unfold Rdiv; ring. Qed.

(** ** Sums *)

Lemma sum_n_ext (f g : nat -> C) n :
  (forall t, t < n -> f t = g t) -> sum_n f n = sum_n g n.
Proof.
  induction n as [|n IH]; intros H; simpl; [reflexivity|].
  rewrite IH, H by (intros; try apply H; lia). reflexivity.
Qed.

Lemma sum_n_lin (a b : C) (f g : nat -> C) n :
  sum_n (fun t => a * f t + b * g t)%C n = (a * sum_n f n + b * sum_n g n)%C.
Proof.
  induction n as [|n IH]; simpl; [ring|]. rewrite IH. ring.
Qed.

Lemma sum_n_zero n : sum_n (fun _ => C0) n = C0.
Proof. induction n as [|n IH]; simpl; [reflexivity|]. rewrite IH. ring. Qed.

Lemma sum_n_scal_r (f : nat -> C) (c : C) n :
  sum_n (fun t => f t * c)%C n = (sum_n f n * c)%C.
Proof. induction n as [|n IH]; simpl; [ring|]. rewrite IH. ring. Qed.

Lemma sum_n_scal_l (f : nat -> C) (c : C) n :
  sum_n (fun t => c * f t)%C n = (c * sum_n f n)%C.
Proof. induction n as [|n IH]; simpl; [ring|]. rewrite IH. ring. Qed.

Lemma sum_n_add (f g : nat -> C) n :
  sum_n (fun t => f t + g t)%C n = (sum_n f n + sum_n g n)%C.
Proof. induction n as [|n IH]; simpl; [ring|]. rewrite IH. ring. Qed.

(** Exchange of two finite sums. *)
Lemma sum_n_swap (f : nat -> nat -> C) n k :
  sum_n (fun t => sum_n (fun u => f t u) k) n
  = sum_n (fun u => sum_n (fun t => f t u) n) k.
Proof.
  induction n as [|n IH]; simpl.
  - now rewrite sum_n_zero.
  - rewrite IH, <- sum_n_add. reflexivity.
Qed.

(** A sum against the Kronecker delta picks one term. *)
Lemma sum_n_delta (f : nat -> C) (j n : nat) :
  j < n ->
  sum_n (fun t => f t * (if t =? j then C1 else C0))%C n = f j.
Proof.
  induction n as [|n IH]; intros Hj; [lia|]. simpl.
  destruct (Nat.eqb_spec n j) as [->|Hne].
  - rewrite (sum_n_ext _ (fun _ => C0)), sum_n_zero; [ring|].
    intros t Ht. destruct (Nat.eqb_spec t j); [lia|ring].
  - rewrite IH by lia. ring.
Qed.

(** ** Tabulated lists *)

Lemma length_tabulate {A} n (f : nat -> A) : length (tabulate n f) = n.
Proof. unfold tabulate. now rewrite length_map, length_seq. Qed.

Lemma nth_tabulate {A} n (f : nat -> A) i d :
  i < n -> nth i (tabulate n f) d = f i.
Proof.
  intros Hi. unfold tabulate.
  rewrite (nth_indep _ d (f 0)) by now rewrite length_map, length_seq.
  rewrite (map_nth f), seq_nth by lia. reflexivity.
Qed.

Lemma get_tabulate n (f : nat -> C) i : i < n -> get (tabulate n f) i = f i.
Proof. apply nth_tabulate. Qed.

Lemma tabulate_ext {A} n (f g : nat -> A) :
  (forall i, i < n -> f i = g i) -> tabulate n f = tabulate n g.
Proof.
  intros H. unfold tabulate. apply map_ext_in. intros i Hi.
  apply in_seq in Hi. apply H. lia.
Qed.

Lemma get_overflow (l : list C) i : length l <= i -> get l i = C0.
Proof. intros. unfold get. now apply nth_overflow. Qed.

(** ** Running the monad *)

Lemma bind_ok {A B} (c : Py A) (k : A -> Py B) s x s' :
  c s = (inr x, s') -> bind c k s = k x s'.
Proof. intros H. unfold bind. now rewrite H. Qed.

Lemma bind_err {A B} (c : Py A) (k : A -> Py B) s e s' :
  c s = (inl e, s') -> bind c k s = (inl e, s').
Proof. intros H. unfold bind. now rewrite H. Qed.

Lemma bind_inv {A B} (c : Py A) (k : A -> Py B) s y s2 :
  bind c k s = (inr y, s2) ->
  exists x s1, c s = (inr x, s1) /\ k x s1 = (inr y, s2).
Proof.
  unfold bind. destruct (c s) as [[e|x] s1]; intros H; [discriminate|eauto].
Qed.

(** ** Exceptions a computation cannot raise *)

Lemma never_ret {A} bad (x : A) : never bad (ret x).
Proof. now intros s. Qed.

Lemma never_raise {A} bad e : bad e = false -> never bad (@raise A e).
Proof. now intros H s. Qed.

Lemma never_bind {A B} bad (c : Py A) (k : A -> Py B) :
  never bad c -> (forall x, never bad (k x)) -> never bad (bind c k).
Proof.
  intros Hc Hk s. unfold bind. specialize (Hc s).
  destruct (c s) as [[e|x] s1]; simpl in *; [exact Hc|apply Hk].
Qed.

Lemma never_lift {A} bad (r : exn + A) :
  match r with inl e => bad e = false | inr _ => True end -> never bad (lift r).
Proof. destruct r; intros H s; exact H. Qed.

Lemma never_if {A} bad (b : bool) (c1 c2 : Py A) :
  never bad c1 -> never bad c2 -> never bad (if b then c1 else c2).
Proof. now destruct b. Qed.

Lemma never_setattr bad n v : never bad (setattr n v).
Proof. now intros s. Qed.

Lemma never_getattr bad n :
  bad (AttributeError n) = false -> never bad (getattr n).
Proof. intros H s. unfold getattr. now destruct (self s !! n). Qed.

Lemma never_new_array bad a : never bad (new_array a).
Proof. now intros s. Qed.

Lemma never_new_view bad b ops : never bad (new_view b ops).
Proof. now intros s. Qed.

Lemma never_read bad l : bad TypeError = false -> never bad (read l).
Proof. intros H s. unfold read. now destruct (deref (heap s) l). Qed.

Lemma never_as_ref bad v : bad TypeError = false -> never bad (as_ref v).
Proof. intros H. destruct v; first [apply never_ret | now apply never_raise]. Qed.

Lemma never_py_div bad x y : bad ZeroDivisionError = false -> never bad (py_div x y).
Proof.
  intros H. unfold py_div. destruct (Req_dec_T y 0);
    [now apply never_raise | apply never_ret].
Qed.

Lemma never_py_index {A} bad (l : list A) i :
  bad IndexError = false -> never bad (py_index l i).
Proof.
  intros H. unfold py_index.
  repeat first [ apply never_ret | now apply never_raise
               | match goal with |- never _ (if ?b then _ else _) => destruct b end
               | match goal with |- never _ (match ?o with _ => _ end) => destruct o end ].
Qed.

Lemma never_py_setitem {A} bad (l : list A) i v :
  bad IndexError = false -> never bad (py_setitem l i v).
Proof.
  intros H. unfold py_setitem. destruct (i <? length l);
    [apply never_ret | now apply never_raise].
Qed.

Lemma never_swapaxes bad a ax1 ax2 :
  bad TypeError = false ->
  bad (ValueError "bad axis argument to swapaxes") = false ->
  never bad (swapaxes a ax1 ax2).
Proof.
  intros H1 H2. unfold swapaxes. apply never_bind; [now apply never_read|].
  intros av. destruct (norm_axis (ndim av) ax1), (norm_axis (ndim av) ax2);
    try (now apply never_raise).
  intros s. destruct (heap s !! a) as [[|]|]; exact I.
Qed.

Lemma never_np_scalar_mul bad a x :
  bad TypeError = false -> never bad (np_scalar_mul a x).
Proof.
  intros H. unfold np_scalar_mul. apply never_bind; [now apply never_read|].
  intros; apply never_new_array.
Qed.

Lemma never_setitem_row0 bad a x :
  bad IndexError = false -> bad TypeError = false ->
  (forall w, bad (Unmodelled w) = false) ->
  never bad (setitem_row0 a x).
Proof.
  intros H1 H2 H3 s. unfold setitem_row0.
  destruct (heap s !! a) as [[[sh d]|]|]; simpl; auto.
  destruct sh as [|n [|k [|]]]; simpl; auto.
  destruct (n =? 0); simpl; auto.
Qed.

Lemma fft_gen_never_bad_m inv a n :
  match fft_gen inv a n with inl e => is_bad_m e = false | inr _ => True end.
Proof.
  unfold fft_gen. destruct (shape a); [reflexivity|].
  destruct (_ <? 1)%Z; [reflexivity|exact I].
Qed.

Section NoBadM.

Variable jn : Z -> R -> R.
Variable jn_zeros : Z -> nat -> list R.
Variable fsolve : (R -> R) -> R -> R.
Variable linalg_inv : nat -> list C -> option (list C).
Variable cuda_installed : bool.

Lemma never_scipy_jn_zeros n nt : never is_bad_m (scipy_jn_zeros jn_zeros n nt).
Proof.
  unfold scipy_jn_zeros. destruct (nt <=? 0)%Z;
    [now apply never_raise | apply never_ret].
Qed.

Lemma never_np_linalg_inv a : never is_bad_m (np_linalg_inv linalg_inv a).
Proof.
  unfold np_linalg_inv. apply never_bind; [now apply never_read|].
  intros av. destruct (shape av) as [|n [|k [|]]]; try (now apply never_raise).
  destruct (n =? k); [|now apply never_raise].
  destruct (linalg_inv n (data av)); [apply never_new_array|now apply never_raise].
Qed.

Ltac never_tac :=
  repeat first
    [ apply never_ret
    | apply never_setattr
    | apply never_new_array
    | apply never_scipy_jn_zeros
    | apply never_np_linalg_inv
    | apply never_py_index; reflexivity
    | apply never_py_setitem; reflexivity
    | apply never_py_div; reflexivity
    | apply never_getattr; reflexivity
    | apply never_as_ref; reflexivity
    | apply never_np_scalar_mul; reflexivity
    | apply never_swapaxes; reflexivity
    | apply never_setitem_row0; [reflexivity|reflexivity|reflexivity]
    | apply never_raise; reflexivity
    | apply never_lift; apply fft_gen_never_bad_m
    | apply never_bind; [|intros ?]
    | match goal with
      | |- never _ (if ?b then _ else _) => destruct b
      | |- never _ (match ?o with Some _ => _ | None => _ end) => destruct o
      end ].

Lemma never_QDHT_init p N rmax : never is_bad_m (QDHT_init jn jn_zeros p N rmax).
Proof. unfold QDHT_init. never_tac. Qed.

Lemma never_FHT_init p N rmax : never is_bad_m (FHT_init jn fsolve p N rmax).
Proof. unfold FHT_init. never_tac. Qed.

(** Past its first statement, [MDHT_init] does not raise the error of line 231. *)
Lemma never_MDHT_init p N rmax m d Fw :
  Z_in m [p - 1; p; p + 1]%Z = true ->
  never is_bad_m (MDHT_init jn jn_zeros linalg_inv p N rmax m d Fw).
Proof.
  intros Hm.
  unfold MDHT_init, MDHT_init_with, MDHT_matrix_M, MDHT_matrix_M_with, MDHT_grid.
  rewrite Hm.
  unfold MDHT_zeros, MDHT_guard, MDHT_S_KaiMing. never_tac.
Qed.

End NoBadM.

(** ** The constructor *)

Section Constructor.

Variable jn : Z -> R -> R.
Variable jn_zeros : Z -> nat -> list R.
Variable fsolve : (R -> R) -> R -> R.
Variable linalg_inv : nat -> list C -> option (list C).
Variable cuda_installed : bool.

Lemma Z_in_neighbours (p : Z) :
  Z_in p [p - 1; p; p + 1]%Z = true
  /\ Z_in (p + 1) [p - 1; p; p + 1]%Z = true
  /\ Z_in (p - 1) [p - 1; p; p + 1]%Z = true.
Proof.
  unfold Z_in; simpl. rewrite !Z.eqb_refl, !orb_true_r. auto.
Qed.

(** C1: the constructor rejects the method string 'FHT' with the ValueError
    of an unknown method, and leaves the state as it found it: the list
    [available_methods] does not hold 'FHT', although the module's docstring
    names it among the available methods and lines 111-112 dispatch on it. *)
Theorem init_rejects_FHT p N rmax use_cuda kw s :
  __init__ jn jn_zeros fsolve linalg_inv cuda_installed p N rmax "FHT" use_cuda kw s
  = (inl (ValueError "Illegal method string"), s).
Proof. reflexivity. Qed.

(** The method check comes first and decides alone: a string outside
    [available_methods] raises before anything is stored or computed. *)
Lemma init_illegal_method p N rmax method use_cuda kw s :
  str_in method available_methods = false ->
  __init__ jn jn_zeros fsolve linalg_inv cuda_installed p N rmax method use_cuda kw s
  = (inl (ValueError "Illegal method string"), s).
Proof. intros H. unfold __init__, bind. now rewrite H. Qed.

(** C10: whatever its arguments, the constructor never raises the error of
    an invalid auxiliary order (line 231): the three calls of [MDHT_init] pass
    [m = p], [m = p + 1] and [m = p - 1], each of which the check accepts. *)
Theorem init_never_bad_m p N rmax method use_cuda kw :
  never is_bad_m
    (__init__ jn jn_zeros fsolve linalg_inv cuda_installed p N rmax method use_cuda kw).
Proof.
  destruct (Z_in_neighbours p) as (H0 & H1 & H2).
  unfold __init__.
  repeat first
    [ apply never_QDHT_init
    | apply never_FHT_init
    | apply never_MDHT_init; assumption
    | apply never_setattr
    | apply never_ret
    | apply never_raise; reflexivity
    | apply never_getattr; reflexivity
    | apply never_bind; [|intros ?]
    | match goal with |- never _ (if ?b then _ else _) => destruct b end ].
Qed.

(** The check itself is live: called with any other order, [MDHT_init] raises
    that error at once. *)
Lemma MDHT_init_bad_m p N rmax m d Fw s :
  Z_in m [p - 1; p; p + 1]%Z = false ->
  MDHT_init jn jn_zeros linalg_inv p N rmax m d Fw s
  = (inl (ValueError (msg_bad_m p m)), s).
Proof. intros H. unfold MDHT_init, MDHT_init_with, bind. now rewrite H. Qed.

Lemma msg_bad_m_is_bad_m p m : is_bad_m (ValueError (msg_bad_m p m)) = true.
Proof. reflexivity. Qed.

End Constructor.

(** ** The heap only grows *)

Lemma extends_refl s : extends s s.
Proof. split; [reflexivity|]. exists []. now rewrite app_nil_r. Qed.

Lemma extends_trans s1 s2 s3 : extends s1 s2 -> extends s2 s3 -> extends s1 s3.
Proof.
  intros [A1 [c1 B1]] [A2 [c2 B2]]. split; [congruence|].
  exists (c1 ++ c2). now rewrite B2, B1, <- app_assoc.
Qed.

Lemma extends_alloc s c : extends s (mk_state (self s) (heap s ++ [c])).
Proof. split; [reflexivity|]. now exists [c]. Qed.

Lemma extends_length s s' : extends s s' -> length (heap s) <= length (heap s').
Proof. intros [_ [c ->]]. rewrite length_app. lia. Qed.

Lemma deref_app h t l a : deref h l = Some a -> deref (h ++ t) l = Some a.
Proof.
  unfold deref. intros H.
  destruct (h !! l) as [c|] eqn:E; [|discriminate].
  rewrite (lookup_app_l_Some _ _ _ _ E).
  destruct c as [|b ops]; [exact H|].
  destruct (h !! b) as [c'|] eqn:E'; [|discriminate].
  now rewrite (lookup_app_l_Some _ _ _ _ E').
Qed.

Lemma deref_extends s s' l a :
  extends s s' -> deref (heap s) l = Some a -> deref (heap s') l = Some a.
Proof. intros [_ [c ->]]. apply deref_app. Qed.

Lemma lookup_extends s s' l c :
  extends s s' -> heap s !! l = Some c -> heap s' !! l = Some c.
Proof. intros [_ [cs ->]]. apply lookup_app_l_Some. Qed.

Lemma has_array_extends s s' n a :
  extends s s' -> has_array s n a -> has_array s' n a.
Proof.
  intros E (l & H1 & H2). exists l. split; [now rewrite (proj1 E)|].
  eapply deref_extends; eauto.
Qed.

Lemma deref_new_arr h a : deref (h ++ [Arr a]) (length h) = Some a.
Proof. unfold deref. now rewrite list_lookup_middle. Qed.

Lemma deref_Arr h l a : h !! l = Some (Arr a) -> deref h l = Some a.
Proof. unfold deref. now intros ->. Qed.

Lemma outcome_weaken c s r : outcome true c s r -> outcome false c s r.
Proof.
  destruct r as [e|v]; [exact (fun H => H)|].
  intros (l & s' & H1 & H2 & H3 & H4). exists l, s'.
  refine (conj H1 (conj H2 (conj H3 _))). now apply deref_Arr.
Qed.

(** A call followed by another. *)
Lemma outcome_bind own c k s r f :
  outcome false c s r ->
  (forall l s' v, c s = (inr l, s') -> extends s s' ->
                  deref (heap s') l = Some v -> r = inr v ->
                  outcome own (k l) s' (f v)) ->
  outcome own (bind c k) s (ebind r f).
Proof.
  intros Hc Hk. destruct r as [e|v]; unfold ebind.
  - destruct Hc as (s' & H1 & H2). exists s'. split; [|exact H2].
    now apply bind_err.
  - destruct Hc as (l & s' & H1 & H2 & H3 & H4).
    specialize (Hk l s' v H1 H2 H4 eq_refl).
    unfold outcome. rewrite (bind_ok _ _ _ _ _ H1).
    destruct (f v) as [e|w].
    + destruct Hk as (s2 & K1 & K2). exists s2. split; [exact K1|].
      eapply extends_trans; eauto.
    + destruct Hk as (l2 & s2 & K1 & K2 & K3 & K4). exists l2, s2.
      refine (conj K1 (conj (extends_trans _ _ _ H2 K2) (conj _ K4))).
      pose proof (extends_length _ _ H2). lia.
Qed.

(** An operation that computes [r] from values and stores it in a new array. *)
Lemma outcome_alloc s (r : exn + ndarray) :
  outcome true (do x <- lift r; new_array x) s r.
Proof.
  destruct r as [e|v]; simpl.
  - exists s. split; [reflexivity|apply extends_refl].
  - exists (length (heap s)), (mk_state (self s) (heap s ++ [Arr v])).
    refine (conj eq_refl (conj (extends_alloc _ _) (conj (le_n _) _))).
    simpl. apply list_lookup_middle. reflexivity.
Qed.

(** A step that reads and leaves the state alone. *)
Lemma outcome_step {A} own (c : Py A) (k : A -> Py loc) s x r :
  c s = (inr x, s) -> outcome own (k x) s r -> outcome own (bind c k) s r.
Proof.
  intros H. destruct r; unfold outcome; now rewrite (bind_ok _ _ _ _ _ H).
Qed.

Lemma read_ok s l a : deref (heap s) l = Some a -> read l s = (inr a, s).
Proof. unfold read. now intros ->. Qed.

Lemma getattr_ok s n v : self s !! n = Some v -> getattr n s = (inr v, s).
Proof. unfold getattr. now intros ->. Qed.

Lemma outcome_np_mul s a v av vv :
  deref (heap s) a = Some av -> deref (heap s) v = Some vv ->
  outcome true (np_mul a v) s (mul_val av vv).
Proof.
  intros Ha Hv. unfold np_mul.
  apply (outcome_step _ _ _ _ _ _ (read_ok _ _ _ Ha)).
  apply (outcome_step _ _ _ _ _ _ (read_ok _ _ _ Hv)).
  apply outcome_alloc.
Qed.

Lemma outcome_np_dot s a b av bv :
  deref (heap s) a = Some av -> deref (heap s) b = Some bv ->
  outcome true (np_dot a b) s (dot_val av bv).
Proof.
  intros Ha Hb. unfold np_dot.
  apply (outcome_step _ _ _ _ _ _ (read_ok _ _ _ Ha)).
  apply (outcome_step _ _ _ _ _ _ (read_ok _ _ _ Hb)).
  apply outcome_alloc.
Qed.

Lemma outcome_np_fft_fft s a av n :
  deref (heap s) a = Some av ->
  outcome true (np_fft_fft a n) s (fft_val av n).
Proof.
  intros Ha. unfold np_fft_fft.
  apply (outcome_step _ _ _ _ _ _ (read_ok _ _ _ Ha)).
  apply outcome_alloc.
Qed.

Lemma outcome_ret_new s (v : ndarray) :
  outcome true (new_array v) s (inr v).
Proof. apply (outcome_alloc s (inr v)). Qed.

Lemma outcome_np_scalar_mul s a av x :
  deref (heap s) a = Some av ->
  outcome true (np_scalar_mul a x) s (inr (scalar_mul_val av (RtoC x))).
Proof.
  intros Ha. unfold np_scalar_mul.
  apply (outcome_step _ _ _ _ _ _ (read_ok _ _ _ Ha)). apply outcome_ret_new.
Qed.

Lemma outcome_np_div_scalar s a av x :
  deref (heap s) a = Some av ->
  outcome true (np_div_scalar a x) s (inr (div_scalar_val av (RtoC x))).
Proof.
  intros Ha. unfold np_div_scalar.
  apply (outcome_step _ _ _ _ _ _ (read_ok _ _ _ Ha)). apply outcome_ret_new.
Qed.

Lemma outcome_np_rdiv_scalar s a av x :
  deref (heap s) a = Some av ->
  outcome true (np_rdiv_scalar x a) s (inr (rdiv_scalar_val (RtoC x) av)).
Proof.
  intros Ha. unfold np_rdiv_scalar.
  apply (outcome_step _ _ _ _ _ _ (read_ok _ _ _ Ha)). apply outcome_ret_new.
Qed.

(** Along the last axis [array_multiply] moves nothing: it is the product. *)
Lemma outcome_array_multiply s a v av vv :
  deref (heap s) a = Some av -> deref (heap s) v = Some vv ->
  outcome true (array_multiply a v (-1)) s (mul_val av vv).
Proof.
  intros Ha Hv. unfold array_multiply.
  apply (outcome_step _ _ _ _ _ _ (read_ok _ _ _ Ha)).
  replace ((1 <? ndim av) && negb (-1 =? -1)%Z) with false
    by (now rewrite andb_false_r).
  change (outcome true (do r <- np_mul a v; ret r) s (mul_val av vv)).
  pose proof (outcome_np_mul s a v av vv Ha Hv) as H.
  destruct (mul_val av vv) as [e|w]; unfold outcome in *.
  - destruct H as (s' & H1 & H2). exists s'. split; [|exact H2].
    now apply bind_err.
  - destruct H as (l & s' & H1 & H2 & H3 & H4). exists l, s'.
    refine (conj _ (conj H2 (conj H3 H4))). now rewrite (bind_ok _ _ _ _ _ H1).
Qed.

(** [split] returns a view of the first half. *)
Lemma outcome_np_split_first s a av :
  heap s !! a = Some (Arr av) ->
  outcome false (np_split_first a) s (split_first_val av).
Proof.
  intros Ha. unfold np_split_first.
  apply (outcome_step _ _ _ _ _ _ (read_ok _ _ _ (deref_Arr _ _ _ Ha))).
  destruct (split_first_val av) as [e|w] eqn:E; unfold outcome.
  - exists s. split; [reflexivity|apply extends_refl].
  - unfold bind; simpl. rewrite Ha. unfold new_view.
    eexists _, _.
    refine (conj eq_refl (conj (extends_alloc _ _) (conj (le_n _) _))).
    simpl. unfold deref. rewrite list_lookup_middle by reflexivity.
    rewrite (lookup_app_l_Some _ _ _ _ Ha). simpl. now rewrite E.
Qed.

Lemma apply_views_app ops1 ops2 a :
  apply_views (ops1 ++ ops2) a = ebind (apply_views ops1 a) (apply_views ops2).
Proof.
  revert a. induction ops1 as [|op ops1 IH]; intros a; simpl; [reflexivity|].
  destruct (apply_view op a); simpl; [reflexivity|apply IH].
Qed.

(** [split] returns a view of the first half, whatever its operand is. *)
Lemma outcome_np_split s a av :
  deref (heap s) a = Some av ->
  outcome false (np_split_first a) s (split_first_val av).
Proof.
  intros Ha. unfold np_split_first.
  apply (outcome_step _ _ _ _ _ _ (read_ok _ _ _ Ha)).
  destruct (split_first_val av) as [e|w] eqn:E; unfold outcome.
  - exists s. split; [reflexivity|apply extends_refl].
  - unfold bind; simpl. unfold deref in Ha.
    destruct (heap s !! a) as [[a0|b ops]|] eqn:Ea; [| |discriminate].
    + injection Ha as ->. unfold new_view. eexists _, _.
      refine (conj eq_refl (conj (extends_alloc _ _) (conj (le_n _) _))).
      simpl. unfold deref. rewrite list_lookup_middle by reflexivity.
      rewrite (lookup_app_l_Some _ _ _ _ Ea). simpl. now rewrite E.
    + destruct (heap s !! b) as [[a0|]|] eqn:Eb; try discriminate.
      destruct (apply_views ops a0) as [|a1] eqn:Ev; [discriminate|].
      injection Ha as ->. unfold new_view. eexists _, _.
      refine (conj eq_refl (conj (extends_alloc _ _) (conj (le_n _) _))).
      simpl. unfold deref. rewrite list_lookup_middle by reflexivity.
      rewrite (lookup_app_l_Some _ _ _ _ Eb).
      rewrite apply_views_app, Ev. simpl. now rewrite E.
Qed.

(** A step whose value is known. *)
Lemma outcome_bind_val own c k s v r :
  outcome false c s (inr v) ->
  (forall l s', extends s s' -> deref (heap s') l = Some v ->
                outcome own (k l) s' r) ->
  outcome own (bind c k) s r.
Proof.
  intros Hc Hk.
  apply (outcome_bind own c k s (inr v) (fun _ => r) Hc).
  intros l s' v' _ E D Hv. injection Hv as <-. now apply Hk.
Qed.

Lemma has_array_getattr s n a :
  has_array s n a ->
  exists l, getattr n s = (inr (VRef l), s) /\ deref (heap s) l = Some a.
Proof. intros (l & H1 & H2). exists l. split; [now apply getattr_ok|exact H2]. Qed.

Lemma as_ref_ok s l : as_ref (VRef l) s = (inr l, s).
Proof. reflexivity. Qed.

Lemma as_float_ok s x : as_float (VFloat x) s = (inr x, s).
Proof. reflexivity. Qed.

Lemma as_int_ok s z : as_int (VInt z) s = (inr z, s).
Proof. reflexivity. Qed.

(** Reads an attribute that holds an array. *)
Ltac get_array H :=
  let l := fresh "l" in let G := fresh "G" in let D := fresh "D" in
  destruct (has_array_getattr _ _ _ H) as (l & G & D);
  apply (outcome_step _ _ _ _ _ _ G);
  apply (outcome_step _ _ _ _ _ _ (as_ref_ok _ l)).

(** Carries what is known of [s] over to a state that extends it. *)
Ltac carry E :=
  repeat match goal with
    | H : has_array ?s _ _ |- outcome _ _ ?s' _ =>
        lazymatch s with s' => fail | _ => apply (has_array_extends _ _ _ _ E) in H end
    | H : deref (heap ?s) _ = Some _ |- outcome _ _ ?s' _ =>
        lazymatch s with s' => fail | _ => apply (deref_extends _ _ _ _ E) in H end
    | H : self ?s !! _ = Some _ |- outcome _ _ ?s' _ =>
        lazymatch s with s' => fail | _ => rewrite <- (proj1 E) in H end
    end.

Lemma outcome_bind_ret own c s r :
  outcome own c s r -> outcome own (do x <- c; ret x) s r.
Proof.
  intros H. destruct r as [e|w]; unfold outcome in *.
  - destruct H as (s' & K1 & K2). exists s'. split; [|exact K2].
    now apply bind_err.
  - destruct H as (lf & s' & K1 & K2 & K3 & K4). exists lf, s'.
    refine (conj _ (conj K2 (conj K3 K4))). now rewrite (bind_ok _ _ _ _ _ K1).
Qed.

Section Transforms.

Variable cuda_dot : ndarray -> ndarray -> exn + ndarray.

(** The device computes the product that [np.dot] computes. *)
Hypothesis cuda_dot_spec : forall a b, cuda_dot a b = dot_val a b.

Lemma outcome_cuda_stream_dot s a b av bv :
  deref (heap s) a = Some av -> deref (heap s) b = Some bv ->
  outcome true (cuda_stream_dot cuda_dot a b) s (dot_val av bv).
Proof.
  intros Ha Hb. unfold cuda_stream_dot.
  apply (outcome_step _ _ _ _ _ _ (read_ok _ _ _ Ha)).
  apply (outcome_step _ _ _ _ _ _ (read_ok _ _ _ Hb)).
  rewrite cuda_dot_spec. apply outcome_alloc.
Qed.

Lemma outcome_MDHT_dot s name A F x :
  (exists uc, self s !! "use_cuda" = Some (VBool uc)
              /\ (uc = true -> self s !! "cuda_stream" = Some VBlas)) ->
  has_array s name A -> deref (heap s) F = Some x ->
  outcome true
    (do uc <- getattr "use_cuda";
     if truthy uc then
       do _ <- getattr "cuda_stream";
       do v <- getattr name; do M <- as_ref v; cuda_stream_dot cuda_dot F M
     else do v <- getattr name; do M <- as_ref v; np_dot F M)
    s (MDHT_value A x).
Proof.
  intros (uc & Huc & Hcs) HA HF.
  apply (outcome_step _ _ _ _ _ _ (getattr_ok _ _ _ Huc)).
  destruct uc; simpl.
  - apply (outcome_step _ _ _ _ _ _ (getattr_ok _ _ _ (Hcs eq_refl))).
    get_array HA. now apply outcome_cuda_stream_dot.
  - get_array HA. now apply outcome_np_dot.
Qed.

Lemma outcome_MDHT_transform s n M invM F x :
  MDHT_instance s n M invM -> deref (heap s) F = Some x ->
  outcome true (MDHT_transform cuda_dot F) s (MDHT_value M x).
Proof. intros [] HF. now apply outcome_MDHT_dot. Qed.

Lemma outcome_MDHT_inverse_transform s n M invM G x :
  MDHT_instance s n M invM -> deref (heap s) G = Some x ->
  outcome true (MDHT_inverse_transform cuda_dot G) s (MDHT_value invM x).
Proof. intros [] HF. now apply outcome_MDHT_dot. Qed.

Lemma outcome_QDHT s J_inv J T c1 c2 n1 n2 F x :
  has_array s "J_inv" J_inv -> has_array s "J" J -> has_array s "T" T ->
  self s !! n1 = Some (VFloat c1) -> self s !! n2 = Some (VFloat c2) ->
  deref (heap s) F = Some x ->
  outcome true
    (do v <- getattr "J_inv"; do J_inv <- as_ref v;
     do v <- getattr n1; do c1 <- as_float v;
     do w <- np_scalar_mul J_inv c1;
     do F <- array_multiply F w (-1);
     do v <- getattr "T"; do T <- as_ref v;
     do G <- np_dot F T;
     do v <- getattr "J"; do J <- as_ref v;
     do v <- getattr n2; do c2 <- as_float v;
     do w <- np_div_scalar J c2;
     do G <- array_multiply G w (-1);
     ret G)
    s (QDHT_value J_inv J T c1 c2 x).
Proof.
  intros HJi HJ HT H1 H2 HF. unfold QDHT_value.
  get_array HJi.
  apply (outcome_step _ _ _ _ _ _ (getattr_ok _ _ _ H1)).
  apply (outcome_step _ _ _ _ _ _ (as_float_ok _ _)).
  eapply outcome_bind_val;
    [apply outcome_weaken, outcome_np_scalar_mul; eassumption|].
  intros lw s1 E1 Dw. carry E1.
  apply outcome_bind;
    [apply outcome_weaken, outcome_array_multiply; eassumption|].
  intros l1 s2 x1 _ E2 D1 _. carry E2.
  get_array HT.
  apply outcome_bind; [apply outcome_weaken, outcome_np_dot; eassumption|].
  intros l2 s3 x2 _ E3 D2 _. carry E3.
  get_array HJ.
  apply (outcome_step _ _ _ _ _ _ (getattr_ok _ _ _ H2)).
  apply (outcome_step _ _ _ _ _ _ (as_float_ok _ _)).
  eapply outcome_bind_val;
    [apply outcome_weaken, outcome_np_div_scalar; eassumption|].
  intros lw2 s4 E4 Dw2. carry E4.
  apply outcome_bind_ret, outcome_array_multiply; assumption.
Qed.

Lemma outcome_FHT s w1 k w2 n1 n2 N F x :
  has_array s n1 w1 -> has_array s "fft_j_convol" k -> has_array s n2 w2 ->
  self s !! "N" = Some (VInt N) ->
  deref (heap s) F = Some x ->
  outcome true
    (do v <- getattr n1; do r <- as_ref v;
     do rF <- array_multiply F r (-1);
     do v <- getattr "N"; do N <- as_int v;
     do fft_rF <- np_fft_fft rF (Some (2 * N)%Z);
     do v <- getattr "fft_j_convol"; do k <- as_ref v;
     do fft_nuG <- array_multiply fft_rF k (-1);
     do nuG_large <- np_fft_fft fft_nuG None;
     do nuG <- np_split_first nuG_large;
     do v <- getattr n2; do nu <- as_ref v;
     do w <- np_rdiv_scalar 1 nu;
     do G <- array_multiply nuG w (-1);
     ret G)
    s (FHT_value w1 k w2 N x).
Proof.
  intros H1 Hk H2 HN HF. unfold FHT_value.
  get_array H1.
  apply outcome_bind;
    [apply outcome_weaken, outcome_array_multiply; eassumption|].
  intros l1 s1 x1 _ E1 D1 _. carry E1.
  apply (outcome_step _ _ _ _ _ _ (getattr_ok _ _ _ HN)).
  apply (outcome_step _ _ _ _ _ _ (as_int_ok _ _)).
  apply outcome_bind;
    [apply outcome_weaken, outcome_np_fft_fft; eassumption|].
  intros l2 s2 x2 _ E2 D2 _. carry E2.
  get_array Hk.
  apply outcome_bind;
    [apply outcome_weaken, outcome_array_multiply; eassumption|].
  intros l3 s3 x3 _ E3 D3 _. carry E3.
  apply outcome_bind;
    [apply outcome_weaken, outcome_np_fft_fft; eassumption|].
  intros l4 s4 x4 _ E4 D4 _. carry E4.
  apply outcome_bind; [apply outcome_np_split; eassumption|].
  intros l5 s5 x5 _ E5 D5 _. carry E5.
  get_array H2.
  eapply outcome_bind_val;
    [apply outcome_weaken, outcome_np_rdiv_scalar; eassumption|].
  intros lw s6 E6 Dw. carry E6.
  apply outcome_bind_ret, outcome_array_multiply; assumption.
Qed.

(** What a call of [transform] or [inverse_transform] does on an instance: it
    returns, in a new array, the value the method computes from the input, or
    raises what that computation raises; nothing that existed changes. *)
Lemma transform_outcome s n fwd inv F x :
  computes s n fwd inv -> deref (heap s) F = Some x ->
  outcome true (transform cuda_dot F) s (fwd x)
  /\ outcome true (inverse_transform cuda_dot F) s (inv x).
Proof.
  intros [M invM HI -> ->|J_inv J T rmax numax HI -> ->|r nu k HI -> ->] HF.
  - destruct (md_method _ _ _ _ HI) as (meth & Hm & Hin).
    assert (is_str (VStr meth) "FHT" = false /\ is_str (VStr meth) "QDHT" = false)
      as [N1 N2].
    { pose proof Hin as Hin'. unfold str_in, MDHT_methods in Hin'. simpl in Hin'.
      repeat (apply orb_true_iff in Hin'; destruct Hin' as [Hin'|Hin']);
        try discriminate; apply String.eqb_eq in Hin'; subst meth; auto. }
    split; unfold transform, inverse_transform;
      apply (outcome_step _ _ _ _ _ _ (getattr_ok _ _ _ Hm));
      rewrite N1, N2;
      change (is_in (VStr meth) MDHT_methods) with (str_in meth MDHT_methods);
      rewrite Hin.
    + eapply outcome_MDHT_transform; eauto.
    + eapply outcome_MDHT_inverse_transform; eauto.
  - destruct HI. split; unfold transform, inverse_transform;
      apply (outcome_step _ _ _ _ _ _ (getattr_ok _ _ _ qd_method0));
      simpl; now apply outcome_QDHT.
  - destruct HI. split; unfold transform, inverse_transform;
      apply (outcome_step _ _ _ _ _ _ (getattr_ok _ _ _ fh_method0));
      simpl; now apply outcome_FHT.
Qed.

End Transforms.

(** ** Linearity of the operations on values *)

Lemma get_lin a b (d1 d2 : list C) i :
  length d1 = length d2 ->
  get (zip_with (fun u v => a * u + b * v)%C d1 d2) i
  = (a * get d1 i + b * get d2 i)%C.
Proof.
  unfold get.
  revert d2 i. induction d1 as [|u d1 IH]; intros [|v d2] i H; try discriminate.
  - destruct i; simpl; ring.
  - destruct i; simpl; [reflexivity|]. apply IH. simpl in H. lia.
Qed.

Lemma lin_tabulate a b n (f g : nat -> C) :
  zip_with (fun u v => a * u + b * v)%C (tabulate n f) (tabulate n g)
  = tabulate n (fun i => a * f i + b * g i)%C.
Proof.
  unfold tabulate. generalize (seq 0 n). intros l.
  induction l as [|i l IH]; simpl; [reflexivity|now rewrite IH].
Qed.

Lemma lin_map a b (f g : C -> C) (l : list C) :
  zip_with (fun u v => a * u + b * v)%C (map f l) (map g l)
  = map (fun t => a * f t + b * g t)%C l.
Proof. induction l as [|t l IH]; simpl; [reflexivity|now rewrite IH]. Qed.

Lemma lin_map2 a b (f : C -> C) (l1 l2 : list C) :
  (forall u v, f (a * u + b * v)%C = (a * f u + b * f v)%C) ->
  map f (zip_with (fun u v => a * u + b * v)%C l1 l2)
  = zip_with (fun u v => a * u + b * v)%C (map f l1) (map f l2).
Proof.
  intros Hf. revert l2. induction l1 as [|u l1 IH]; intros [|v l2]; simpl; auto.
  now rewrite Hf, IH.
Qed.

Lemma same_shape_tabulate s n (f g : nat -> C) :
  same_shape (mk_nd s (tabulate n f)) (mk_nd s (tabulate n g)).
Proof. split; simpl; [reflexivity|now rewrite !length_tabulate]. Qed.

Lemma length_lin a b (d1 d2 : list C) :
  length d1 = length d2 ->
  length (zip_with (fun u v => a * u + b * v)%C d1 d2) = length d1.
Proof. intros H. rewrite length_zip_with. lia. Qed.

(** The shape of a linear combination, and what depends on the shape only. *)
Lemma ncols_lin a b x y : ncols (lin_comb a b x y) = ncols x.
Proof. reflexivity. Qed.

Lemma nrows_lin a b x y : nrows (lin_comb a b x y) = nrows x.
Proof. reflexivity. Qed.

Ltac lin_start :=
  let a := fresh "a" in let b := fresh "b" in
  let x1 := fresh "x1" in let x2 := fresh "x2" in
  let y1 := fresh "y1" in let y2 := fresh "y2" in
  let Hs := fresh "Hs" in let Hl := fresh "Hl" in
  intros a b x1 x2 y1 y2 [Hs Hl];
  assert (ncols x2 = ncols x1) as Hc by (unfold ncols; now rewrite Hs);
  assert (nrows x2 = nrows x1) as Hr by (unfold nrows; now rewrite Hs).

Ltac lin_inj :=
  repeat match goal with
    | H : inr _ = inr _ |- _ => injection H as <-
    | H : inl _ = inr _ |- _ => discriminate H
    end.

Lemma linear_mul_val v : linear_op (fun x => mul_val x v).
Proof.
  lin_start. unfold mul_val. rewrite Hc, Hr.
  change (shape (lin_comb a b x1 x2)) with (shape x1).
  change (ncols (lin_comb a b x1 x2)) with (ncols x1).
  change (nrows (lin_comb a b x1 x2)) with (nrows x1).
  change (data (lin_comb a b x1 x2))
    with (zip_with (fun u v => a * u + b * v)%C (data x1) (data x2)).
  rewrite <- Hs.
  destruct (shape v) as [|n [|]]; try discriminate.
  destruct (shape x1) as [|d0 sh] eqn:E.
  - intros H1 H2. lin_inj. split.
    + split; simpl; [reflexivity|now rewrite !length_map].
    + unfold lin_comb; simpl. f_equal. f_equal. rewrite lin_map.
      apply map_ext. intros t. rewrite get_lin by assumption. ring.
  - destruct (ncols x1 =? n); [|destruct (ncols x1 =? 1); [|destruct (n =? 1)]];
      intros H1 H2; lin_inj.
    + split; [apply same_shape_tabulate|].
      unfold lin_comb; simpl. f_equal. f_equal. rewrite lin_tabulate.
      apply tabulate_ext. intros i _. rewrite get_lin by assumption. ring.
    + split; [apply same_shape_tabulate|].
      unfold lin_comb; simpl. f_equal. f_equal. rewrite lin_tabulate.
      apply tabulate_ext. intros i _. rewrite get_lin by assumption. ring.
    + split; [split; simpl; [reflexivity|now rewrite !length_map]|].
      unfold lin_comb; simpl. f_equal. f_equal.
      apply (lin_map2 a b (fun x => x * get (data v) 0)%C). intros; ring.
Qed.

Lemma linear_dot_val B : linear_op (fun x => dot_val x B).
Proof.
  lin_start. unfold dot_val. rewrite Hc, Hr.
  change (shape (lin_comb a b x1 x2)) with (shape x1).
  change (ncols (lin_comb a b x1 x2)) with (ncols x1).
  change (nrows (lin_comb a b x1 x2)) with (nrows x1).
  change (data (lin_comb a b x1 x2))
    with (zip_with (fun u v => a * u + b * v)%C (data x1) (data x2)).
  rewrite <- Hs.
  destruct (shape B) as [|k [|j [|]]]; try discriminate.
  destruct (shape x1) as [|d0 sh] eqn:E.
  - intros H1 H2. lin_inj. split.
    + split; simpl; [reflexivity|now rewrite !length_map].
    + unfold lin_comb; simpl. f_equal. f_equal. rewrite lin_map.
      apply map_ext. intros t. rewrite get_lin by assumption. ring.
  - destruct (ncols x1 =? k); intros H1 H2; lin_inj.
    split; [apply same_shape_tabulate|].
    unfold lin_comb; simpl. f_equal. f_equal. rewrite lin_tabulate.
    apply tabulate_ext. intros i _. rewrite <- sum_n_lin.
    apply sum_n_ext. intros t _. rewrite get_lin by assumption. ring.
Qed.

Lemma dft_lin a b sgn (f g : nat -> C) n q :
  dft sgn (fun t => a * f t + b * g t)%C n q
  = (a * dft sgn f n q + b * dft sgn g n q)%C.
Proof.
  unfold dft. rewrite <- sum_n_lin. apply sum_n_ext. intros; ring.
Qed.

Lemma linear_fft_gen inv n : linear_op (fun x => fft_gen inv x n).
Proof.
  lin_start. unfold fft_gen. rewrite Hc, Hr.
  change (shape (lin_comb a b x1 x2)) with (shape x1).
  change (ncols (lin_comb a b x1 x2)) with (ncols x1).
  change (nrows (lin_comb a b x1 x2)) with (nrows x1).
  change (data (lin_comb a b x1 x2))
    with (zip_with (fun u v => a * u + b * v)%C (data x1) (data x2)).
  rewrite <- Hs.
  destruct (shape x1) as [|d0 sh] eqn:E; [discriminate|].
  destruct (_ <? 1)%Z; [discriminate|].
  intros H1 H2; lin_inj. split; [apply same_shape_tabulate|].
  unfold lin_comb; simpl. f_equal. f_equal. rewrite lin_tabulate.
  apply tabulate_ext. intros i _.
  set (n' := Z.to_nat _).
  assert (forall q, dft q
            (fun t => if t <? ncols x1
                      then get (zip_with (fun u v => a * u + b * v)%C
                                  (data x1) (data x2)) (i / n' * ncols x1 + t)
                      else C0) n' (i mod n')
          = (a * dft q (fun t => if t <? ncols x1
                                 then get (data x1) (i / n' * ncols x1 + t)
                                 else C0) n' (i mod n')
             + b * dft q (fun t => if t <? ncols x1
                                   then get (data x2) (i / n' * ncols x1 + t)
                                   else C0) n' (i mod n'))%C) as Hd.
  { intros q. rewrite <- dft_lin. unfold dft. apply sum_n_ext. intros t _.
    destruct (t <? ncols x1); [rewrite get_lin by assumption|]; ring. }
  destruct inv; rewrite Hd; [apply Cdiv_lin|reflexivity].
Qed.

Lemma linear_split_first_val : linear_op split_first_val.
Proof.
  lin_start. unfold split_first_val. rewrite Hc, Hr.
  change (shape (lin_comb a b x1 x2)) with (shape x1).
  change (ncols (lin_comb a b x1 x2)) with (ncols x1).
  change (nrows (lin_comb a b x1 x2)) with (nrows x1).
  change (data (lin_comb a b x1 x2))
    with (zip_with (fun u v => a * u + b * v)%C (data x1) (data x2)).
  rewrite <- Hs.
  destruct (shape x1) as [|d0 sh] eqn:E; [discriminate|].
  destruct (_ =? 0); [|discriminate].
  intros H1 H2; lin_inj. split; [apply same_shape_tabulate|].
  unfold lin_comb; simpl. f_equal. f_equal. rewrite lin_tabulate.
  apply tabulate_ext. intros i _. now rewrite get_lin.
Qed.

(** Linear operations compose. *)
Lemma linear_ebind f g :
  linear_op f -> linear_op g -> linear_op (fun x => ebind (f x) g).
Proof.
  intros Hf Hg a b x1 x2 y1 y2 Hs H1 H2.
  destruct (f x1) as [|z1] eqn:E1; [discriminate|].
  destruct (f x2) as [|z2] eqn:E2; [discriminate|].
  destruct (Hf a b x1 x2 z1 z2 Hs E1 E2) as [Hs' ->]. simpl in *.
  now apply Hg.
Qed.

Lemma linear_MDHT_value M : linear_op (MDHT_value M).
Proof. apply linear_dot_val. Qed.

Lemma linear_QDHT_value J_inv J T c1 c2 : linear_op (QDHT_value J_inv J T c1 c2).
Proof.
  unfold QDHT_value.
  repeat first [ apply linear_ebind | apply linear_mul_val | apply linear_dot_val ].
Qed.

Lemma linear_FHT_value w1 k w2 N : linear_op (FHT_value w1 k w2 N).
Proof.
  unfold FHT_value.
  repeat first [ apply linear_ebind | apply linear_mul_val
               | apply (linear_fft_gen false) | apply linear_split_first_val ].
Qed.

(** ** Running a constructor step by step *)

Lemma stateless_ret {A} (x : A) : stateless (ret x) (inr x).
Proof. now intros s. Qed.

Lemma stateless_raise {A} e : stateless (@raise A e) (inl e).
Proof. now intros s. Qed.

Lemma stateless_bind {A B} (c : Py A) (k : A -> Py B) r f :
  stateless c r -> (forall x, r = inr x -> stateless (k x) (f x)) ->
  stateless (bind c k) (ebind r f).
Proof.
  intros Hc Hk s. unfold bind. rewrite Hc. destruct r as [e|x]; simpl; auto.
  now apply Hk.
Qed.

Lemma stateless_ex_bind {A B} (c : Py A) (k : A -> Py B) :
  (exists r, stateless c r) -> (forall x, exists r, stateless (k x) r) ->
  exists r, stateless (bind c k) r.
Proof.
  intros [r Hc] Hk. destruct r as [e|x].
  - exists (inl e). intros s. unfold bind. now rewrite Hc.
  - destruct (Hk x) as [r' Hr']. exists r'. intros s. unfold bind.
    rewrite Hc. apply Hr'.
Qed.

Lemma stateless_py_div x y : exists r, stateless (py_div x y) r.
Proof.
  unfold py_div. destruct (Req_dec_T y 0); eexists;
    [apply stateless_raise|apply stateless_ret].
Qed.

Lemma stateless_py_index {A} (l : list A) i : exists r, stateless (py_index l i) r.
Proof.
  unfold py_index.
  repeat match goal with
    | |- exists _, stateless (if ?b then _ else _) _ => destruct b
    | |- exists _, stateless (match ?o with _ => _ end) _ => destruct o
    end; eexists; first [apply stateless_raise|apply stateless_ret].
Qed.

Lemma stateless_py_setitem {A} (l : list A) i v :
  exists r, stateless (py_setitem l i v) r.
Proof.
  unfold py_setitem. destruct (i <? length l); eexists;
    [apply stateless_ret|apply stateless_raise].
Qed.

Lemma bind_stateless {A B} (c : Py A) (k : A -> Py B) r s :
  stateless c r ->
  bind c k s = match r with inr x => k x s | inl e => (inl e, s) end.
Proof. intros H. unfold bind. rewrite H. now destruct r. Qed.

Lemma bind_setattr {B} n v (k : unit -> Py B) s :
  bind (setattr n v) k s = k tt (mk_state (<[n := v]> (self s)) (heap s)).
Proof. reflexivity. Qed.

Lemma bind_new_array {B} a (k : loc -> Py B) s :
  bind (new_array a) k s
  = k (length (heap s)) (mk_state (self s) (heap s ++ [Arr a])).
Proof. reflexivity. Qed.

Lemma py_index_last {A} (l : list A) (d : A) :
  l <> [] -> stateless (py_index l (-1)) (inr (List.last l d)).
Proof.
  intros Hl s. unfold py_index.
  change (-1 <? 0)%Z with true. cbv iota.
  destruct l as [|x l _] using rev_ind; [congruence|].
  rewrite length_app, last_last.
  replace (-1 + Z.of_nat (length l + length [x]))%Z with (Z.of_nat (length l))
    by (simpl; lia).
  destruct (Z.ltb_spec (Z.of_nat (length l)) 0); [lia|].
  rewrite Nat2Z.id, list_lookup_middle by reflexivity. reflexivity.
Qed.

Lemma py_index_inv {A} (l : list A) i r :
  stateless (py_index l i) (inr r) -> l <> [].
Proof.
  intros H ->. specialize (H (mk_state ∅ [])). unfold py_index in H.
  simpl in H.
  repeat match type of H with context [if ?b then _ else _] => destruct b end;
    discriminate.
Qed.

Lemma py_index_0 {A} (l : list A) x :
  stateless (py_index l 0) (inr x) -> exists l', l = x :: l'.
Proof.
  intros H. specialize (H (mk_state ∅ [])). unfold py_index in H. simpl in H.
  destruct l as [|y l']; [discriminate|]. simpl in H.
  injection H as <-. eauto.
Qed.

Lemma stateless_fun {A} (c : Py A) r1 r2 :
  stateless c r1 -> stateless c r2 -> r1 = r2.
Proof.
  intros H1 H2. specialize (H1 (mk_state ∅ [])). rewrite H2 in H1. congruence.
Qed.

(** The new cells of a state, counted from the heap it started with. *)
Lemma lookup_new (h cs : list cell) k : (h ++ cs) !! (length h + k) = cs !! k.
Proof. rewrite lookup_app_r by lia. f_equal. lia. Qed.

Lemma lookup_old (h cs : list cell) l : l < length h -> (h ++ cs) !! l = h !! l.
Proof. intros. now apply lookup_app_l. Qed.

Section Init.

Variable jn : Z -> R -> R.
Variable jn_zeros : Z -> nat -> list R.
Variable fsolve : (R -> R) -> R -> R.
Variable linalg_inv : nat -> list C -> option (list C).

Lemma stateless_scipy_jn_zeros n nt :
  exists r, stateless (scipy_jn_zeros jn_zeros n nt) r.
Proof.
  unfold scipy_jn_zeros. destruct (nt <=? 0)%Z; eexists;
    [apply stateless_raise|apply stateless_ret].
Qed.

Lemma scipy_jn_zeros_ok n nt :
  (1 <= nt)%Z ->
  stateless (scipy_jn_zeros jn_zeros n nt) (inr (jn_zeros n (Z.to_nat nt))).
Proof.
  intros H s. unfold scipy_jn_zeros.
  destruct (Z.leb_spec nt 0); [lia|reflexivity].
Qed.

Lemma scipy_jn_zeros_inv n nt zs :
  stateless (scipy_jn_zeros jn_zeros n nt) (inr zs) ->
  (1 <= nt)%Z /\ zs = jn_zeros n (Z.to_nat nt).
Proof.
  intros H. specialize (H (mk_state ∅ [])). unfold scipy_jn_zeros in H.
  destruct (Z.leb_spec nt 0); [discriminate|]. injection H as <-. split; [lia|auto].
Qed.

Lemma stateless_MDHT_zeros m N : exists r, stateless (MDHT_zeros jn_zeros m N) r.
Proof.
  unfold MDHT_zeros. destruct (Z_in m include_0);
    [|apply stateless_scipy_jn_zeros].
  apply stateless_ex_bind; [apply stateless_scipy_jn_zeros|].
  intros; eexists; apply stateless_ret.
Qed.

Lemma stateless_MDHT_S_KaiMing m N alphas :
  exists r, stateless (MDHT_S_KaiMing jn jn_zeros m N alphas) r.
Proof.
  unfold MDHT_S_KaiMing.
  repeat first [ apply stateless_py_index | apply stateless_scipy_jn_zeros
               | (eexists; apply stateless_ret)
               | apply stateless_ex_bind; [|intros ?] ].
Qed.

Lemma stateless_MDHT_guard num denom : exists r, stateless (MDHT_guard num denom) r.
Proof.
  unfold MDHT_guard.
  repeat first [ apply stateless_py_index | apply stateless_py_setitem
               | (eexists; apply stateless_ret)
               | apply stateless_ex_bind; [|intros ?]
               | match goal with
                 | |- exists _, stateless (if ?b then _ else _) _ => destruct b
                 end ].
Qed.

End Init.

Section InitRuns.

Variable jn : Z -> R -> R.
Variable jn_zeros : Z -> nat -> list R.
Variable fsolve : (R -> R) -> R -> R.
Variable linalg_inv : nat -> list C -> option (list C).

(** After its two fallible steps [QDHT_init] only stores: five arrays, in
    this order, and the attributes that name them. *)
Lemma QDHT_init_run p N rmax s :
  (0 <= N)%Z ->
  let zeros := jn_zeros p (Z.to_nat (N + 1)) in
  zeros <> [] ->
  let last_alpha := List.last zeros 0%R in
  let alphas := removelast zeros in
  let numax := (last_alpha / (2 * PI * rmax))%R in
  let r := map (fun a => rmax * a / last_alpha)%R alphas in
  let nu := map (fun a => numax * a / last_alpha)%R alphas in
  let J := map (fun a => Rabs (jn (p + 1) a)) alphas in
  let T := zip_with (zip_with (fun x y => x / y)%R)
             (map (fun ai => map (fun aj => 2 * jn p (ai * aj / last_alpha))%R alphas)
                alphas)
             (map (fun Ji => map (fun Jj => Ji * Jj * last_alpha)%R J) J) in
  let l := length (heap s) in
  QDHT_init jn jn_zeros p N rmax s
  = (inr tt,
     mk_state
       (<["T" := VRef (l + 4)]>
          (<["J_inv" := VRef (l + 3)]>
             (<["J" := VRef (l + 2)]>
                (<["nu" := VRef (l + 1)]>
                   (<["r" := VRef l]>
                      (<["numax" := VFloat numax]>
                         (<["rmax" := VFloat rmax]>
                            (<["N" := VInt N]> (self s)))))))))
       (heap s ++ [Arr (nd_of_reals [length r] r);
                   Arr (nd_of_reals [length nu] nu);
                   Arr (nd_of_reals [length J] J);
                   Arr (nd_of_reals [length J] (map (fun x => 1 / x)%R J));
                   Arr (nd_of_rows (length alphas) T)])).
Proof.
  intros HN zeros Hz last_alpha alphas numax r nu J T l.
  unfold QDHT_init.
  rewrite (bind_stateless _ _ _ _ (scipy_jn_zeros_ok jn_zeros p (N + 1) ltac:(lia))).
  rewrite (bind_stateless _ _ _ _ (py_index_last _ 0%R Hz)).
  cbv [bind setattr new_array ret self heap]. fold zeros last_alpha alphas.
  rewrite !length_app. simpl length. rewrite <- !app_assoc. simpl app.
  rewrite <- !Nat.add_assoc. reflexivity.
Qed.

Lemma py_div_ok x y : y <> 0%R -> stateless (py_div x y) (inr (x / y)%R).
Proof. intros H s. unfold py_div. now destruct (Req_dec_T y 0). Qed.

Lemma py_div_inv x y r : stateless (py_div x y) (inr r) -> y <> 0%R /\ r = (x / y)%R.
Proof.
  intros H. specialize (H (mk_state ∅ [])). unfold py_div in H.
  destruct (Req_dec_T y 0); [discriminate|]. injection H as <-. auto.
Qed.

Lemma stateless_MDHT_grid N rmax m p d alphas last_alpha :
  exists r, stateless (MDHT_grid jn jn_zeros N rmax m p d alphas last_alpha) r.
Proof.
  unfold MDHT_grid. destruct d.
  - apply stateless_ex_bind; [apply stateless_py_div|].
    intros; eexists; apply stateless_ret.
  - apply stateless_ex_bind; [|intros; eexists; apply stateless_ret].
    destruct (m =? p)%Z; [eexists; apply stateless_ret|].
    apply stateless_MDHT_S_KaiMing.
Qed.

Lemma np_linalg_inv_run s l A n :
  heap s !! l = Some (Arr A) -> shape A = [n; n] ->
  np_linalg_inv linalg_inv l s
  = match linalg_inv n (data A) with
    | Some d => (inr (length (heap s)),
                 mk_state (self s) (heap s ++ [Arr (mk_nd [n; n] d)]))
    | None => (inl LinAlgError, s)
    end.
Proof.
  intros Hl Hs. unfold np_linalg_inv.
  rewrite (bind_ok _ _ _ _ _ (read_ok _ _ _ (deref_Arr _ _ _ Hl))).
  rewrite Hs, Nat.eqb_refl. now destruct (linalg_inv n (data A)).
Qed.

Lemma setitem_row0_run s l n k d x :
  heap s !! l = Some (Arr (mk_nd [n; k] d)) -> n <> 0 ->
  setitem_row0 l x s
  = (inr tt,
     mk_state (self s)
       (<[l := Arr (mk_nd [n; k]
                      (tabulate (length d)
                         (fun i => if i <? k then RtoC x else get d i)))]> (heap s))).
Proof.
  intros Hl Hn. unfold setitem_row0. rewrite Hl.
  destruct (Nat.eqb_spec n 0); [contradiction|reflexivity].
Qed.

(** The common part of [MDHT_init], up to the first [self.invM], for any
    division of the elements. *)
Lemma MDHT_init_with_prefix div p N rmax m d Fw s zeros r S denom :
  Z_in m [p - 1; p; p + 1]%Z = true ->
  stateless (MDHT_zeros jn_zeros m N) (inr zeros) ->
  zeros <> [] -> rmax <> 0%R ->
  let last_alpha := List.last zeros 0%R in
  let alphas := removelast zeros in
  let nu := map (Rmult (1 / (2 * PI * rmax))) alphas in
  stateless (MDHT_grid jn jn_zeros N rmax m p d alphas last_alpha) (inr (r, S)) ->
  let num := MDHT_num jn p r nu in
  stateless (MDHT_guard num (MDHT_denom jn p m rmax alphas)) (inr denom) ->
  let l := length (heap s) in
  MDHT_init_with jn jn_zeros linalg_inv div p N rmax m d Fw s
  = MDHT_matrix_M_with jn linalg_inv div p m rmax Fw r last_alpha S num denom (l + 2)
      (mk_state
         (<["invM" := VRef (l + 2)]>
            (<["r" := VRef (l + 1)]>
               (<["nu" := VRef l]>
                  (<["rmax" := VFloat rmax]>
                     (<["N" := VInt N]>
                        (<["m" := VInt m]>
                           (<["p" := VInt p]>
                              (<["Fw" := VStr Fw]>
                                 (<["d" := match d with
                                           | Some x => VFloat x
                                           | None => VNone
                                           end]> (self s))))))))))
         (heap s ++ [Arr (nd_of_reals [length nu] nu);
                     Arr (nd_of_reals [length r] r);
                     Arr (nd_of_rows (length r) (divide_rows_with div num denom))])).
Proof.
  intros Hm Hz Hne Hr last_alpha alphas nu Hg num Hd l.
  assert (2 * PI * rmax <> 0)%R as Hpi.
  { pose proof PI_RGT_0. apply Rmult_integral_contrapositive_currified; lra. }
  unfold MDHT_init_with. rewrite Hm.
  rewrite (bind_stateless _ _ _ _ (stateless_ret tt)).
  rewrite !bind_setattr.
  rewrite (bind_stateless _ _ _ _ Hz).
  rewrite (bind_stateless _ _ _ _ (py_index_last _ 0%R Hne)).
  rewrite (bind_stateless _ _ _ _ (py_div_ok _ _ Hpi)).
  rewrite bind_new_array, bind_setattr.
  rewrite (bind_stateless _ _ _ _ Hg).
  rewrite bind_new_array, bind_setattr.
  rewrite (bind_stateless _ _ _ _ Hd).
  rewrite bind_new_array, bind_setattr.
  cbv [self heap fst snd].
  rewrite !length_app. simpl length. rewrite <- !app_assoc. simpl app.
  rewrite <- !Nat.add_assoc. reflexivity.
Qed.

(** The same with the quotient of the reals. *)
Lemma MDHT_init_prefix p N rmax m d Fw s zeros r S denom :
  Z_in m [p - 1; p; p + 1]%Z = true ->
  stateless (MDHT_zeros jn_zeros m N) (inr zeros) ->
  zeros <> [] -> rmax <> 0%R ->
  let last_alpha := List.last zeros 0%R in
  let alphas := removelast zeros in
  let nu := map (Rmult (1 / (2 * PI * rmax))) alphas in
  stateless (MDHT_grid jn jn_zeros N rmax m p d alphas last_alpha) (inr (r, S)) ->
  let num := MDHT_num jn p r nu in
  stateless (MDHT_guard num (MDHT_denom jn p m rmax alphas)) (inr denom) ->
  let l := length (heap s) in
  MDHT_init jn jn_zeros linalg_inv p N rmax m d Fw s
  = MDHT_matrix_M jn linalg_inv p m rmax Fw r last_alpha S num denom (l + 2)
      (mk_state
         (<["invM" := VRef (l + 2)]>
            (<["r" := VRef (l + 1)]>
               (<["nu" := VRef l]>
                  (<["rmax" := VFloat rmax]>
                     (<["N" := VInt N]>
                        (<["m" := VInt m]>
                           (<["p" := VInt p]>
                              (<["Fw" := VStr Fw]>
                                 (<["d" := match d with
                                           | Some x => VFloat x
                                           | None => VNone
                                           end]> (self s))))))))))
         (heap s ++ [Arr (nd_of_reals [length nu] nu);
                     Arr (nd_of_reals [length r] r);
                     Arr (nd_of_rows (length r) (divide_rows num denom))])).
Proof.
  exact (MDHT_init_with_prefix Rdiv p N rmax m d Fw s zeros r S denom).
Qed.

(** Conversely, a construction that succeeds went through these steps. *)
Lemma MDHT_init_inv p N rmax m d Fw s s' :
  MDHT_init jn jn_zeros linalg_inv p N rmax m d Fw s = (inr tt, s') ->
  exists zeros r S denom,
    Z_in m [p - 1; p; p + 1]%Z = true
    /\ stateless (MDHT_zeros jn_zeros m N) (inr zeros)
    /\ zeros <> [] /\ rmax <> 0%R
    /\ stateless (MDHT_grid jn jn_zeros N rmax m p d (removelast zeros)
                    (List.last zeros 0%R)) (inr (r, S))
    /\ stateless (MDHT_guard
                    (MDHT_num jn p r
                       (map (Rmult (1 / (2 * PI * rmax))) (removelast zeros)))
                    (MDHT_denom jn p m rmax (removelast zeros))) (inr denom).
Proof.
  intros H. unfold MDHT_init, MDHT_init_with in H.
  destruct (Z_in m [p - 1; p; p + 1]%Z) eqn:Hm; [|discriminate].
  rewrite (bind_stateless _ _ _ _ (stateless_ret tt)) in H.
  rewrite !bind_setattr in H.
  destruct (stateless_MDHT_zeros jn_zeros m N) as [[e|zeros] Hz];
    rewrite (bind_stateless _ _ _ _ Hz) in H; [discriminate|].
  destruct (stateless_py_index zeros (-1)) as [[e|la] Hla];
    rewrite (bind_stateless _ _ _ _ Hla) in H; [discriminate|].
  pose proof (py_index_inv _ _ _ Hla) as Hne.
  pose proof (stateless_fun _ _ _ Hla (py_index_last _ 0%R Hne)) as Ela.
  injection Ela as ->.
  destruct (stateless_py_div 1 (2 * PI * rmax)) as [[e|c] Hc];
    rewrite (bind_stateless _ _ _ _ Hc) in H; [discriminate|].
  destruct (py_div_inv _ _ _ Hc) as [Hpi ->].
  rewrite bind_new_array, bind_setattr in H.
  destruct (stateless_MDHT_grid N rmax m p d (removelast zeros)
              (List.last zeros 0%R)) as [[e|[r S]] Hg];
    rewrite (bind_stateless _ _ _ _ Hg) in H; [discriminate|].
  rewrite bind_new_array, bind_setattr in H. cbv [fst snd] in H.
  match type of H with
  | context [MDHT_guard ?num ?den] =>
      destruct (stateless_MDHT_guard num den) as [[e|denom] Hd];
      rewrite (bind_stateless _ _ _ _ Hd) in H; [discriminate|]
  end.
  exists zeros, r, S, denom. repeat split; auto.
  intros ->. apply Hpi. ring.
Qed.

(** Lines 303-304: the matrix of the backward transformation is inverted as
    it is. *)
Lemma MDHT_matrix_M_direct p m rmax r la S num denom l s A n :
  Z_in m include_0 && negb (p =? 0)%Z = false ->
  heap s !! l = Some (Arr A) -> shape A = [n; n] ->
  MDHT_matrix_M jn linalg_inv p m rmax "inverse" r la S num denom l s
  = match linalg_inv n (data A) with
    | Some d => (inr tt,
                 mk_state (<["M" := VRef (length (heap s))]> (self s))
                   (heap s ++ [Arr (mk_nd [n; n] d)]))
    | None => (inl LinAlgError, s)
    end.
Proof.
  intros Hsp Hl Hs. unfold MDHT_matrix_M, MDHT_matrix_M_with. rewrite Hsp.
  simpl String.eqb.
  cbv iota. unfold bind at 1 2. rewrite (np_linalg_inv_run _ _ _ _ Hl Hs).
  now destruct (linalg_inv n (data A)).
Qed.

(** Lines 290-302: the first row is replaced, the matrix inverted, and the
    first row of [self.invM] set to zero again. *)
Lemma MDHT_matrix_M_special p m rmax r la S num denom l s n :
  Z_in m include_0 && negb (p =? 0)%Z = true ->
  rmax <> 0%R -> denom <> [] -> num <> [] ->
  let A := nd_of_rows (length r) (corrected_rows jn p m rmax r la num denom) in
  shape A = [n; n] -> n <> 0 ->
  let l' := length (heap s) in
  MDHT_matrix_M jn linalg_inv p m rmax "inverse" r la S num denom l s
  = match linalg_inv n (data A) with
    | Some d =>
        (inr tt,
         mk_state (<["M" := VRef (l' + 1)]> (<["invM" := VRef l']> (self s)))
           (heap s ++
              [Arr (mk_nd [n; n]
                      (tabulate (length (data A))
                         (fun i => if i <? n then RtoC 0 else get (data A) i)));
               Arr (mk_nd [n; n] d)]))
    | None =>
        (inl LinAlgError,
         mk_state (<["invM" := VRef l']> (self s)) (heap s ++ [Arr A]))
    end.
Proof.
  intros Hsp Hr Hd Hn A HA Hn0 l'.
  assert (2 * PI * rmax <> 0)%R as Hpi.
  { pose proof PI_RGT_0. apply Rmult_integral_contrapositive_currified; lra. }
  unfold MDHT_matrix_M, MDHT_matrix_M_with. rewrite Hsp. simpl String.eqb.
  cbv iota.
  unfold bind at 1.
  rewrite (bind_stateless _ _ _ _ (py_div_ok _ _ Hpi)).
  assert (forall {X} (li : list X) v, li <> [] ->
            stateless (py_setitem li 0 v) (inr (<[0 := v]> li))) as Hset.
  { intros X li v Hli s0. unfold py_setitem. destruct li; [congruence|reflexivity]. }
  rewrite (bind_stateless _ _ _ _ (Hset _ _ _ Hd)).
  rewrite (bind_stateless _ _ _ _ (Hset _ _ _ Hn)).
  rewrite bind_new_array, bind_setattr.
  change (divide_rows_with Rdiv) with divide_rows.
  fold (corrected_rows jn p m rmax r la num denom). fold A. cbv [self heap].
  unfold bind at 1.
  erewrite np_linalg_inv_run;
    [|apply list_lookup_middle; reflexivity|exact HA].
  destruct (linalg_inv n (data A)) as [Md|]; [|reflexivity].
  rewrite bind_setattr. cbv [self heap].
  destruct A as [sh dA] eqn:EA. simpl in HA. subst sh.
  erewrite setitem_row0_run;
    [|rewrite <- app_assoc; apply list_lookup_middle; reflexivity|exact Hn0].
  cbv [self heap]. f_equal. f_equal.
  - rewrite length_app. reflexivity.
  - rewrite <- app_assoc. simpl app.
    replace (length (let (_, heap0) := s in heap0))
      with (length (let (_, heap0) := s in heap0) + 0) at 1 by lia.
    rewrite insert_app_r. reflexivity.
Qed.

End InitRuns.

Section InitFinal.

Variable jn : Z -> R -> R.
Variable jn_zeros : Z -> nat -> list R.
Variable fsolve : (R -> R) -> R -> R.
Variable linalg_inv : nat -> list C -> option (list C).

Lemma length_divide_rows num denom :
  length (divide_rows num denom) = Nat.min (length num) (length denom).
Proof. unfold divide_rows, divide_rows_with. apply length_zip_with. Qed.

Lemma MDHT_guard_length num denom0 denom :
  stateless (MDHT_guard num denom0) (inr denom) ->
  length denom = length denom0 /\ denom0 <> [].
Proof.
  intros H. specialize (H (mk_state ∅ [])). unfold MDHT_guard in H.
  destruct (stateless_py_index denom0 0) as [[e|d0] Hd0];
    rewrite (bind_stateless _ _ _ _ Hd0) in H; [discriminate|].
  pose proof (py_index_inv _ _ _ Hd0) as Hne. split; [|exact Hne].
  destruct (is_zero d0).
  - destruct (stateless_py_index num 0) as [[e|row0] Hr0];
      rewrite (bind_stateless _ _ _ _ Hr0) in H; [discriminate|].
    destruct (forallb is_zero row0).
    + unfold py_setitem in H. destruct (0 <? length denom0); [|discriminate].
      injection H as <-. apply length_insert.
    + now injection H as <-.
  - now injection H as <-.
Qed.

Lemma length_MDHT_num p r nu : length (MDHT_num jn p r nu) = length nu.
Proof. unfold MDHT_num. apply length_map. Qed.

Lemma length_removelast {A} (l : list A) : length (removelast l) = length l - 1.
Proof.
  induction l as [|x l IH] using rev_ind; [reflexivity|].
  rewrite removelast_last, length_app. simpl. lia.
Qed.

Lemma shape_first_invM p m rmax r nu alphas denom :
  length nu = length alphas ->
  stateless (MDHT_guard (MDHT_num jn p r nu) (MDHT_denom jn p m rmax alphas))
    (inr denom) ->
  shape (nd_of_rows (length r) (divide_rows (MDHT_num jn p r nu) denom))
  = [length alphas; length r] /\ alphas <> [].
Proof.
  intros Hnu Hd. destruct (MDHT_guard_length _ _ _ Hd) as [Hl Hne].
  unfold MDHT_denom in Hl, Hne. rewrite length_map in Hl.
  split; [|now destruct alphas].
  unfold nd_of_rows, nd_of_reals. simpl.
  rewrite length_divide_rows, length_MDHT_num, Hl, Hnu. f_equal. lia.
Qed.

Lemma np_linalg_inv_nonsquare s l A n k :
  heap s !! l = Some (Arr A) -> shape A = [n; k] -> n <> k ->
  np_linalg_inv linalg_inv l s = (inl LinAlgError, s).
Proof.
  intros Hl Hs Hn. unfold np_linalg_inv.
  rewrite (bind_ok _ _ _ _ _ (read_ok _ _ _ (deref_Arr _ _ _ Hl))).
  rewrite Hs. now destruct (Nat.eqb_spec n k).
Qed.

(** A construction with Fw='inverse' outside the degenerate case: what it
    leaves is the state of line 288 with M, the inverse of [self.invM], added. *)
Lemma MDHT_init_direct p N rmax m d s s' :
  Z_in m include_0 && negb (p =? 0)%Z = false ->
  MDHT_init jn jn_zeros linalg_inv p N rmax m d "inverse" s = (inr tt, s') ->
  exists zeros nu r S A Md,
    let l := length (heap s) in
    stateless (MDHT_zeros jn_zeros m N) (inr zeros)
    /\ stateless (MDHT_grid jn jn_zeros N rmax m p d (removelast zeros)
                    (List.last zeros 0%R)) (inr (r, S))
    /\ nu = map (Rmult (1 / (2 * PI * rmax))) (removelast zeros)
    /\ shape A = [length nu; length r]
    /\ length nu = length r
    /\ linalg_inv (length r) (data A) = Some Md
    /\ s' = mk_state
              (<["M" := VRef (l + 3)]> (MDHT_attrs p N rmax m d "inverse" l (self s)))
              (heap s ++ [Arr (nd_of_reals [length nu] nu);
                          Arr (nd_of_reals [length r] r);
                          Arr A;
                          Arr (mk_nd [length r; length r] Md)]).
Proof.
  intros Hsp H.
  destruct (MDHT_init_inv _ _ _ _ _ _ _ _ _ _ _ H)
    as (zeros & r & S & denom & Hm & Hz & Hne & Hr & Hg & Hd).
  rewrite (MDHT_init_prefix jn jn_zeros linalg_inv p N rmax m d "inverse" s
             zeros r S denom Hm Hz Hne Hr Hg Hd) in H.
  set (nu := map (Rmult (1 / (2 * PI * rmax))) (removelast zeros)) in *.
  destruct (shape_first_invM p m rmax r nu (removelast zeros) denom
              ltac:(apply length_map) Hd) as [HA _].
  set (A := nd_of_rows (length r) (divide_rows (MDHT_num jn p r nu) denom)) in *.
  assert (length nu = length (removelast zeros)) as Hnu by apply length_map.
  destruct (Nat.eq_dec (length nu) (length r)) as [Hsq|Hsq].
  - rewrite <- Hnu, Hsq in HA.
    erewrite (MDHT_matrix_M_direct jn linalg_inv p m rmax r _ S _ denom _ _ A
                (length r) Hsp) in H;
      [|cbv [heap]; apply (lookup_new _ [_; _; _] 2)|exact HA].
    cbv [self heap] in H.
    destruct (linalg_inv (length r) (data A)) as [Md|] eqn:EM; [|discriminate].
    exists zeros, nu, r, S, A, Md. cbv zeta.
    refine (conj Hz (conj Hg (conj eq_refl (conj _ (conj Hsq (conj EM _))))));
      [now rewrite Hsq|].
    injection H as <-. f_equal.
    + rewrite length_app. simpl. reflexivity.
    + now rewrite <- app_assoc.
  - exfalso. unfold MDHT_matrix_M, MDHT_matrix_M_with in H. rewrite Hsp in H.
    simpl String.eqb in H.
    cbv iota in H. unfold bind at 1 2 in H.
    erewrite (np_linalg_inv_nonsquare _ _ A) in H;
      [discriminate|cbv [heap]; apply (lookup_new _ [_; _; _] 2)|exact HA|lia].
Qed.

Lemma MDHT_zeros_inv m N zeros :
  stateless (MDHT_zeros jn_zeros m N) (inr zeros) ->
  (Z_in m include_0 = true /\ (1 <= N)%Z
   /\ zeros = 0%R :: jn_zeros m (Z.to_nat N))
  \/ (Z_in m include_0 = false /\ (0 <= N)%Z
      /\ zeros = jn_zeros m (Z.to_nat (N + 1))).
Proof.
  intros H. unfold MDHT_zeros in H. destruct (Z_in m include_0).
  - left. destruct (stateless_scipy_jn_zeros jn_zeros m N) as [[e|z] Hz].
    + specialize (H (mk_state ∅ [])).
      rewrite (bind_stateless _ _ _ _ Hz) in H. discriminate.
    + destruct (scipy_jn_zeros_inv _ _ _ _ Hz) as [HN ->].
      specialize (H (mk_state ∅ [])).
      rewrite (bind_stateless _ _ _ _ Hz) in H. injection H as <-. auto.
  - right. destruct (scipy_jn_zeros_inv _ _ _ _ H) as [HN ->].
    repeat split; auto. lia.
Qed.

Lemma MDHT_zeros_ok m N :
  (1 <= N)%Z ->
  stateless (MDHT_zeros jn_zeros m N)
    (inr (if Z_in m include_0 then 0%R :: jn_zeros m (Z.to_nat N)
          else jn_zeros m (Z.to_nat (N + 1)))).
Proof.
  intros HN. unfold MDHT_zeros. destruct (Z_in m include_0).
  - intros s. rewrite (bind_stateless _ _ _ _ (scipy_jn_zeros_ok jn_zeros m N HN)).
    reflexivity.
  - apply scipy_jn_zeros_ok. lia.
Qed.

Lemma length_arange N : length (arange N) = Z.to_nat N.
Proof. unfold arange. now rewrite length_map, length_seq. Qed.

Section Lengths.

(** [jn_zeros(n, nt)] returns [nt] zeros. *)
Hypothesis jn_zeros_length : forall n nt, length (jn_zeros n nt) = nt.

Lemma MDHT_zeros_length m N zeros :
  stateless (MDHT_zeros jn_zeros m N) (inr zeros) ->
  length zeros = S (Z.to_nat N) /\ (0 <= N)%Z.
Proof.
  intros H. destruct (MDHT_zeros_inv _ _ _ H) as [(_ & HN & ->)|(_ & HN & ->)].
  - simpl. rewrite jn_zeros_length. split; [reflexivity|lia].
  - rewrite jn_zeros_length. split; [lia|assumption].
Qed.

Lemma MDHT_grid_length N rmax m p d zeros r S :
  stateless (MDHT_zeros jn_zeros m N) (inr zeros) ->
  stateless (MDHT_grid jn jn_zeros N rmax m p d (removelast zeros)
               (List.last zeros 0%R)) (inr (r, S)) ->
  length r = Z.to_nat N /\ length (removelast zeros) = Z.to_nat N.
Proof.
  intros Hz Hg. destruct (MDHT_zeros_length _ _ _ Hz) as [Hl HN].
  assert (length (removelast zeros) = Z.to_nat N) as Ha
    by (rewrite length_removelast; lia).
  split; [|exact Ha].
  specialize (Hg (mk_state ∅ [])). unfold MDHT_grid in Hg. destruct d as [dv|].
  - destruct (stateless_py_div (rmax * 1) (IZR N)) as [[e|h] Hh];
      rewrite (bind_stateless _ _ _ _ Hh) in Hg; [discriminate|].
    injection Hg as <- _. now rewrite length_map, length_arange.
  - match type of Hg with
    | context [bind ?c _] =>
        assert (exists r0, stateless c r0) as [[e|S0] HS]
          by (destruct (m =? p)%Z;
              [eexists; apply stateless_ret|apply stateless_MDHT_S_KaiMing]);
        rewrite (bind_stateless _ _ _ _ HS) in Hg; [discriminate|]
    end.
    injection Hg as <- _. now rewrite length_map.
Qed.

(** A construction with Fw='inverse' in the degenerate case ([m] is -1 or 1
    and [p] is not 0): [self.M] is the inverse of the matrix with the
    corrected first row, and [self.invM] is that matrix with its first row
    set to zero. *)
Lemma MDHT_init_special p N rmax m d s s' :
  Z_in m include_0 && negb (p =? 0)%Z = true ->
  MDHT_init jn jn_zeros linalg_inv p N rmax m d "inverse" s = (inr tt, s') ->
  exists nu r la num denom Md,
    let l := length (heap s) in
    let n := Z.to_nat N in
    let A := nd_of_rows n (corrected_rows jn p m rmax r la num denom) in
    length nu = n /\ length r = n /\ n <> 0
    /\ nu = map (Rmult (1 / (2 * PI * rmax))) (0%R :: removelast (jn_zeros m n))
    /\ la = List.last (jn_zeros m n) 0%R
    /\ num = MDHT_num jn p r nu
    /\ length denom = n
    /\ shape A = [n; n]
    /\ linalg_inv n (data A) = Some Md
    /\ s' = mk_state
              (<["M" := VRef (l + 4)]>
                 (<["invM" := VRef (l + 3)]>
                    (MDHT_attrs p N rmax m d "inverse" l (self s))))
              (heap s ++ [Arr (nd_of_reals [n] nu);
                          Arr (nd_of_reals [n] r);
                          Arr (nd_of_rows n (divide_rows num denom));
                          Arr (zero_row0 A);
                          Arr (mk_nd [n; n] Md)]).
Proof.
  intros Hsp H.
  destruct (MDHT_init_inv _ _ _ _ _ _ _ _ _ _ _ H)
    as (zeros & r & S & denom & Hm & Hz & Hne & Hr & Hg & Hd).
  rewrite (MDHT_init_prefix jn jn_zeros linalg_inv p N rmax m d "inverse" s
             zeros r S denom Hm Hz Hne Hr Hg Hd) in H.
  destruct (MDHT_grid_length _ _ _ _ _ _ _ _ Hz Hg) as [Lr La].
  destruct (MDHT_zeros_inv _ _ _ Hz) as [(Hi & HN & Ez)|(Hi & _)];
    [|rewrite Hi in Hsp; discriminate].
  set (n := Z.to_nat N) in *.
  assert (n <> 0) as Hn0 by (subst n; lia).
  assert (jn_zeros m n <> []) as Hjz.
  { intros E. pose proof (jn_zeros_length m n) as L. rewrite E in L.
    simpl in L. lia. }
  assert (removelast zeros = 0%R :: removelast (jn_zeros m n)) as Eal.
  { rewrite Ez. simpl. destruct (jn_zeros m n); [congruence|reflexivity]. }
  assert (List.last zeros 0%R = List.last (jn_zeros m n) 0%R) as Ela.
  { rewrite Ez. simpl. destruct (jn_zeros m n); [congruence|reflexivity]. }
  set (nu := map (Rmult (1 / (2 * PI * rmax))) (removelast zeros)) in *.
  assert (length nu = n) as Lnu by (subst nu; now rewrite length_map).
  destruct (MDHT_guard_length _ _ _ Hd) as [Ld Hd0].
  unfold MDHT_denom in Ld. rewrite length_map, La in Ld.
  set (num := MDHT_num jn p r nu) in *.
  assert (length num = n) as Lnum by (subst num; now rewrite length_MDHT_num).
  assert (shape (nd_of_rows (length r)
                   (corrected_rows jn p m rmax r (List.last zeros 0%R) num denom))
          = [n; n]) as HA.
  { unfold nd_of_rows, nd_of_reals, corrected_rows. simpl.
    rewrite length_divide_rows, !length_insert, Lnum, Ld, Lr. f_equal. lia. }
  rewrite (MDHT_matrix_M_special jn linalg_inv p m rmax r (List.last zeros 0%R)
             S num denom _ _ n Hsp Hr) in H;
    [|destruct denom; [simpl in Ld; lia|congruence]
     |destruct num; [simpl in Lnum; lia|congruence]
     |exact HA|exact Hn0].
  rewrite Lr in *.
  set (A := nd_of_rows n (corrected_rows jn p m rmax r (List.last zeros 0%R)
                            num denom)) in *.
  destruct (linalg_inv n (data A)) as [Md|] eqn:EM; [|discriminate].
  exists nu, r, (List.last zeros 0%R), num, denom, Md. cbv zeta. fold A.
  refine (conj Lnu (conj Lr (conj Hn0 (conj _ (conj Ela (conj eq_refl
           (conj Ld (conj HA (conj EM _))))))))).
  { subst nu. now rewrite Eal. }
  injection H as <-. cbv [self heap]. rewrite Lnu. f_equal.
  - rewrite length_app. simpl length. unfold MDHT_attrs.
    rewrite <- !Nat.add_assoc. reflexivity.
  - rewrite <- app_assoc. simpl app. unfold zero_row0. rewrite HA.
    reflexivity.
Qed.

End Lengths.

End InitFinal.

(** ** What a constructor leaves alone *)

Lemma keeps_stateless {A} b t (c : Py A) r : stateless c r -> keeps_below b t c.
Proof. intros H s o s' E Hb. rewrite H in E. injection E as <- <-. auto. Qed.

Lemma keeps_ret {A} b t (x : A) : keeps_below b t (ret x).
Proof. apply (keeps_stateless _ _ _ _ (stateless_ret x)). Qed.

Lemma keeps_raise {A} b t e : keeps_below b t (@raise A e).
Proof. apply (keeps_stateless _ _ _ _ (stateless_raise e)). Qed.

Lemma keeps_bind {A B} b t (c : Py A) (k : A -> Py B) :
  keeps_below b t c -> (forall x, keeps_below b t (k x)) ->
  keeps_below b t (bind c k).
Proof.
  intros Hc Hk s o s' E Hb. unfold bind in E.
  destruct (c s) as [[e|x] s1] eqn:E1.
  - injection E as <- <-. now apply (Hc _ _ _ E1).
  - destruct (Hc _ _ _ E1 Hb) as (H1 & H2 & H3).
    destruct (Hk x _ _ _ E H1) as (K1 & K2 & K3).
    split; [exact K1|]. split.
    + intros l Hl. now rewrite K2, H2.
    + intros n Hn. now rewrite K3, H3.
Qed.

(** A new cell is above [b], and so is whatever is done to it afterwards. *)
Lemma keeps_allocs {B} b t c (k : loc -> Py B) :
  allocs c ->
  (forall l, b <= l -> keeps_below b t (k l)) ->
  keeps_below b t (bind c k).
Proof.
  intros Hc Hk s o s' E Hb. destruct (Hc s) as [[e He]|[x Hx]].
  - rewrite (bind_err _ _ _ _ _ He) in E. injection E as <- <-. auto.
  - rewrite (bind_ok _ _ _ _ _ Hx) in E.
    destruct (Hk _ Hb _ _ _ E) as (K1 & K2 & K3).
    { simpl. rewrite length_app. lia. }
    split; [exact K1|]. split.
    + intros l Hl. rewrite K2 by exact Hl. simpl. apply lookup_app_l. lia.
    + exact K3.
Qed.

Lemma allocs_new_array a : allocs (new_array a).
Proof. intros s. right. now exists (Arr a). Qed.

Lemma allocs_new_view base ops : allocs (new_view base ops).
Proof. intros s. right. now exists (View base ops). Qed.

Lemma allocs_read (l : loc) (k : ndarray -> Py loc) :
  (forall a, allocs (k a)) -> allocs (bind (read l) k).
Proof.
  intros Hk s. unfold bind, read. destruct (deref (heap s) l) as [a|]; [apply Hk|].
  left. now exists TypeError.
Qed.

Lemma allocs_raise e : allocs (raise e).
Proof. intros s. left. now exists e. Qed.

Lemma allocs_swapaxes a ax1 ax2 : allocs (swapaxes a ax1 ax2).
Proof.
  unfold swapaxes. apply allocs_read. intros av.
  destruct (norm_axis (ndim av) ax1), (norm_axis (ndim av) ax2);
    try apply allocs_raise.
  intros s. destruct (heap s !! a) as [[|]|]; apply allocs_new_view.
Qed.

Lemma allocs_np_scalar_mul a x : allocs (np_scalar_mul a x).
Proof.
  unfold np_scalar_mul. apply allocs_read. intros; apply allocs_new_array.
Qed.

Lemma keeps_setattr b t n v : n ∈ t -> keeps_below b t (setattr n v).
Proof.
  intros Hn s o s' E Hb. injection E as <- <-. simpl.
  split; [exact Hb|]. split; [reflexivity|].
  intros name Hname. apply lookup_insert_ne. intros ->. contradiction.
Qed.

Lemma keeps_getattr b t n : keeps_below b t (getattr n).
Proof.
  intros s o s' E Hb. unfold getattr in E.
  destruct (self s !! n); injection E as <- <-; auto.
Qed.

Lemma keeps_read b t l : keeps_below b t (read l).
Proof.
  intros s o s' E Hb. unfold read in E.
  destruct (deref (heap s) l); injection E as <- <-; auto.
Qed.

Lemma keeps_as_ref b t v : keeps_below b t (as_ref v).
Proof. destruct v; first [apply keeps_ret|apply keeps_raise]. Qed.

Lemma keeps_setitem_row0 b t (l : loc) x :
  b <= l -> keeps_below b t (setitem_row0 l x).
Proof.
  intros Hl s o s' E Hb. unfold setitem_row0 in E.
  destruct (heap s !! l) as [[[sh d]|]|]; try (injection E as <- <-; now auto).
  destruct sh as [|n [|k [|]]]; try (injection E as <- <-; now auto).
  destruct (n =? 0); injection E as <- <-; [now auto|]. simpl.
  rewrite length_insert. split; [exact Hb|]. split; [|reflexivity].
  intros l0 Hl0. apply list_lookup_insert_ne. lia.
Qed.

Lemma keeps_if {A} b t (c : bool) (c1 c2 : Py A) :
  keeps_below b t c1 -> keeps_below b t c2 -> keeps_below b t (if c then c1 else c2).
Proof. now destruct c. Qed.

Section Keeps.

Variable jn : Z -> R -> R.
Variable jn_zeros : Z -> nat -> list R.
Variable linalg_inv : nat -> list C -> option (list C).

Lemma allocs_np_linalg_inv a : allocs (np_linalg_inv linalg_inv a).
Proof.
  unfold np_linalg_inv. apply allocs_read. intros av.
  destruct (shape av) as [|n [|k0 [|]]]; try apply allocs_raise.
  destruct (n =? k0); [|apply allocs_raise].
  destruct (linalg_inv n (data av)); [apply allocs_new_array|apply allocs_raise].
Qed.

(** Lines 288-307 touch no cell that was there before, and no attribute but
    [invM] and [M]. *)
Lemma keeps_MDHT_matrix_M b p m rmax Fw r la S num denom l :
  b <= l ->
  keeps_below b ["invM"; "M"]
    (MDHT_matrix_M jn linalg_inv p m rmax Fw r la S num denom l).
Proof.
  intros Hl. unfold MDHT_matrix_M, MDHT_matrix_M_with.
  assert ("invM" ∈ ["invM"; "M"]) as I1 by constructor.
  assert ("M" ∈ ["invM"; "M"]) as I2 by (do 2 constructor).
  apply keeps_bind; [|intros _].
  - destruct (String.eqb Fw "inverse"); [|apply keeps_ret].
    destruct (Z_in m include_0 && negb (p =? 0)%Z).
    + destruct (stateless_py_div 1 (2 * PI * rmax)) as [rc Hc].
      apply keeps_bind; [apply (keeps_stateless _ _ _ _ Hc)|intros c'].
      match goal with |- keeps_below _ _ (bind ?c _) =>
        destruct (stateless_py_setitem denom 0
                    (PI * rmax ^ 2
                     * jn (if (p =? m)%Z then (m + 1)%Z else p) la ^ 2)%R)
          as [r1 H1];
        apply keeps_bind; [apply (keeps_stateless _ _ _ _ H1)|intros denom']
      end.
      match goal with |- keeps_below _ _ (bind (py_setitem ?a ?i ?v) _) =>
        destruct (stateless_py_setitem a i v) as [r2 H2];
        apply keeps_bind; [apply (keeps_stateless _ _ _ _ H2)|intros num']
      end.
      apply keeps_allocs; [apply allocs_new_array|]. intros l1 Hl1.
      apply keeps_bind; [now apply keeps_setattr|intros _].
      apply keeps_allocs; [apply allocs_np_linalg_inv|]. intros l2 Hl2.
      apply keeps_bind; [now apply keeps_setattr|intros _].
      now apply keeps_setitem_row0.
    + apply keeps_allocs; [apply allocs_np_linalg_inv|]. intros l2 Hl2.
      now apply keeps_setattr.
  - destruct (String.eqb Fw "symmetric"); [|apply keeps_ret].
    apply keeps_bind; [apply keeps_getattr|intros v].
    apply keeps_bind; [apply keeps_as_ref|intros l0].
    apply keeps_allocs; [apply allocs_swapaxes|]. intros lT HlT.
    apply keeps_allocs; [apply allocs_np_scalar_mul|]. intros lM HlM.
    now apply keeps_setattr.
Qed.

Lemma keeps_weaken {A} b t t' (c : Py A) :
  (forall n, n ∈ t -> n ∈ t') -> keeps_below b t c -> keeps_below b t' c.
Proof.
  intros Ht Hc s o s' E Hb. destruct (Hc s o s' E Hb) as (K1 & K2 & K3).
  split; [exact K1|]. split; [exact K2|].
  intros n Hn. apply K3. intros Hi. apply Hn, Ht, Hi.
Qed.

(** [MDHT_init] touches no cell that was there before it ran. *)
Lemma keeps_MDHT_init b p N rmax m d Fw :
  keeps_below b ["d"; "Fw"; "p"; "m"; "N"; "rmax"; "nu"; "r"; "invM"; "M"]
    (MDHT_init jn jn_zeros linalg_inv p N rmax m d Fw).
Proof.
  unfold MDHT_init, MDHT_init_with.
  assert (forall n v,
            In n ["d"; "Fw"; "p"; "m"; "N"; "rmax"; "nu"; "r"; "invM"; "M"] ->
            keeps_below b
              ["d"; "Fw"; "p"; "m"; "N"; "rmax"; "nu"; "r"; "invM"; "M"]
              (setattr n v)) as Hset.
  { intros n v Hn. apply keeps_setattr. now apply list_elem_of_In. }
  apply keeps_bind; [apply keeps_if; [apply keeps_ret|apply keeps_raise]|intros _].
  do 6 (apply keeps_bind; [apply Hset; simpl; tauto|intros _]).
  destruct (stateless_MDHT_zeros jn_zeros m N) as [rz Hz].
  apply keeps_bind; [apply (keeps_stateless _ _ _ _ Hz)|intros zeros].
  destruct (stateless_py_index zeros (-1)) as [rl Hl].
  apply keeps_bind; [apply (keeps_stateless _ _ _ _ Hl)|intros la].
  destruct (stateless_py_div 1 (2 * PI * rmax)) as [rc Hc].
  apply keeps_bind; [apply (keeps_stateless _ _ _ _ Hc)|intros c].
  apply keeps_allocs; [apply allocs_new_array|intros l_nu Hnu].
  apply keeps_bind; [apply Hset; simpl; tauto|intros _].
  destruct (stateless_MDHT_grid jn jn_zeros N rmax m p d (removelast zeros) la)
    as [rg Hg].
  apply keeps_bind; [apply (keeps_stateless _ _ _ _ Hg)|intros rS].
  apply keeps_allocs; [apply allocs_new_array|intros l_r Hr].
  apply keeps_bind; [apply Hset; simpl; tauto|intros _].
  match goal with |- keeps_below _ _ (bind (MDHT_guard ?a ?b) _) =>
    destruct (stateless_MDHT_guard a b) as [rd Hd]
  end.
  apply keeps_bind; [apply (keeps_stateless _ _ _ _ Hd)|intros denom].
  apply keeps_allocs; [apply allocs_new_array|intros l_i Hi].
  apply keeps_bind; [apply Hset; simpl; tauto|intros _].
  apply (keeps_weaken b ["invM"; "M"]); [|now apply keeps_MDHT_matrix_M].
  intros n Hn. rewrite !elem_of_cons in *. tauto.
Qed.

(** The grids a successful [MDHT_init] leaves: [self.nu] and [self.r] are the
    first two arrays it builds, and nothing later touches them. *)
Lemma MDHT_init_grids p N rmax m d Fw s s' :
  MDHT_init jn jn_zeros linalg_inv p N rmax m d Fw s = (inr tt, s') ->
  exists zeros r S,
    stateless (MDHT_zeros jn_zeros m N) (inr zeros)
    /\ zeros <> [] /\ rmax <> 0%R
    /\ stateless (MDHT_grid jn jn_zeros N rmax m p d (removelast zeros)
                    (List.last zeros 0%R)) (inr (r, S))
    /\ let nu := map (Rmult (1 / (2 * PI * rmax))) (removelast zeros) in
       let l := length (heap s) in
       self s' !! "nu" = Some (VRef l)
       /\ heap s' !! l = Some (Arr (nd_of_reals [length nu] nu))
       /\ self s' !! "r" = Some (VRef (l + 1))
       /\ heap s' !! (l + 1) = Some (Arr (nd_of_reals [length r] r)).
Proof.
  intros H.
  destruct (MDHT_init_inv _ _ _ _ _ _ _ _ _ _ _ H)
    as (zeros & r & S & denom & Hm & Hz & Hne & Hr & Hg & Hd).
  rewrite (MDHT_init_prefix jn jn_zeros linalg_inv p N rmax m d Fw s
             zeros r S denom Hm Hz Hne Hr Hg Hd) in H.
  exists zeros, r, S. refine (conj Hz (conj Hne (conj Hr (conj Hg _)))).
  cbv zeta.
  destruct (keeps_MDHT_matrix_M (length (heap s) + 2) p m rmax Fw r
              (List.last zeros 0%R) S _ denom (length (heap s) + 2) (le_n _)
              _ _ _ H) as (_ & K2 & K3).
  { simpl. rewrite length_app. simpl. lia. }
  assert (forall n, n <> "invM" -> n <> "M" -> n ∉ ["invM"; "M"]) as Hnot.
  { intros n H1 H2 Hin. repeat (apply elem_of_cons in Hin; destruct Hin as [Hin|Hin];
      [congruence|]). now apply elem_of_nil in Hin. }
  rewrite !K3 by (apply Hnot; discriminate).
  rewrite !K2 by lia. simpl.
  rewrite (lookup_insert_ne _ "invM" "nu"), (lookup_insert_ne _ "r" "nu")
    by discriminate.
  rewrite lookup_insert_eq, (lookup_insert_ne _ "invM" "r") by discriminate.
  rewrite lookup_insert_eq.
  refine (conj eq_refl (conj _ (conj eq_refl _))).
  - now apply list_lookup_middle.
  - apply (lookup_new (heap s) [_; _; _] 1).
Qed.

End Keeps.

(** ** The zeros behind the grids (C3) *)

Lemma sample_jn_zeros_pos n nt x : In x (sample_jn_zeros n nt) -> (0 < x)%R.
Proof.
  unfold sample_jn_zeros. intros H. apply in_map_iff in H.
  destruct H as (i & <- & Hi). apply in_seq in Hi. apply lt_0_INR. lia.
Qed.

Lemma sample_jn_zeros_length n nt : length (sample_jn_zeros n nt) = nt.
Proof. unfold sample_jn_zeros. now rewrite length_map, length_seq. Qed.

(** C3, as worded, fails: with p = 1 the method 'MDHT(m-1,m)' has m = 2 = p + 1,
    and the code takes the first N + 1 positive zeros of order 2; it prepends
    no zero, because 2 is not in [include_0]. *)
Lemma zeros_for_neighbours_fails : ~ zeros_for_neighbours.
Proof.
  intros H.
  specialize (H sample_jn_zeros sample_jn_zeros_pos sample_jn_zeros_length
                1%Z 2%Z 1%Z ltac:(lia) ltac:(lia) eq_refl).
  pose proof (stateless_fun _ _ _ H (MDHT_zeros_ok sample_jn_zeros 2 1 ltac:(lia)))
    as E.
  simpl in E. injection E as E _. lra.
Qed.

Section Zeros.

Variable jn : Z -> R -> R.
Variable jn_zeros : Z -> nat -> list R.
Variable linalg_inv : nat -> list C -> option (list C).

Hypothesis jn_zeros_length : forall n nt, length (jn_zeros n nt) = nt.

(** C3, amended: zero is prepended exactly when the auxiliary order [m] itself
    is -1 or 1, whatever [p] is: the zeros are then 0 followed by the first N
    positive zeros of order [m], and the first value of the frequency grid of
    every instance so constructed is 0; for every other [m] the first N + 1
    positive zeros of order [m] are used. *)
Theorem zeros_by_order (m N : Z) :
  (1 <= N)%Z ->
  stateless (MDHT_zeros jn_zeros m N)
    (inr (if Z_in m [-1; 1]%Z then 0%R :: jn_zeros m (Z.to_nat N)
          else jn_zeros m (Z.to_nat (N + 1))))
  /\ forall p rmax d Fw s s',
       Z_in m [-1; 1]%Z = true ->
       MDHT_init jn jn_zeros linalg_inv p N rmax m d Fw s = (inr tt, s') ->
       exists l nu, get_nu s' = (inr l, s')
                    /\ deref (heap s') l = Some nu
                    /\ data nu !! 0 = Some C0.
Proof.
  intros HN. split; [now apply MDHT_zeros_ok|].
  intros p rmax d Fw s s' Hm H.
  destruct (MDHT_init_grids _ _ _ _ _ _ _ _ _ _ _ H)
    as (zeros & r & S & Hz & Hne & Hr & Hg & Hnu & Hnuv & _).
  eexists _, _. split; [|split].
  - unfold get_nu. rewrite (bind_ok _ _ _ _ _ (getattr_ok _ _ _ Hnu)). reflexivity.
  - apply deref_Arr. exact Hnuv.
  - destruct (MDHT_zeros_inv _ _ _ _ Hz) as [(_ & _ & ->)|(Hm' & _)];
      [|unfold include_0 in Hm'; congruence].
    pose proof (jn_zeros_length m (Z.to_nat N)) as L.
    destruct (jn_zeros m (Z.to_nat N)) as [|z zs]; [simpl in L; lia|].
    simpl. unfold RtoC, C0. now rewrite Rmult_0_r.
Qed.

End Zeros.

(** ** Products with a matrix and its inverse *)

Lemma size_of_snoc sh n : size_of (sh ++ [n]) = size_of sh * n.
Proof.
  induction sh as [|d sh IH]; simpl; [lia|]. rewrite IH. lia.
Qed.

Lemma shape_snoc_case {X} sh (n : nat) (x y : X) :
  match sh ++ [n] with [] => x | _ :: _ => y end = y.
Proof. now destruct sh. Qed.

Lemma ncols_snoc a sh n : shape a = sh ++ [n] -> ncols a = n.
Proof. intros H. unfold ncols. rewrite H. apply last_last. Qed.

Lemma nrows_snoc a sh n : shape a = sh ++ [n] -> nrows a = size_of sh.
Proof. intros H. unfold nrows. rewrite H. now rewrite removelast_last. Qed.

Lemma dot_val_rows a B sh k j :
  shape a = sh ++ [k] -> shape B = [k; j] ->
  dot_val a B
  = inr (mk_nd (sh ++ [j])
           (tabulate (size_of sh * j)
              (fun i => sum_n (fun t => get (data a) (i / j * k + t)
                                       * get (data B) (t * j + i mod j))%C k))).
Proof.
  intros Ha HB. unfold dot_val.
  rewrite HB, (ncols_snoc _ _ _ Ha), (nrows_snoc _ _ _ Ha), Ha.
  rewrite shape_snoc_case, Nat.eqb_refl, removelast_last. reflexivity.
Qed.

Lemma div_mod_row q n t : t < n -> (q * n + t) / n = q /\ (q * n + t) mod n = t.
Proof.
  intros Ht. split.
  - rewrite Nat.add_comm, Nat.div_add by lia. rewrite Nat.div_small by lia. lia.
  - rewrite Nat.add_comm, Nat.Div0.mod_add. now apply Nat.mod_small.
Qed.

(** [x . B . A = x] when [B A] is the identity. *)
Lemma dot_dot_inverse x A B sh n :
  shape x = sh ++ [n] -> wf_nd x ->
  shape A = [n; n] -> shape B = [n; n] ->
  left_inverse n (data B) (data A) ->
  ebind (dot_val x B) (fun y => dot_val y A) = inr x.
Proof.
  intros Hx Hwf HA HB Hinv.
  rewrite (dot_val_rows x B sh n n Hx HB). simpl ebind.
  erewrite (dot_val_rows _ A sh n n); [|reflexivity|exact HA]. simpl data.
  destruct x as [shx dx]. simpl in *. subst shx. f_equal. f_equal.
  unfold wf_nd in Hwf. simpl in Hwf. rewrite size_of_snoc in Hwf.
  apply (nth_ext _ _ C0 C0); [now rewrite length_tabulate|].
  intros i Hi. rewrite length_tabulate in Hi.
  assert (0 < n) as Hn by (destruct n; [lia|lia]).
  rewrite nth_tabulate by exact Hi.
  assert (i / n < size_of sh) as Hq by (apply Nat.Div0.div_lt_upper_bound; lia).
  assert (i mod n < n) as Hj by (apply Nat.mod_upper_bound; lia).
  transitivity
    (sum_n (fun u => get dx (i / n * n + u)
                     * (if u =? i mod n then C1 else C0))%C n).
  - transitivity
      (sum_n (fun t => sum_n (fun u => get dx (i / n * n + u)
                                       * (entry n (data B) u t
                                          * entry n (data A) t (i mod n)))%C n) n).
    + apply sum_n_ext. intros t Ht.
      rewrite get_tabulate by nia.
      destruct (div_mod_row (i / n) n t Ht) as [-> ->].
      rewrite <- sum_n_scal_r. apply sum_n_ext. intros u _.
      unfold entry. ring.
    + rewrite sum_n_swap. apply sum_n_ext. intros u Hu.
      rewrite sum_n_scal_l. f_equal. now apply Hinv.
  - rewrite sum_n_delta by exact Hj. unfold get. f_equal.
    rewrite (Nat.div_mod_eq i n) at 3. lia.
Qed.

(** ** The constructor hands over to the routine of the method *)

(** Looks an attribute up in a dictionary built by assignments. *)
Ltac attr :=
  repeat first [ rewrite lookup_insert_eq
               | rewrite lookup_insert_ne by discriminate ].

Section Dispatch.

Variable jn : Z -> R -> R.
Variable jn_zeros : Z -> nat -> list R.
Variable fsolve : (R -> R) -> R -> R.
Variable linalg_inv : nat -> list C -> option (list C).
Variable cuda_installed : bool.

Lemma init_state_attrs method use_cuda s :
  heap (init_state cuda_installed method use_cuda s) = heap s
  /\ self (init_state cuda_installed method use_cuda s) !! "method"
     = Some (VStr method)
  /\ exists uc,
       self (init_state cuda_installed method use_cuda s) !! "use_cuda"
       = Some (VBool uc)
       /\ (uc = true ->
           self (init_state cuda_installed method use_cuda s) !! "cuda_stream"
           = Some VBlas).
Proof.
  unfold init_state. split; [reflexivity|].
  destruct use_cuda, cuda_installed; simpl; (split; [now attr|]).
  - exists true. split; [now attr|]. intros _. now attr.
  - exists false. split; [now attr|discriminate].
  - exists false. split; [now attr|discriminate].
  - exists false. split; [now attr|discriminate].
Qed.

Lemma init_prefix p N rmax method use_cuda kw s :
  str_in method available_methods = true ->
  __init__ jn jn_zeros fsolve linalg_inv cuda_installed p N rmax method use_cuda kw s
  = (if is_str (VStr method) "FHT" then FHT_init jn fsolve p N rmax
     else if is_str (VStr method) "QDHT" then QDHT_init jn jn_zeros p N rmax
     else if is_str (VStr method) "MDHT(m,m)"
          then MDHT_init jn jn_zeros linalg_inv p N rmax p
                 (kw_d_or_default kw) (kw_Fw_or_default kw)
     else if is_str (VStr method) "MDHT(m-1,m)"
          then MDHT_init jn jn_zeros linalg_inv p N rmax (p + 1)
                 (kw_d_or_default kw) (kw_Fw_or_default kw)
     else if is_str (VStr method) "MDHT(m+1,m)"
          then MDHT_init jn jn_zeros linalg_inv p N rmax (p - 1)
                 (kw_d_or_default kw) (kw_Fw_or_default kw)
     else ret tt)
      (init_state cuda_installed method use_cuda s).
Proof.
  intros H. unfold __init__, init_state. rewrite H.
  rewrite !bind_setattr.
  destruct use_cuda, cuda_installed; cbn [andb negb];
    try rewrite bind_setattr;
    try rewrite (bind_stateless _ _ _ _ (stateless_ret tt));
    (erewrite (bind_ok (getattr "use_cuda"));
       [|apply getattr_ok; cbn [self]; attr; reflexivity]);
    cbn [truthy];
    try rewrite bind_setattr;
    try rewrite (bind_stateless _ _ _ _ (stateless_ret tt));
    (erewrite (bind_ok (getattr "method"));
       [|apply getattr_ok; cbn [self]; attr; reflexivity]);
    reflexivity.
Qed.

Lemma init_dispatch_QDHT p N rmax use_cuda kw s :
  __init__ jn jn_zeros fsolve linalg_inv cuda_installed p N rmax "QDHT" use_cuda kw s
  = QDHT_init jn jn_zeros p N rmax (init_state cuda_installed "QDHT" use_cuda s).
Proof. now rewrite init_prefix. Qed.

Lemma init_dispatch_MDHT p N rmax method use_cuda kw s :
  str_in method MDHT_methods = true ->
  __init__ jn jn_zeros fsolve linalg_inv cuda_installed p N rmax method use_cuda kw s
  = MDHT_init jn jn_zeros linalg_inv p N rmax (aux_order method p)
      (kw_d_or_default kw) (kw_Fw_or_default kw)
      (init_state cuda_installed method use_cuda s).
Proof.
  intros H. unfold str_in, MDHT_methods in H. simpl in H.
  repeat (apply orb_true_iff in H; destruct H as [H|H]); try discriminate;
    apply String.eqb_eq in H; subst method; now rewrite init_prefix.
Qed.

Lemma available_methods_cases method :
  str_in method available_methods = true ->
  method = "QDHT" \/ str_in method MDHT_methods = true.
Proof.
  intros H. unfold str_in, available_methods in H. simpl in H.
  repeat (apply orb_true_iff in H; destruct H as [H|H]); try discriminate;
    apply String.eqb_eq in H; subst method; auto.
Qed.

Lemma init_success_method p N rmax method use_cuda kw s s' :
  __init__ jn jn_zeros fsolve linalg_inv cuda_installed p N rmax method use_cuda kw s
  = (inr tt, s') ->
  str_in method available_methods = true.
Proof.
  intros H. destruct (str_in method available_methods) eqn:E; [reflexivity|].
  rewrite init_illegal_method in H by exact E. discriminate.
Qed.

End Dispatch.

(** ** Constructed instances *)

Lemma has_array_new s name (l0 : loc) k cs a (h : list cell) :
  self s !! name = Some (VRef (l0 + k)) ->
  heap s = h ++ cs -> l0 = length h -> cs !! k = Some (Arr a) ->
  has_array s name a.
Proof.
  intros H1 H2 -> H3. exists (length h + k). split; [exact H1|].
  apply deref_Arr. rewrite H2, lookup_new. exact H3.
Qed.

Section Instances.

Variable jn : Z -> R -> R.
Variable jn_zeros : Z -> nat -> list R.
Variable linalg_inv : nat -> list C -> option (list C).

Hypothesis jn_zeros_length : forall n nt, length (jn_zeros n nt) = nt.

Lemma QDHT_init_inv p N rmax s s' :
  QDHT_init jn jn_zeros p N rmax s = (inr tt, s') ->
  (0 <= N)%Z /\ jn_zeros p (Z.to_nat (N + 1)) <> [].
Proof.
  intros H. unfold QDHT_init in H.
  destruct (stateless_scipy_jn_zeros jn_zeros p (N + 1)) as [[e|zeros] Hz];
    rewrite (bind_stateless _ _ _ _ Hz) in H; [discriminate|].
  destruct (scipy_jn_zeros_inv _ _ _ _ Hz) as [HN ->].
  split; [lia|]. rewrite <- length_zero_iff_nil, jn_zeros_length. lia.
Qed.

(** A constructed QDHT instance. *)
Lemma QDHT_init_instance p N rmax s s' :
  self s !! "method" = Some (VStr "QDHT") ->
  QDHT_init jn jn_zeros p N rmax s = (inr tt, s') ->
  exists J_inv J T numax,
    QDHT_instance s' (Z.to_nat N) J_inv J T rmax numax.
Proof.
  intros Hm H. destruct (QDHT_init_inv _ _ _ _ _ H) as [HN Hz].
  rewrite (QDHT_init_run jn jn_zeros p N rmax s HN Hz) in H.
  injection H as <-.
  set (zeros := jn_zeros p (Z.to_nat (N + 1))) in *.
  assert (length (removelast zeros) = Z.to_nat N) as La.
  { rewrite length_removelast. subst zeros. rewrite jn_zeros_length. lia. }
  eexists _, _, _, _. constructor; cbn [self heap].
  - now attr.
  - eapply (has_array_new _ _ (length (heap s)) 3); cbn [self heap];
      [now attr|reflexivity|reflexivity|reflexivity].
  - simpl. now rewrite !length_map, La.
  - eapply (has_array_new _ _ (length (heap s)) 2); cbn [self heap];
      [now attr|reflexivity|reflexivity|reflexivity].
  - simpl. now rewrite !length_map, La.
  - eapply (has_array_new _ _ (length (heap s)) 4); cbn [self heap];
      [now attr|reflexivity|reflexivity|reflexivity].
  - simpl. rewrite length_zip_with, !length_map, La. f_equal. lia.
  - now attr.
  - now attr.
Qed.

Lemma MDHT_attrs_other p N rmax m d Fw l attrs name :
  name ∉ ["d"; "Fw"; "p"; "m"; "N"; "rmax"; "nu"; "r"; "invM"] ->
  MDHT_attrs p N rmax m d Fw l attrs !! name = attrs !! name.
Proof.
  intros H. unfold MDHT_attrs.
  repeat (rewrite lookup_insert_ne;
          [|intros <-; apply H; rewrite !elem_of_cons; auto 15]).
  reflexivity.
Qed.

(** A matrix instance constructed with Fw = 'inverse': in the degenerate case
    [self.invM] has its first row at zero and [self.M] inverts the corrected
    matrix; otherwise [self.M] inverts [self.invM]. *)
Lemma MDHT_init_instance p N rmax m d s s' :
  (exists meth, self s !! "method" = Some (VStr meth)
                /\ str_in meth MDHT_methods = true) ->
  (exists uc, self s !! "use_cuda" = Some (VBool uc)
              /\ (uc = true -> self s !! "cuda_stream" = Some VBlas)) ->
  MDHT_init jn jn_zeros linalg_inv p N rmax m d "inverse" s = (inr tt, s') ->
  exists M invM A,
    MDHT_instance s' (Z.to_nat N) M invM
    /\ shape A = [Z.to_nat N; Z.to_nat N]
    /\ linalg_inv (Z.to_nat N) (data A) = Some (data M)
    /\ invM = (if Z_in m include_0 && negb (p =? 0)%Z then zero_row0 A else A).
Proof.
  intros (meth & Hmeth & Hin) (uc & Huc & Hcs) H.
  assert (forall l attrs v name,
            name ∉ ["d"; "Fw"; "p"; "m"; "N"; "rmax"; "nu"; "r"; "invM"; "M"] ->
            (<["M" := v]> (MDHT_attrs p N rmax m d "inverse" l attrs)) !! name
            = attrs !! name) as Hother.
  { intros l attrs v name Hn. rewrite lookup_insert_ne.
    - apply MDHT_attrs_other. intros Hi. apply Hn.
      rewrite !elem_of_cons in *. tauto.
    - intros <-. apply Hn. rewrite !elem_of_cons. tauto. }
  assert (forall name, In name ["method"; "use_cuda"; "cuda_stream"] ->
            name ∉ ["d"; "Fw"; "p"; "m"; "N"; "rmax"; "nu"; "r"; "invM"; "M"])
    as Hnames.
  { intros name Hn Hi. rewrite !elem_of_cons, elem_of_nil in Hi. simpl in Hn.
    intuition (subst; discriminate). }
  destruct (Z_in m include_0 && negb (p =? 0)%Z) eqn:Hsp.
  - destruct (MDHT_init_special jn jn_zeros linalg_inv jn_zeros_length
                _ _ _ _ _ _ _ Hsp H)
      as (nu & r & la & num & denom & Md & Lnu & Lr & Hn0 & _ & _ & _ & _
          & HA & EM & ->).
    eexists (mk_nd _ Md), _, _. split; [|split; [exact HA|split; [exact EM|reflexivity]]].
    constructor; cbn [self heap].
    + exists meth. split; [|exact Hin].
      rewrite lookup_insert_ne, lookup_insert_ne by discriminate.
      rewrite MDHT_attrs_other; [exact Hmeth|].
      intros Hi. rewrite !elem_of_cons, elem_of_nil in Hi. intuition discriminate.
    + exists uc. split.
      * rewrite lookup_insert_ne, lookup_insert_ne by discriminate.
        rewrite MDHT_attrs_other; [exact Huc|].
        intros Hi. rewrite !elem_of_cons, elem_of_nil in Hi. intuition discriminate.
      * intros Hu. rewrite lookup_insert_ne, lookup_insert_ne by discriminate.
        rewrite MDHT_attrs_other; [now apply Hcs|].
        intros Hi. rewrite !elem_of_cons, elem_of_nil in Hi. intuition discriminate.
    + eapply (has_array_new _ _ (length (heap s)) 4); cbn [self heap];
        [now attr|reflexivity|reflexivity|reflexivity].
    + reflexivity.
    + eapply (has_array_new _ _ (length (heap s)) 3); cbn [self heap];
        [now attr|reflexivity|reflexivity|reflexivity].
    + unfold zero_row0. simpl. exact HA.
  - destruct (MDHT_init_direct jn jn_zeros linalg_inv _ _ _ _ _ _ _ Hsp H)
      as (zeros & nu & r & S & A & Md & Hz & Hg & -> & HA & Hsq & EM & ->).
    destruct (MDHT_grid_length jn jn_zeros jn_zeros_length _ _ _ _ _ _ _ _ Hz Hg)
      as [Lr La].
    rewrite Hsq, Lr in HA. rewrite Lr in EM.
    eexists (mk_nd _ Md), _, _. split; [|split; [exact HA|split; [exact EM|reflexivity]]].
    constructor; cbn [self heap].
    + exists meth. split; [|exact Hin]. rewrite Hother; [exact Hmeth|].
      apply Hnames. simpl. auto.
    + exists uc. split.
      * rewrite Hother; [exact Huc|]. apply Hnames. simpl. auto.
      * intros Hu. rewrite Hother; [now apply Hcs|]. apply Hnames. simpl. auto.
    + eapply (has_array_new _ _ (length (heap s)) 3); cbn [self heap];
        [now attr|reflexivity|reflexivity|reflexivity].
    + simpl. now rewrite Lr.
    + eapply (has_array_new _ _ (length (heap s)) 2); cbn [self heap];
        [unfold MDHT_attrs; now attr|reflexivity|reflexivity|reflexivity].
    + exact HA.
Qed.

End Instances.

(** ** When a matrix construction succeeds *)

Section Totality.

Variable jn : Z -> R -> R.
Variable jn_zeros : Z -> nat -> list R.
Variable linalg_inv : nat -> list C -> option (list C).

Hypothesis jn_zeros_length : forall n nt, length (jn_zeros n nt) = nt.

Lemma MDHT_guard_ok num denom :
  denom <> [] -> num <> [] ->
  exists denom', stateless (MDHT_guard num denom) (inr denom').
Proof.
  intros Hd Hn. destruct denom as [|d0 ds]; [congruence|].
  destruct num as [|row0 rows]; [congruence|].
  unfold MDHT_guard.
  destruct (is_zero d0) eqn:E0; [destruct (forallb is_zero row0) eqn:E1|].
  - exists (1%R :: ds). intros s. unfold bind, py_index. simpl. rewrite E0.
    simpl. rewrite E1. reflexivity.
  - exists (d0 :: ds). intros s. unfold bind, py_index. simpl. rewrite E0.
    simpl. rewrite E1. reflexivity.
  - exists (d0 :: ds). intros s. unfold bind, py_index. simpl. now rewrite E0.
Qed.

(** With the uniform grid ([d] given), [N >= 1] and [rmax] not zero, every
    step before the inversion succeeds. *)
Lemma MDHT_steps_ok p N rmax m dv :
  (1 <= N)%Z ->
  let zeros := if Z_in m include_0 then 0%R :: jn_zeros m (Z.to_nat N)
               else jn_zeros m (Z.to_nat (N + 1)) in
  let alphas := removelast zeros in
  let la := List.last zeros 0%R in
  let nu := map (Rmult (1 / (2 * PI * rmax))) alphas in
  let r := map (fun n => rmax * 1 / IZR N * (n + dv))%R (arange N) in
  stateless (MDHT_zeros jn_zeros m N) (inr zeros)
  /\ zeros <> []
  /\ stateless (MDHT_grid jn jn_zeros N rmax m p (Some dv) alphas la) (inr (r, la))
  /\ exists denom,
       stateless (MDHT_guard (MDHT_num jn p r nu) (MDHT_denom jn p m rmax alphas))
         (inr denom).
Proof.
  intros HN zeros alphas la nu r.
  pose proof (MDHT_zeros_ok jn_zeros m N HN) as Hz. fold zeros in Hz.
  destruct (MDHT_zeros_length jn_zeros jn_zeros_length _ _ _ Hz) as [Lz _].
  assert (length alphas = Z.to_nat N) as La
    by (subst alphas; rewrite length_removelast; lia).
  split; [exact Hz|]. split; [destruct zeros; [simpl in Lz; lia|congruence]|].
  split.
  - assert (IZR N <> 0%R) as HN0 by (apply not_0_IZR; lia).
    unfold MDHT_grid. intros s.
    rewrite (bind_stateless _ _ _ _ (py_div_ok _ _ HN0)). reflexivity.
  - apply MDHT_guard_ok.
    + unfold MDHT_denom. destruct alphas; [simpl in La; lia|discriminate].
    + unfold MDHT_num. subst nu. destruct alphas; [simpl in La; lia|discriminate].
Qed.

(** A default construction in the degenerate case succeeds exactly when the
    corrected matrix can be inverted, and otherwise raises the error of the
    inversion. *)
Lemma MDHT_init_special_total p N rmax m dv s :
  Z_in m [p - 1; p; p + 1]%Z = true ->
  Z_in m include_0 && negb (p =? 0)%Z = true ->
  (1 <= N)%Z -> rmax <> 0%R ->
  exists r la num denom,
    let A := nd_of_rows (Z.to_nat N) (corrected_rows jn p m rmax r la num denom) in
    match linalg_inv (Z.to_nat N) (data A) with
    | Some _ =>
        exists s', MDHT_init jn jn_zeros linalg_inv p N rmax m (Some dv) "inverse" s
                   = (inr tt, s')
    | None =>
        exists s', MDHT_init jn jn_zeros linalg_inv p N rmax m (Some dv) "inverse" s
                   = (inl LinAlgError, s')
    end
    /\ r = map (fun n => rmax * 1 / IZR N * (n + dv))%R (arange N)
    /\ la = List.last (jn_zeros m (Z.to_nat N)) 0%R
    /\ num = MDHT_num jn p r
               (map (Rmult (1 / (2 * PI * rmax)))
                  (0%R :: removelast (jn_zeros m (Z.to_nat N))))
    /\ length denom = Z.to_nat N.
Proof.
  intros Hm Hsp HN Hr.
  destruct (MDHT_steps_ok p N rmax m dv HN) as (Hz & Hne & Hg & denom & Hd).
  assert (Z_in m include_0 = true) as Hi
    by (apply andb_true_iff in Hsp; tauto).
  rewrite Hi in *.
  assert (Z_in m include_0 && negb (p =? 0)%Z = true) as Hsp'
    by (rewrite Hi; exact Hsp).
  set (n := Z.to_nat N) in *.
  assert (jn_zeros m n <> []) as Hjz.
  { intros E. pose proof (jn_zeros_length m n) as L. rewrite E in L.
    simpl in L. subst n. lia. }
  assert (removelast (0%R :: jn_zeros m n) = 0%R :: removelast (jn_zeros m n))
    as Eal by (simpl; destruct (jn_zeros m n); [congruence|reflexivity]).
  assert (List.last (0%R :: jn_zeros m n) 0%R = List.last (jn_zeros m n) 0%R)
    as Ela by (simpl; destruct (jn_zeros m n); [congruence|reflexivity]).
  set (r := map (fun k => rmax * 1 / IZR N * (k + dv))%R (arange N)) in *.
  assert (length r = n) as Lr by (subst r; now rewrite length_map, length_arange).
  set (nu := map (Rmult (1 / (2 * PI * rmax))) (removelast (0%R :: jn_zeros m n)))
    in *.
  assert (length nu = n) as Lnu.
  { subst nu. rewrite length_map, length_removelast. simpl.
    rewrite jn_zeros_length. lia. }
  destruct (MDHT_guard_length _ _ _ Hd) as [Ld _].
  unfold MDHT_denom in Ld. rewrite length_map in Ld. fold nu in Ld.
  assert (length denom = n) as Ld'.
  { rewrite Ld, length_removelast. simpl. rewrite jn_zeros_length. lia. }
  set (num := MDHT_num jn p r nu) in *.
  assert (length num = n) as Lnum by (subst num; now rewrite length_MDHT_num).
  exists r, (List.last (jn_zeros m n) 0%R), num, denom. cbv zeta.
  split; [|subst num nu; rewrite Eal; auto].
  pose proof (MDHT_init_prefix jn jn_zeros linalg_inv p N rmax m (Some dv)
                "inverse" s _ r _ denom Hm Hz Hne Hr Hg Hd) as E.
  cbv zeta in E. fold nu num in E. rewrite Ela in E.
  assert (n <> 0) as Hn0 by (subst n; lia).
  assert (shape (nd_of_rows (length r)
                   (corrected_rows jn p m rmax r (List.last (jn_zeros m n) 0%R)
                      num denom)) = [n; n]) as HA.
  { unfold nd_of_rows, nd_of_reals, corrected_rows. simpl.
    rewrite length_divide_rows, !length_insert, Lnum, Ld', Lr. f_equal. lia. }
  rewrite (MDHT_matrix_M_special jn linalg_inv p m rmax r _ _ num denom _ _ n
             Hsp' Hr) in E;
    [|destruct denom; [simpl in Ld'; lia|congruence]
     |destruct num; [simpl in Lnum; lia|congruence]
     |exact HA|exact Hn0].
  rewrite Lr in E.
  destruct (linalg_inv n _); eexists; exact E.
Qed.

End Totality.

(** ** The round trip of the matrix methods (C2) *)

Lemma outcome_result own c s r : outcome own c s r -> result_of c s = r.
Proof.
  intros H. assert (outcome false c s r) as H'
    by (destruct own; [now apply outcome_weaken|exact H]).
  clear H. unfold result_of. destruct r as [e|v].
  - destruct H' as (s' & -> & _). reflexivity.
  - destruct H' as (l & s' & -> & _ & _ & ->). reflexivity.
Qed.

Lemma MDHT_instance_extends s s' n M invM :
  extends s s' -> MDHT_instance s n M invM -> MDHT_instance s' n M invM.
Proof.
  intros E [(meth & Hm & Hin) (uc & Hu & Hc) HM HMs HI HIs].
  constructor; auto.
  - exists meth. now rewrite (proj1 E).
  - exists uc. now rewrite !(proj1 E).
  - eapply has_array_extends; eauto.
  - eapply has_array_extends; eauto.
Qed.

Lemma QDHT_instance_extends s s' n J_inv J T rmax numax :
  extends s s' -> QDHT_instance s n J_inv J T rmax numax ->
  QDHT_instance s' n J_inv J T rmax numax.
Proof.
  intros E []. constructor; auto; try (now rewrite (proj1 E));
    eapply has_array_extends; eauto.
Qed.

Lemma FHT_instance_extends s s' n r nu k :
  extends s s' -> FHT_instance s n r nu k -> FHT_instance s' n r nu k.
Proof.
  intros E []. constructor; auto; try (now rewrite (proj1 E));
    eapply has_array_extends; eauto.
Qed.

Lemma computes_extends s s' n fwd inv :
  extends s s' -> computes s n fwd inv -> computes s' n fwd inv.
Proof.
  intros E [M invM H -> ->|J_inv J T rmax numax H -> ->|r nu k H -> ->].
  - eapply computes_MDHT; eauto using MDHT_instance_extends.
  - eapply computes_QDHT; eauto using QDHT_instance_extends.
  - eapply computes_FHT; eauto using FHT_instance_extends.
Qed.

Section RoundTrip.

Variable jn : Z -> R -> R.
Variable jn_zeros : Z -> nat -> list R.
Variable fsolve : (R -> R) -> R -> R.
Variable linalg_inv : nat -> list C -> option (list C).
Variable cuda_installed : bool.
Variable cuda_dot : ndarray -> ndarray -> exn + ndarray.

Hypothesis jn_zeros_length : forall n nt, length (jn_zeros n nt) = nt.
Hypothesis linalg_inv_inverts : inverts linalg_inv.
Hypothesis cuda_dot_spec : forall a b, cuda_dot a b = dot_val a b.

(** One transform after the other, on an instance. *)
Lemma two_calls s n fwd inv F x :
  computes s n fwd inv -> deref (heap s) F = Some x ->
  result_of (do G <- transform cuda_dot F; inverse_transform cuda_dot G) s
  = ebind (fwd x) inv
  /\ result_of (do G <- inverse_transform cuda_dot F; transform cuda_dot G) s
     = ebind (inv x) fwd.
Proof.
  intros Hc HF.
  destruct (transform_outcome cuda_dot cuda_dot_spec s n fwd inv F x Hc HF)
    as [H1 H2].
  split; apply (outcome_result true); apply outcome_bind;
    try (apply outcome_weaken; assumption);
    intros l s1 y _ E D _;
    apply (transform_outcome cuda_dot cuda_dot_spec s1 n fwd inv l y
             (computes_extends _ _ _ _ _ E Hc) D).
Qed.

(** C2, amended: for a matrix instance constructed with the forward mode
    'inverse' (the default) outside the degenerate case (that is, unless the
    auxiliary order is -1 or 1 and p is not 0), M and invM are inverses of one
    another: on every input array whose last axis has length N, the inverse
    transform of the transform, and the transform of the inverse transform,
    return the values of the input, in exact arithmetic. *)
Theorem MDHT_round_trip p N rmax method use_cuda kw s s' F x sh :
  str_in method MDHT_methods = true ->
  kw_Fw_or_default kw = "inverse" ->
  Z_in (aux_order method p) include_0 && negb (p =? 0)%Z = false ->
  __init__ jn jn_zeros fsolve linalg_inv cuda_installed
    p N rmax method use_cuda kw s = (inr tt, s') ->
  deref (heap s') F = Some x -> shape x = sh ++ [Z.to_nat N] -> wf_nd x ->
  result_of (do G <- transform cuda_dot F; inverse_transform cuda_dot G) s'
  = inr x
  /\ result_of (do G <- inverse_transform cuda_dot F; transform cuda_dot G) s'
     = inr x.
Proof.
  intros Hmeth HFw Hsp H HF Hsh Hwf.
  rewrite (init_dispatch_MDHT _ _ _ _ _ _ _ _ _ _ _ _ Hmeth), HFw in H.
  destruct (init_state_attrs cuda_installed method use_cuda s)
    as (_ & Hm0 & Hu0).
  destruct (MDHT_init_instance jn jn_zeros linalg_inv jn_zeros_length
              _ _ _ _ _ _ _ (ex_intro _ method (conj Hm0 Hmeth)) Hu0 H)
    as (M & invM & A & HI & HA & EM & EI).
  rewrite Hsp in EI. subst invM.
  destruct (linalg_inv_inverts _ _ _ EM) as (_ & L1 & L2).
  destruct (two_calls s' _ _ _ F x
              (computes_MDHT _ _ _ _ M A HI eq_refl eq_refl) HF) as [-> ->].
  unfold MDHT_value. split.
  - apply (dot_dot_inverse x A M sh (Z.to_nat N)); auto.
    apply (md_M_shape _ _ _ _ HI).
  - apply (dot_dot_inverse x M A sh (Z.to_nat N)); auto.
    apply (md_M_shape _ _ _ _ HI).
Qed.

End RoundTrip.

Lemma is_zero_true x : is_zero x = true <-> x = 0%R.
Proof. unfold is_zero. destruct (Req_dec_T x 0); split; congruence. Qed.

Lemma is_zero_false x : is_zero x = false <-> x <> 0%R.
Proof. unfold is_zero. destruct (Req_dec_T x 0); split; congruence. Qed.

Lemma Cdiv_inv_l (z : C) : z <> C0 -> (C1 / z * z)%C = C1.
Proof.
  intros Hz. destruct z as [x y].
  assert (x * x + y * y <> 0)%R as Hn.
  { intros E. apply Hz. unfold C0, RtoC.
    assert (x = 0)%R by nra. assert (y = 0)%R by nra. now subst. }
  apply C_eq; simpl; field; exact Hn.
Qed.

Lemma sample_inv_inverts : inverts sample_inv.
Proof.
  intros n A B H. unfold sample_inv in H.
  destruct n as [|[|n]]; try discriminate.
  destruct A as [|z [|]]; try discriminate.
  destruct (is_zero (fst z) && is_zero (snd z)) eqn:E; [discriminate|].
  injection H as <-.
  assert (z <> C0) as Hz.
  { intros ->. simpl in E. unfold is_zero in E.
    destruct (Req_dec_T 0 0); [discriminate|congruence]. }
  split; [reflexivity|].
  split; intros i j Hi Hj; assert (i = 0) as -> by lia;
    assert (j = 0) as -> by lia; simpl; unfold entry, get; simpl.
  - rewrite Cdiv_inv_l by exact Hz. ring.
  - replace (z * (C1 / z))%C with (C1 / z * z)%C by ring.
    rewrite Cdiv_inv_l by exact Hz. ring.
Qed.

Lemma sample_corrected_matrix d0 :
  data (nd_of_rows 1
          (corrected_rows sample_jn 1 1 1
             (map (fun n => 1 * 1 / 1 * (n + 1 / 2))%R (arange 1))
             (List.last (sample_jn_zeros 1 1) 0%R)
             (MDHT_num sample_jn 1
                (map (fun n => 1 * 1 / 1 * (n + 1 / 2))%R (arange 1))
                (map (Rmult (1 / (2 * PI * 1)))
                   (0%R :: removelast (sample_jn_zeros 1 1))))
             [d0]))
  = [RtoC (/ (2 * PI))].
Proof.
  unfold corrected_rows, sample_jn_zeros, MDHT_num, nd_of_rows, nd_of_reals,
    divide_rows, divide_rows_with, arange, sample_jn. simpl. f_equal. f_equal.
  pose proof PI_RGT_0. field. lra.
Qed.

Lemma sample_inv_nonzero a :
  a <> 0%R -> sample_inv 1 [RtoC a] = Some [(C1 / RtoC a)%C].
Proof.
  intros Ha. unfold sample_inv. simpl.
  now rewrite (proj2 (is_zero_false a) Ha).
Qed.

(** C2, as worded, fails: the order-1 instance of 'MDHT(m,m)' with one sample
    is constructed (its corrected 1 by 1 matrix is invertible), its [invM] is
    left with the first row, here the only one, at zero, and the round trip
    of the array [1.] is [0.]. *)
Lemma round_trip_on_every_instance_fails : ~ round_trip_on_every_instance.
Proof.
  intros H.
  set (s := mk_state ∅ [Arr (mk_nd [1] [C1])]).
  specialize (H sample_jn sample_jn_zeros (fun _ x => x) sample_inv false dot_val
                sample_jn_zeros_length sample_inv_inverts (fun _ _ => eq_refl)
                1%Z 1%Z 1%R "MDHT(m,m)" false no_kw s).
  assert (str_in "MDHT(m,m)" MDHT_methods = true) as Hmeth by reflexivity.
  destruct (MDHT_init_special_total sample_jn sample_jn_zeros sample_inv
              sample_jn_zeros_length 1 1 1 1 (1 / 2)
              (init_state false "MDHT(m,m)" false s)
              eq_refl eq_refl ltac:(lia) ltac:(lra))
    as (r & la & num & denom & Hrun & -> & -> & -> & Ld).
  destruct denom as [|d0 [|]]; try discriminate.
  cbv zeta in Hrun. change (Z.to_nat 1) with 1 in Hrun.
  rewrite sample_corrected_matrix, sample_inv_nonzero in Hrun
    by (pose proof PI_RGT_0; apply Rinv_neq_0_compat; lra).
  destruct Hrun as (s' & Hs').
  assert (__init__ sample_jn sample_jn_zeros (fun _ x => x) sample_inv false
            1 1 1 "MDHT(m,m)" false no_kw s = (inr tt, s')) as Hs2
    by (rewrite init_dispatch_MDHT by exact Hmeth; exact Hs').
  destruct (init_state_attrs false "MDHT(m,m)" false s) as (_ & Hm0 & Hu0).
  destruct (MDHT_init_instance sample_jn sample_jn_zeros sample_inv
              sample_jn_zeros_length _ _ _ _ _ _ _
              (ex_intro _ "MDHT(m,m)" (conj Hm0 Hmeth)) Hu0 Hs')
    as (M & invM & A & HI & HA & EM & EI).
  simpl in EI. subst invM.
  assert (deref (heap s') 0 = Some (mk_nd [1] [C1])) as HF.
  { destruct (keeps_MDHT_init sample_jn sample_jn_zeros sample_inv 1
                1 1 1 1 (Some (1 / 2)%R) "inverse" _ _ _ Hs') as (_ & K & _);
      [simpl; lia|].
    apply deref_Arr. rewrite K by lia. reflexivity. }
  specialize (H s' 0 (mk_nd [1] [C1]) [] Hmeth Hs2 HF eq_refl eq_refl).
  destruct (two_calls dot_val (fun _ _ => eq_refl) s' _ _ _ 0 _
              (computes_MDHT _ _ _ _ M (zero_row0 A) HI eq_refl eq_refl) HF)
    as [E _].
  rewrite E in H. clear E. unfold MDHT_value in H.
  rewrite (dot_val_rows (mk_nd [1] [C1]) M [] 1 1 eq_refl
             (md_M_shape _ _ _ _ HI)) in H.
  simpl ebind in H.
  erewrite (dot_val_rows _ (zero_row0 A) [] 1 1) in H;
    [|reflexivity|unfold zero_row0; simpl; exact HA].
  injection H as H _.
  assert (get (data (zero_row0 A)) 0 = C0) as Hz.
  { unfold zero_row0. simpl. destruct (data A) as [|a0 l0]; [reflexivity|].
    rewrite get_tabulate by (simpl; lia). unfold ncols. now rewrite HA. }
  simpl in H. fold (zero_row0 A) in H.
  change (tabulate (length (data A))
            (fun i => if i <? ncols A then RtoC 0 else get (data A) i))
    with (data (zero_row0 A)) in H.
  rewrite Hz in H. simpl in H. lra.
Qed.

Section TotalityDirect.

Variable jn : Z -> R -> R.
Variable jn_zeros : Z -> nat -> list R.
Variable linalg_inv : nat -> list C -> option (list C).

Hypothesis jn_zeros_length : forall n nt, length (jn_zeros n nt) = nt.

(** A default construction outside the degenerate case succeeds exactly when
    the matrix of the backward transformation can be inverted. *)
Lemma MDHT_init_direct_run p N rmax m dv s :
  Z_in m [p - 1; p; p + 1]%Z = true ->
  Z_in m include_0 && negb (p =? 0)%Z = false ->
  (1 <= N)%Z -> rmax <> 0%R ->
  let zeros := if Z_in m include_0 then 0%R :: jn_zeros m (Z.to_nat N)
               else jn_zeros m (Z.to_nat (N + 1)) in
  let nu := map (Rmult (1 / (2 * PI * rmax))) (removelast zeros) in
  let r := map (fun n => rmax * 1 / IZR N * (n + dv))%R (arange N) in
  let num := MDHT_num jn p r nu in
  exists denom,
    stateless (MDHT_guard num (MDHT_denom jn p m rmax (removelast zeros)))
      (inr denom)
    /\ let n := Z.to_nat N in
       let l := length (heap s) in
       let A := nd_of_rows n (divide_rows num denom) in
       MDHT_init jn jn_zeros linalg_inv p N rmax m (Some dv) "inverse" s
       = match linalg_inv n (data A) with
         | Some Md =>
             (inr tt,
              mk_state
                (<["M" := VRef (l + 3)]>
                   (MDHT_attrs p N rmax m (Some dv) "inverse" l (self s)))
                (heap s ++ [Arr (nd_of_reals [n] nu); Arr (nd_of_reals [n] r);
                            Arr A; Arr (mk_nd [n; n] Md)]))
         | None =>
             (inl LinAlgError,
              mk_state (MDHT_attrs p N rmax m (Some dv) "inverse" l (self s))
                (heap s ++ [Arr (nd_of_reals [n] nu); Arr (nd_of_reals [n] r);
                            Arr A]))
         end.
Proof.
  intros Hm Hsp HN Hr zeros nu r num.
  destruct (MDHT_steps_ok jn jn_zeros jn_zeros_length p N rmax m dv HN)
    as (Hz & Hne & Hg & denom & Hd).
  fold zeros nu r num in Hz, Hne, Hg, Hd.
  exists denom. split; [exact Hd|].
  pose proof (MDHT_init_prefix jn jn_zeros linalg_inv p N rmax m (Some dv)
                "inverse" s _ r _ denom Hm Hz Hne Hr Hg Hd) as E.
  cbv zeta in E. fold nu num in E.
  assert (length r = Z.to_nat N) as Lr
    by (subst r; now rewrite length_map, length_arange).
  destruct (MDHT_grid_length jn jn_zeros jn_zeros_length _ _ _ _ _ _ _ _ Hz Hg)
    as [_ La].
  destruct (shape_first_invM jn p m rmax r nu (removelast zeros) denom
              ltac:(apply length_map) Hd) as [HA _].
  rewrite La, Lr in HA.
  erewrite (MDHT_matrix_M_direct jn linalg_inv p m rmax r _ _ _ denom _ _ _
              (Z.to_nat N) Hsp) in E;
    [|cbv [heap]; apply (lookup_new _ [_; _; _] 2)|rewrite Lr; exact HA].
  assert (length nu = Z.to_nat N) as Lnu by (subst nu; now rewrite length_map).
  rewrite Lr, Lnu in E. cbv zeta. rewrite E. cbv [self heap].
  destruct (linalg_inv (Z.to_nat N) _); [|reflexivity].
  f_equal. f_equal.
  - rewrite length_app. simpl. reflexivity.
  - now rewrite <- app_assoc.
Qed.

End TotalityDirect.

Lemma sample_direct_matrix :
  exists denom,
    stateless
      (MDHT_guard
         (MDHT_num sample_jn 0
            (map (fun n => 1 * 1 / 1 * (n + 1 / 2))%R (arange 1))
            (map (Rmult (1 / (2 * PI * 1))) (removelast (sample_jn_zeros 0 2))))
         (MDHT_denom sample_jn 0 0 1 (removelast (sample_jn_zeros 0 2))))
      (inr denom)
    /\ data (nd_of_rows 1
               (divide_rows
                  (MDHT_num sample_jn 0
                     (map (fun n => 1 * 1 / 1 * (n + 1 / 2))%R (arange 1))
                     (map (Rmult (1 / (2 * PI * 1)))
                        (removelast (sample_jn_zeros 0 2))))
                  denom))
       = [RtoC (/ PI)].
Proof.
  pose proof PI_RGT_0 as HPI.
  exists [PI]. split.
  - intros s. unfold MDHT_guard, MDHT_num, MDHT_denom, sample_jn_zeros, sample_jn,
      arange, bind, py_index. simpl.
    replace (PI * (1 * (1 * 1)) * (1 * (1 * 1)))%R with PI by ring.
    rewrite (proj2 (is_zero_false PI)) by lra. reflexivity.
  - unfold MDHT_num, sample_jn_zeros, sample_jn, arange, nd_of_rows, nd_of_reals,
      divide_rows, divide_rows_with. simpl. f_equal. f_equal. field. lra.
Qed.

(** A matrix instance on which the round trip holds: order 0, one sample. *)
Lemma MDHT_round_trip_witness :
  exists s',
    __init__ sample_jn sample_jn_zeros (fun _ x => x) sample_inv false
      0 1 1 "MDHT(m,m)" false no_kw (mk_state ∅ [Arr (mk_nd [1] [C1])])
    = (inr tt, s')
    /\ result_of (do G <- transform dot_val 0; inverse_transform dot_val G) s'
       = inr (mk_nd [1] [C1])
    /\ result_of (do G <- inverse_transform dot_val 0; transform dot_val G) s'
       = inr (mk_nd [1] [C1]).
Proof.
  set (s := mk_state ∅ [Arr (mk_nd [1] [C1])]).
  assert (str_in "MDHT(m,m)" MDHT_methods = true) as Hmeth by reflexivity.
  destruct (MDHT_init_direct_run sample_jn sample_jn_zeros sample_inv
              sample_jn_zeros_length 0 1 1 0 (1 / 2)
              (init_state false "MDHT(m,m)" false s)
              eq_refl eq_refl ltac:(lia) ltac:(lra)) as (denom & Hd & Hrun).
  destruct sample_direct_matrix as (denom' & Hd' & HA).
  pose proof (stateless_fun _ _ _ Hd Hd') as E. injection E as ->.
  cbv zeta in Hrun. change (Z.to_nat 1) with 1 in Hrun.
  change (Z.to_nat (1 + 1)) with 2 in Hrun.
  change (if Z_in 0 include_0 then 0%R :: sample_jn_zeros 0 1
          else sample_jn_zeros 0 2) with (sample_jn_zeros 0 2) in Hrun.
  rewrite HA, sample_inv_nonzero in Hrun
    by (pose proof PI_RGT_0; apply Rinv_neq_0_compat; lra).
  match type of Hrun with _ = (_, ?s1) => set (s' := s1) in * end.
  pose proof Hrun as Hs'.
  assert (__init__ sample_jn sample_jn_zeros (fun _ x => x) sample_inv false
            0 1 1 "MDHT(m,m)" false no_kw s = (inr tt, s')) as Hs2
    by (rewrite init_dispatch_MDHT by exact Hmeth; exact Hs').
  exists s'. split; [exact Hs2|].
  assert (deref (heap s') 0 = Some (mk_nd [1] [C1])) as HF.
  { destruct (keeps_MDHT_init sample_jn sample_jn_zeros sample_inv 1
                0 1 1 0 (Some (1 / 2)%R) "inverse" _ _ _ Hs') as (_ & K & _);
      [simpl; lia|].
    apply deref_Arr. rewrite K by lia. reflexivity. }
  apply (MDHT_round_trip sample_jn sample_jn_zeros (fun _ x => x) sample_inv
           false dot_val sample_jn_zeros_length sample_inv_inverts
           (fun _ _ => eq_refl) 0 1 1 "MDHT(m,m)" false no_kw s s' 0
           (mk_nd [1] [C1]) [] Hmeth eq_refl eq_refl Hs2 HF eq_refl eq_refl).
Defined.

(** ** The degenerate first row (C4) *)

Lemma has_array_fun s name a b : has_array s name a -> has_array s name b -> a = b.
Proof. intros (l & H1 & H2) (l' & H1' & H2'). congruence. Qed.

Lemma sample_neighbour_matrix :
  exists denom,
    stateless
      (MDHT_guard
         (MDHT_num sample_jn 1
            (map (fun n => 1 * 1 / 1 * (n + 1 / 2))%R (arange 1))
            (map (Rmult (1 / (2 * PI * 1))) (removelast (sample_jn_zeros 2 2))))
         (MDHT_denom sample_jn 1 2 1 (removelast (sample_jn_zeros 2 2))))
      (inr denom)
    /\ data (nd_of_rows 1
               (divide_rows
                  (MDHT_num sample_jn 1
                     (map (fun n => 1 * 1 / 1 * (n + 1 / 2))%R (arange 1))
                     (map (Rmult (1 / (2 * PI * 1)))
                        (removelast (sample_jn_zeros 2 2))))
                  denom))
       = [RtoC (/ (2 * PI))].
Proof.
  pose proof PI_RGT_0 as HPI.
  exists [PI]. split.
  - intros s. unfold MDHT_guard, MDHT_num, MDHT_denom, sample_jn_zeros, sample_jn,
      arange, bind, py_index. simpl.
    replace (PI * (1 * (1 * 1)) * (1 * (1 * 1)))%R with PI by ring.
    rewrite (proj2 (is_zero_false PI)) by lra. reflexivity.
  - unfold MDHT_num, sample_jn_zeros, sample_jn, arange, nd_of_rows, nd_of_reals,
      divide_rows, divide_rows_with. simpl. f_equal. f_equal. field. lra.
Qed.


(** The order-1 instance of 'MDHT(m,m)' with one sample can be constructed. *)
Lemma sample_special_run s :
  exists s',
    MDHT_init sample_jn sample_jn_zeros sample_inv 1 1 1 1 (Some (1 / 2)%R)
      "inverse" s = (inr tt, s').
Proof.
  destruct (MDHT_init_special_total sample_jn sample_jn_zeros sample_inv
              sample_jn_zeros_length 1 1 1 1 (1 / 2) s
              eq_refl eq_refl ltac:(lia) ltac:(lra))
    as (r & la & num & denom & Hrun & -> & -> & -> & Ld).
  destruct denom as [|d0 [|]]; try discriminate.
  cbv zeta in Hrun. change (Z.to_nat 1) with 1 in Hrun.
  rewrite sample_corrected_matrix, sample_inv_nonzero in Hrun
    by (pose proof PI_RGT_0; apply Rinv_neq_0_compat; lra).
  exact Hrun.
Qed.

Section Corrected.

Variable jn : Z -> R -> R.
Variable jn_zeros : Z -> nat -> list R.
Variable linalg_inv : nat -> list C -> option (list C).

Hypothesis jn_zeros_length : forall n nt, length (jn_zeros n nt) = nt.


End Corrected.


(** The order-1 instance of 'MDHT(m,m)' with one sample: its zeros are 0 and
    the first positive zero, and its frequency grid starts at 0. *)
Lemma zeros_by_order_witness :
  stateless (MDHT_zeros sample_jn_zeros 1 1)
    (inr (0%R :: sample_jn_zeros 1 1))
  /\ exists s' l nu,
       MDHT_init sample_jn sample_jn_zeros sample_inv 1 1 1 1 (Some (1 / 2)%R)
         "inverse" (mk_state ∅ []) = (inr tt, s')
       /\ get_nu s' = (inr l, s')
       /\ deref (heap s') l = Some nu
       /\ data nu !! 0 = Some C0.
Proof.
  destruct (zeros_by_order sample_jn sample_jn_zeros sample_inv
              sample_jn_zeros_length 1 1 ltac:(lia)) as [H1 H2].
  split; [exact H1|].
  destruct (sample_special_run (mk_state ∅ [])) as (s' & Hs').
  destruct (H2 _ _ _ _ _ _ eq_refl Hs') as (l & nu & H).
  exists s', l, nu. split; [exact Hs'|exact H].
Defined.

(** ** The guard against 0/0 (C6) *)

Lemma divide_rows_with_cons div row rows d ds :
  divide_rows_with div (row :: rows) (d :: ds)
  = map (fun x => div x d) row :: divide_rows_with div rows ds.
Proof. reflexivity. Qed.

Lemma divide_rows_cons row rows d ds :
  divide_rows (row :: rows) (d :: ds)
  = map (fun x => x / d)%R row :: divide_rows rows ds.
Proof. reflexivity. Qed.

Lemma forallb_is_zero row : forallb is_zero row = true <-> Forall (eq 0%R) row.
Proof.
  rewrite forallb_forall, List.Forall_forall.
  split; intros H x Hx; specialize (H x Hx);
    [symmetry; now apply is_zero_true|apply is_zero_true; now symmetry].
Qed.

(** The quotient of the reals is a float division, and so is the sample. *)
Lemma float_division_Rdiv : float_division Rdiv.
Proof. intros x y _. reflexivity. Qed.

Lemma float_division_sample : float_division sample_division.
Proof.
  intros x y Hy. unfold sample_division.
  destruct (Req_dec_T y 0) as [E|_]; [contradiction|reflexivity].
Qed.

(** Dividing by a first denominator that is zero leaves in the first row
    whatever the division gives there: without the guard the row of zeros is
    not kept by every float division. *)
Lemma unguarded_first_row :
  exists div, float_division div
              /\ divide_rows_with div [[0%R]] [0%R] <> [[0%R]].
Proof.
  exists sample_division. split; [exact float_division_sample|].
  unfold divide_rows_with, sample_division. simpl.
  destruct (Req_dec_T 0 0) as [_|N]; [|now destruct N].
  intros E. injection E as E. lra.
Qed.

(** The first row of the array of rows. *)
Lemma entry_first_row cols row0 rows j :
  j < length row0 ->
  entry cols (data (nd_of_rows cols (row0 :: rows))) 0 j = RtoC (nth j row0 0%R).
Proof.
  intros Hj. unfold entry, nd_of_rows, nd_of_reals, get. cbn [data concat].
  rewrite Nat.mul_0_l, Nat.add_0_l.
  rewrite (nth_indep _ C0 (RtoC 0)) by (rewrite length_map, length_app; lia).
  rewrite map_nth, app_nth1 by exact Hj. reflexivity.
Qed.

Section Guard.

Variable jn : Z -> R -> R.
Variable jn_zeros : Z -> nat -> list R.
Variable linalg_inv : nat -> list C -> option (list C).

(** C6: whatever the division of floats gives on a zero divisor, when the
    first denominator is zero and the first numerator row is zero throughout,
    the guard of lines 284-285 returns, without raising, the denominators with
    1 in the first place and the others as they were; the division of
    line 286 then divides the first row by 1, and leaves the numerator row
    itself, all zeros; and [MDHT_init], whose zeros, grid and guard have these
    values, reaches line 288 with this matrix stored as [self.invM], every
    entry of its first row being 0. *)
Theorem guard_against_zero_by_zero (div : R -> R -> R)
  (num : list (list R)) (denom : list R) row0 rows d0 ds :
  float_division div ->
  num = row0 :: rows -> denom = d0 :: ds ->
  d0 = 0%R -> Forall (eq 0%R) row0 ->
  stateless (MDHT_guard num denom) (inr (1%R :: ds))
  /\ divide_rows_with div num (1%R :: ds) = row0 :: divide_rows_with div rows ds
  /\ (forall p N rmax m d Fw s zeros r S,
        Z_in m [p - 1; p; p + 1]%Z = true ->
        stateless (MDHT_zeros jn_zeros m N) (inr zeros) ->
        zeros <> [] -> rmax <> 0%R ->
        stateless (MDHT_grid jn jn_zeros N rmax m p d (removelast zeros)
                     (List.last zeros 0%R)) (inr (r, S)) ->
        num = MDHT_num jn p r
                (map (Rmult (1 / (2 * PI * rmax))) (removelast zeros)) ->
        denom = MDHT_denom jn p m rmax (removelast zeros) ->
        exists s3 invM,
          MDHT_init_with jn jn_zeros linalg_inv div p N rmax m d Fw s
          = MDHT_matrix_M_with jn linalg_inv div p m rmax Fw r
              (List.last zeros 0%R) S num (1%R :: ds) (length (heap s) + 2) s3
          /\ has_array s3 "invM" invM
          /\ invM = nd_of_rows (length r) (row0 :: divide_rows_with div rows ds)
          /\ forall j, j < length r ->
               entry (length r) (data invM) 0 j = RtoC 0).
Proof.
  intros Hdiv -> -> -> Hrow.
  assert (stateless (MDHT_guard (row0 :: rows) (0%R :: ds)) (inr (1%R :: ds)))
    as Hg.
  { intros s. unfold MDHT_guard, bind, py_index. simpl.
    rewrite (proj2 (is_zero_true 0) eq_refl). simpl.
    rewrite (proj2 (forallb_is_zero row0) Hrow). reflexivity. }
  assert (divide_rows_with div (row0 :: rows) (1%R :: ds)
          = row0 :: divide_rows_with div rows ds) as Hq.
  { rewrite divide_rows_with_cons. f_equal.
    rewrite <- (map_id row0) at 2. apply map_ext. intros x.
    rewrite Hdiv by lra. field. }
  split; [exact Hg|]. split; [exact Hq|].
  intros p N rmax m d Fw s zeros r S Hm Hz Hne Hr Hgr Hnum Hden.
  rewrite Hnum, Hden in Hg.
  eexists _, _. split; [|split; [|split; [reflexivity|]]].
  - rewrite Hnum.
    apply (MDHT_init_with_prefix jn jn_zeros linalg_inv div p N rmax m d Fw s
             zeros r S (1%R :: ds) Hm Hz Hne Hr Hgr Hg).
  - rewrite <- Hnum, Hq.
    eapply (has_array_new _ _ (length (heap s)) 2); cbn [self heap];
      [now attr|reflexivity|reflexivity|reflexivity].
  - intros j Hj.
    assert (length row0 = length r) as Lr.
    { unfold MDHT_num in Hnum.
      destruct (map (Rmult (1 / (2 * PI * rmax))) (removelast zeros));
        [discriminate|].
      simpl in Hnum. injection Hnum as -> _. apply length_map. }
    rewrite entry_first_row by lia. f_equal.
    rewrite List.Forall_forall in Hrow. symmetry. apply Hrow.
    apply nth_In. lia.
Qed.

End Guard.

(** The guard at work: order 1 with m = 1, one sample, and a division that
    leaves 1 on a zero divisor.  The grid value is 0, the denominator
    pi * rmax^2 * J_2(0)^2 and the numerator J_1(0) are 0; the matrix stored
    as [self.invM] is the zero of one row. *)
Lemma guard_against_zero_by_zero_witness :
  let num := MDHT_num sample_jn 1 [(1 / 2)%R] [(1 / (2 * PI * 1) * 0)%R] in
  let denom := MDHT_denom sample_jn 1 1 1 [0%R] in
  stateless (MDHT_guard num denom) (inr [1%R])
  /\ divide_rows_with sample_division num [1%R]
     = [[sample_jn 1 (2 * PI * (1 / 2) * (1 / (2 * PI * 1) * 0))%R]]
  /\ exists s3 invM,
       MDHT_init_with sample_jn sample_jn_zeros sample_inv sample_division
         1 1 1 1 (Some (1 / 2)%R) "inverse" (mk_state ∅ [])
       = MDHT_matrix_M_with sample_jn sample_inv sample_division 1 1 1
           "inverse" [(1 / 2)%R] 1 1 num [1%R] 2 s3
       /\ has_array s3 "invM" invM
       /\ entry 1 (data invM) 0 0 = RtoC 0.
Proof.
  cbv zeta.
  destruct (guard_against_zero_by_zero sample_jn sample_jn_zeros sample_inv
              sample_division
              (MDHT_num sample_jn 1 [(1 / 2)%R] [(1 / (2 * PI * 1) * 0)%R])
              (MDHT_denom sample_jn 1 1 1 [0%R])
              [sample_jn 1 (2 * PI * (1 / 2) * (1 / (2 * PI * 1) * 0))%R] []
              (PI * 1 ^ 2 * sample_jn (1 + 1) 0 ^ 2)%R []
              float_division_sample eq_refl eq_refl) as (H1 & H2 & H3).
  - unfold sample_jn. simpl. ring.
  - constructor; [|constructor]. unfold sample_jn. simpl. ring.
  - split; [exact H1|]. split; [exact H2|].
    destruct (H3 1%Z 1%Z 1%R 1%Z (Some (1 / 2)%R) "inverse" (mk_state ∅ [])
                [0%R; 1%R] [(1 / 2)%R] 1%R) as (s3 & invM & E & HA & _ & H0).
    + reflexivity.
    + intros s. reflexivity.
    + discriminate.
    + lra.
    + intros s. unfold MDHT_grid, py_div, bind, arange. simpl.
      destruct (Req_dec_T 1 0) as [E|_]; [lra|].
      unfold ret. do 4 f_equal. field.
    + reflexivity.
    + reflexivity.
    + exists s3, invM. split; [exact E|]. split; [exact HA|].
      apply H0. simpl. lia.
Defined.

(** ** Shapes of the values *)

Lemma mul_val_shape x v sh n :
  shape v = [n] -> shape x = sh ++ [n] ->
  exists y, mul_val x v = inr y /\ shape y = shape x.
Proof.
  intros Hv Hx. unfold mul_val.
  rewrite Hv, (ncols_snoc _ _ _ Hx), Nat.eqb_refl.
  destruct (shape x) eqn:E; [now destruct sh|].
  eexists. split; reflexivity.
Qed.

Lemma fft_gen_shape inverse x sh n z :
  shape x = sh ++ [n] -> (1 <= z)%Z ->
  exists y, fft_gen inverse x (Some z) = inr y /\ shape y = sh ++ [Z.to_nat z].
Proof.
  intros Hx Hz. unfold fft_gen.
  destruct (Z.ltb_spec z 1) as [H|_]; [lia|].
  rewrite Hx, shape_snoc_case, removelast_last.
  eexists. split; reflexivity.
Qed.

Lemma fft_gen_shape_None inverse x sh n :
  shape x = sh ++ [n] -> 1 <= n ->
  exists y, fft_gen inverse x None = inr y /\ shape y = shape x.
Proof.
  intros Hx Hn. unfold fft_gen. rewrite (ncols_snoc _ _ _ Hx).
  destruct (Z.ltb_spec (Z.of_nat n) 1) as [H|_]; [lia|].
  rewrite Hx, shape_snoc_case, removelast_last, Nat2Z.id.
  eexists. split; reflexivity.
Qed.

Lemma split_first_val_shape x sh n :
  shape x = sh ++ [2 * n] ->
  exists y, split_first_val x = inr y /\ shape y = sh ++ [n].
Proof.
  intros Hx. unfold split_first_val. rewrite (ncols_snoc _ _ _ Hx).
  replace ((2 * n) mod 2) with 0
    by (symmetry; rewrite Nat.mul_comm; apply Nat.Div0.mod_mul).
  replace (2 * n / 2) with n
    by (symmetry; rewrite Nat.mul_comm; apply Nat.div_mul; lia).
  rewrite Hx, shape_snoc_case, removelast_last.
  eexists. split; reflexivity.
Qed.

Lemma dot_val_shape x B sh n j :
  shape B = [n; j] -> shape x = sh ++ [n] ->
  exists y, dot_val x B = inr y /\ shape y = sh ++ [j].
Proof.
  intros HB Hx. rewrite (dot_val_rows _ _ _ _ _ Hx HB).
  eexists. split; reflexivity.
Qed.

Lemma MDHT_value_shape M x sh n :
  shape M = [n; n] -> shape x = sh ++ [n] ->
  exists y, MDHT_value M x = inr y /\ shape y = shape x.
Proof.
  intros HM Hx. destruct (dot_val_shape x M sh n n HM Hx) as (y & H1 & H2).
  exists y. split; [exact H1|congruence].
Qed.

Lemma QDHT_value_shape J_inv J T c1 c2 x sh n :
  shape J_inv = [n] -> shape J = [n] -> shape T = [n; n] ->
  shape x = sh ++ [n] ->
  exists y, QDHT_value J_inv J T c1 c2 x = inr y /\ shape y = shape x.
Proof.
  intros H1 H2 H3 Hx. unfold QDHT_value.
  destruct (mul_val_shape x (scalar_mul_val J_inv (RtoC c1)) sh n H1 Hx)
    as (x1 & -> & S1). rewrite Hx in S1. cbn [ebind].
  destruct (dot_val_shape x1 T sh n n H3 S1) as (x2 & -> & S2). cbn [ebind].
  destruct (mul_val_shape x2 (div_scalar_val J (RtoC c2)) sh n H2 S2)
    as (x3 & -> & S3).
  exists x3. split; [reflexivity|congruence].
Qed.

Lemma FHT_value_shape w1 k w2 x sh n :
  shape w1 = [n] -> shape k = [2 * n] -> shape w2 = [n] -> 1 <= n ->
  shape x = sh ++ [n] ->
  exists y, FHT_value w1 k w2 (Z.of_nat n) x = inr y /\ shape y = shape x.
Proof.
  intros H1 Hk H2 Hn Hx. unfold FHT_value, fft_val.
  destruct (mul_val_shape x w1 sh n H1 Hx) as (x1 & -> & S1).
  rewrite Hx in S1. cbn [ebind].
  destruct (fft_gen_shape false x1 sh n (2 * Z.of_nat n) S1 ltac:(lia))
    as (x2 & -> & S2).
  replace (Z.to_nat (2 * Z.of_nat n)) with (2 * n) in S2 by lia. cbn [ebind].
  destruct (mul_val_shape x2 k sh (2 * n) Hk S2) as (x3 & -> & S3).
  rewrite S2 in S3. cbn [ebind].
  destruct (fft_gen_shape_None false x3 sh (2 * n) S3 ltac:(lia))
    as (x4 & -> & S4).
  rewrite S3 in S4. cbn [ebind].
  destruct (split_first_val_shape x4 sh n S4) as (x5 & -> & S5). cbn [ebind].
  destruct (mul_val_shape x5 (rdiv_scalar_val (RtoC 1) w2) sh n H2 S5)
    as (x6 & -> & S6).
  exists x6. split; [reflexivity|congruence].
Qed.

(** ** The FHT: construction and forward pipeline (C5) *)

Section FHTInit.

Variable jn : Z -> R -> R.
Variable fsolve : (R -> R) -> R -> R.

Lemma FHT_init_run p N rmax s f :
  rmax <> 0%R ->
  let alpha := fsolve (FHT_equation N) 1%R in
  let dr := (rmax / exp (alpha * IZR N))%R in
  let r := map (fun n => dr * exp (alpha * n))%R (arange N) in
  let nu := map (fun n => 1 / (4 * rmax) * exp (alpha * n))%R (arange N) in
  let r_nu := map (fun n => dr / (4 * rmax) * exp (alpha * n))%R
                (arange (2 * N)) in
  let j_convol := map (fun x => 2 * PI * alpha * x * jn p (2 * PI * x))%R r_nu in
  ifft_val (nd_of_reals [length j_convol] j_convol) None = inr f ->
  let l := length (heap s) in
  FHT_init jn fsolve p N rmax s
  = (inr tt,
     mk_state
       (<["fft_j_convol" := VRef (l + 2)]>
          (<["nu" := VRef (l + 1)]>
             (<["r" := VRef l]> (<["N" := VInt N]> (self s)))))
       (heap s ++ [Arr (nd_of_reals [length r] r);
                   Arr (nd_of_reals [length nu] nu);
                   Arr f])).
Proof.
  intros Hr alpha dr r nu r_nu j_convol Hf l.
  unfold FHT_init. rewrite bind_setattr, bind_new_array, bind_setattr.
  rewrite (bind_stateless _ _ _ _ (py_div_ok 1 (4 * rmax) ltac:(lra))).
  rewrite bind_new_array, bind_setattr.
  fold alpha dr r_nu j_convol. rewrite Hf.
  cbv [bind lift setattr new_array ret self heap].
  rewrite !length_app. simpl length. rewrite <- !app_assoc. simpl app.
  rewrite <- !Nat.add_assoc. reflexivity.
Qed.

Lemma FHT_ifft_ok (xs : list R) :
  xs <> [] ->
  exists f, ifft_val (nd_of_reals [length xs] xs) None = inr f
            /\ shape f = [length xs].
Proof.
  intros Hx. unfold ifft_val, fft_gen, nd_of_reals, ncols. cbn [shape List.last].
  destruct (Z.ltb_spec (Z.of_nat (length xs)) 1) as [H|H].
  - destruct xs; [congruence|simpl in H; lia].
  - eexists. split; [reflexivity|]. cbn [shape removelast app].
    now rewrite Nat2Z.id.
Qed.

Lemma FHT_ifft_empty : ifft_val (nd_of_reals [0] []) None
                       = inl (ValueError "Invalid number of FFT data points").
Proof. reflexivity. Qed.

(** A construction that returns has a non-zero [rmax] and N at least 1, and
    leaves the three arrays in new cells. *)
Lemma FHT_init_inv p N rmax s s' :
  FHT_init jn fsolve p N rmax s = (inr tt, s') ->
  (1 <= N)%Z /\ rmax <> 0%R
  /\ exists r nu k,
       shape r = [Z.to_nat N] /\ shape nu = [Z.to_nat N]
       /\ shape k = [2 * Z.to_nat N]
       /\ s' = mk_state
                 (<["fft_j_convol" := VRef (length (heap s) + 2)]>
                    (<["nu" := VRef (length (heap s) + 1)]>
                       (<["r" := VRef (length (heap s))]>
                          (<["N" := VInt N]> (self s)))))
                 (heap s ++ [Arr r; Arr nu; Arr k]).
Proof.
  intros H.
  assert (rmax <> 0%R) as Hr.
  { intros ->. unfold FHT_init in H.
    rewrite bind_setattr, bind_new_array, bind_setattr in H.
    unfold bind at 1, py_div in H.
    destruct (Req_dec_T (4 * 0) 0) as [_|E]; [discriminate|lra]. }
  assert (1 <= N)%Z as HN.
  { destruct (Z_le_gt_dec 1 N) as [|Hlt]; [assumption|exfalso].
    unfold FHT_init in H.
    rewrite bind_setattr, bind_new_array, bind_setattr in H.
    rewrite (bind_stateless _ _ _ _ (py_div_ok 1 (4 * rmax) ltac:(lra))) in H.
    rewrite bind_new_array, bind_setattr in H.
    replace (arange (2 * N)) with (@nil R) in H
      by (unfold arange; now replace (Z.to_nat (2 * N)) with 0 by lia).
    cbn [map length] in H. rewrite FHT_ifft_empty in H. discriminate. }
  split; [exact HN|]. split; [exact Hr|].
  destruct (FHT_ifft_ok
              (map (fun x => 2 * PI * fsolve (FHT_equation N) 1 * x
                             * jn p (2 * PI * x))%R
                 (map (fun n => rmax / exp (fsolve (FHT_equation N) 1 * IZR N)
                                / (4 * rmax)
                                * exp (fsolve (FHT_equation N) 1 * n))%R
                    (arange (2 * N)))))
    as (f & Hf & Sf).
  { intros E. apply (f_equal (@length R)) in E.
    rewrite !length_map, length_arange in E. simpl in E. lia. }
  rewrite (FHT_init_run p N rmax s f Hr Hf) in H. injection H as <-.
  eexists _, _, f. split; [|split; [|split; [|reflexivity]]].
  - cbn. now rewrite length_map, length_arange.
  - cbn. now rewrite length_map, length_arange.
  - rewrite Sf, !length_map, length_arange. f_equal. lia.
Qed.

(** C5, as the code has it: on an instance that [FHT_init] constructs, the
    forward transform scales the input by [r], pads it with zeros to 2N
    points and takes its Fourier transform, multiplies by the kernel
    [fft_j_convol], takes the Fourier transform again (the forward one,
    [np.fft.fft], not the inverse), keeps the first half, and scales by
    [1/nu]; on an input with N elements along its last axis this is an array
    of the shape of the input. *)
Theorem FHT_forward_pipeline p N rmax s s' F x :
  FHT_init jn fsolve p N rmax s = (inr tt, s') ->
  deref (heap s') F = Some x ->
  exists r k nu,
    has_array s' "r" r /\ has_array s' "fft_j_convol" k /\ has_array s' "nu" nu
    /\ result_of (FHT_transform F) s' = FHT_value r k nu N x
    /\ forall sh, shape x = sh ++ [Z.to_nat N] ->
                  exists y, FHT_value r k nu N x = inr y /\ shape y = shape x.
Proof.
  intros Hi HF.
  destruct (FHT_init_inv _ _ _ _ _ Hi) as (HN & _ & r & nu & k & Sr & Sn & Sk & ->).
  assert (has_array
            (mk_state
               (<["fft_j_convol" := VRef (length (heap s) + 2)]>
                  (<["nu" := VRef (length (heap s) + 1)]>
                     (<["r" := VRef (length (heap s))]>
                        (<["N" := VInt N]> (self s)))))
               (heap s ++ [Arr r; Arr nu; Arr k])) "r" r) as Hr.
  { eapply (has_array_new _ _ (length (heap s)) 0); cbn [self heap];
      [attr; now rewrite Nat.add_0_r|reflexivity|reflexivity|reflexivity]. }
  assert (has_array
            (mk_state
               (<["fft_j_convol" := VRef (length (heap s) + 2)]>
                  (<["nu" := VRef (length (heap s) + 1)]>
                     (<["r" := VRef (length (heap s))]>
                        (<["N" := VInt N]> (self s)))))
               (heap s ++ [Arr r; Arr nu; Arr k])) "nu" nu) as Hn.
  { eapply (has_array_new _ _ (length (heap s)) 1); cbn [self heap];
      [now attr|reflexivity|reflexivity|reflexivity]. }
  assert (has_array
            (mk_state
               (<["fft_j_convol" := VRef (length (heap s) + 2)]>
                  (<["nu" := VRef (length (heap s) + 1)]>
                     (<["r" := VRef (length (heap s))]>
                        (<["N" := VInt N]> (self s)))))
               (heap s ++ [Arr r; Arr nu; Arr k])) "fft_j_convol" k) as Hk.
  { eapply (has_array_new _ _ (length (heap s)) 2); cbn [self heap];
      [now attr|reflexivity|reflexivity|reflexivity]. }
  exists r, k, nu. refine (conj Hr (conj Hk (conj Hn (conj _ _)))).
  - apply (outcome_result true). unfold FHT_transform.
    apply (outcome_FHT _ r k nu "r" "nu" N F x Hr Hk Hn); [|exact HF].
    cbn [self]. now attr.
  - intros sh Hx.
    destruct (FHT_value_shape r k nu x sh (Z.to_nat N) Sr Sk Sn ltac:(lia) Hx)
      as (y & Hy & Sy).
    rewrite Z2Nat.id in Hy by lia. now exists y.
Qed.

End FHTInit.

(** ** A Fourier transform of two points *)

Lemma Cexp_i_0 t : t = 0%R -> Cexp_i t = C1.
Proof. intros ->. unfold Cexp_i. now rewrite cos_0, sin_0. Qed.

Lemma Cexp_i_PI t : (t = PI \/ t = - PI)%R -> Cexp_i t = (- C1)%C.
Proof.
  intros [->| ->]; unfold Cexp_i; [|rewrite cos_neg, sin_neg];
    rewrite cos_PI, sin_PI; apply C_eq; simpl; ring.
Qed.

Lemma dft2_0 sgn (x : nat -> C) : dft sgn x 2 0 = (x 0 + x 1)%C.
Proof.
  unfold dft. simpl sum_n.
  rewrite !Cexp_i_0 by (unfold Rdiv; ring). ring.
Qed.

Lemma dft2_1 sgn (x : nat -> C) :
  (sgn = 1 \/ sgn = -1)%R -> dft sgn x 2 1 = (x 0 + - x 1)%C.
Proof.
  intros Hs. unfold dft. simpl sum_n.
  rewrite (Cexp_i_0 (sgn * (2 * PI * 1 * 0 / (1 + 1)))) by (unfold Rdiv; ring).
  rewrite Cexp_i_PI; [ring|].
  destruct Hs as [-> | ->]; [left|right]; field.
Qed.

Lemma fft_pad2 u : fft_val (mk_nd [1] [u]) (Some 2%Z) = inr (mk_nd [2] [u; u]).
Proof.
  unfold fft_val, fft_gen. cbn -[dft INR Z.to_nat].
  change (Z.to_nat 2) with 2. cbn -[dft INR].
  rewrite dft2_0, dft2_1 by (now right). cbn. do 3 f_equal; [|f_equal]; ring.
Qed.

Lemma fft2 (inverse : bool) u v :
  fft_gen inverse (mk_nd [2] [u; v]) None
  = inr (mk_nd [2]
           (if inverse
            then [((u + v) / RtoC (INR 2))%C; ((u + - v) / RtoC (INR 2))%C]
            else [(u + v)%C; (u + - v)%C])).
Proof.
  unfold fft_gen. cbn -[dft INR Z.to_nat Z.of_nat].
  change (Z.of_nat 2) with 2%Z. change (Z.to_nat 2) with 2. cbn -[dft INR].
  rewrite !dft2_0. destruct inverse.
  - rewrite dft2_1 by (now left). cbn. reflexivity.
  - rewrite dft2_1 by (now right). cbn. reflexivity.
Qed.

(** With one sample the two pipelines differ by a factor 2. *)
Lemma FHT_one_sample_differs r0 nu0 j0 j1 k :
  ifft_val (nd_of_reals [2] [j0; j1]) None = inr k ->
  r0 <> 0%R -> nu0 <> 0%R -> j0 <> 0%R ->
  FHT_value (nd_of_reals [1] [r0]) k (nd_of_reals [1] [nu0]) 1 (mk_nd [1] [C1])
  <> FHT_value_inverse_fft (nd_of_reals [1] [r0]) k (nd_of_reals [1] [nu0]) 1
       (mk_nd [1] [C1]).
Proof.
  unfold ifft_val, nd_of_reals. cbn [map]. rewrite fft2. intros [= <-] Hr Hn Hj.
  unfold FHT_value, FHT_value_inverse_fft. unfold mul_val at 1 4.
  cbn -[fft_val ifft_val].
  change (2 * 1)%Z with 2%Z. rewrite fft_pad2. cbn -[fft_val ifft_val].
  unfold fft_val, ifft_val. rewrite !fft2. cbn -[INR].
  intros E. injection E as E _.
  set (y := (r0 * j0 / nu0)%R).
  assert (y = y / 2)%R as Hy.
  { unfold y. etransitivity; [|etransitivity; [exact E|]]; simpl; field;
      repeat split; try assumption; lra. }
  assert (y <> 0)%R as Hy0.
  { unfold y, Rdiv. repeat apply Rmult_integral_contrapositive_currified;
      try assumption. now apply Rinv_neq_0_compat. }
  lra.
Qed.

Lemma sample_fsolve_root :
  FHT_equation 1 (sample_fsolve (FHT_equation 1) 1%R) = 0%R.
Proof.
  unfold FHT_equation, sample_fsolve.
  rewrite Rmult_1_r, exp_Ropp, exp_ln by lra. field.
Qed.

Lemma arange_1 : arange 1 = [0%R].
Proof. reflexivity. Qed.

Lemma arange_2 : arange (2 * 1) = [0%R; 1%R].
Proof. reflexivity. Qed.

Lemma ln_2_pos : (0 < ln 2)%R.
Proof. rewrite <- ln_1. apply ln_increasing; lra. Qed.

(** The sample instance: its construction returns, and its arrays. *)
Lemma sample_FHT_arrays :
  exists r0 nu0 j0 j1 k,
    r0 <> 0%R /\ nu0 <> 0%R /\ j0 <> 0%R
    /\ ifft_val (nd_of_reals [2] [j0; j1]) None = inr k
    /\ FHT_init sample_jn sample_fsolve 0 1 1 (mk_state ∅ [Arr (mk_nd [1] [C1])])
       = (inr tt, sample_FHT_state)
    /\ has_array sample_FHT_state "r" (nd_of_reals [1] [r0])
    /\ has_array sample_FHT_state "nu" (nd_of_reals [1] [nu0])
    /\ has_array sample_FHT_state "fft_j_convol" k
    /\ self sample_FHT_state !! "N" = Some (VInt 1)
    /\ deref (heap sample_FHT_state) 0 = Some (mk_nd [1] [C1]).
Proof.
  set (alpha := ln 2).
  set (dr := (1 / exp (alpha * 1))%R).
  exists (dr * exp (alpha * 0))%R, (1 / (4 * 1) * exp (alpha * 0))%R,
    (2 * PI * alpha * (dr / (4 * 1) * exp (alpha * 0))
     * sample_jn 0 (2 * PI * (dr / (4 * 1) * exp (alpha * 0))))%R,
    (2 * PI * alpha * (dr / (4 * 1) * exp (alpha * 1))
     * sample_jn 0 (2 * PI * (dr / (4 * 1) * exp (alpha * 1))))%R.
  pose proof (exp_pos (alpha * 0)) as E0. pose proof (exp_pos (alpha * 1)) as E1.
  pose proof PI_RGT_0 as HPI. pose proof ln_2_pos as HL. fold alpha in HL.
  assert (0 < dr)%R as Hdr by (unfold dr; apply Rdiv_lt_0_compat; lra).
  destruct (FHT_ifft_ok
              [(2 * PI * alpha * (dr / (4 * 1) * exp (alpha * 0))
                * sample_jn 0 (2 * PI * (dr / (4 * 1) * exp (alpha * 0))))%R;
               (2 * PI * alpha * (dr / (4 * 1) * exp (alpha * 1))
                * sample_jn 0 (2 * PI * (dr / (4 * 1) * exp (alpha * 1))))%R]
              ltac:(discriminate)) as (k & Hk & _).
  cbn [length] in Hk. exists k.
  pose proof (FHT_init_run sample_jn sample_fsolve 0 1 1
                (mk_state ∅ [Arr (mk_nd [1] [C1])]) k ltac:(lra)) as Hrun.
  cbv zeta in Hrun. rewrite arange_1, arange_2 in Hrun.
  change (sample_fsolve (FHT_equation 1) 1%R) with alpha in Hrun.
  cbn [map length] in Hrun.
  fold dr in Hrun. specialize (Hrun Hk).
  unfold sample_FHT_state.
  rewrite Hrun. cbn [snd].
  refine (conj _ (conj _ (conj _ (conj Hk (conj eq_refl _))))).
  - apply Rmult_integral_contrapositive_currified; lra.
  - apply Rmult_integral_contrapositive_currified; lra.
  - unfold sample_jn. cbn [Z.eqb]. rewrite Rmult_1_r. clearbody dr alpha.
    apply Rgt_not_eq, Rlt_gt.
    apply Rmult_lt_0_compat;
      [apply Rmult_lt_0_compat; lra|apply Rmult_lt_0_compat; [lra|exact E0]].
  - refine (conj _ (conj _ (conj _ (conj _ _)))).
    + eapply (has_array_new _ _ 1 0 _ _ [Arr (mk_nd [1] [C1])]); cbn [self heap];
        [now attr|reflexivity|reflexivity|reflexivity].
    + eapply (has_array_new _ _ 1 1 _ _ [Arr (mk_nd [1] [C1])]); cbn [self heap];
        [now attr|reflexivity|reflexivity|reflexivity].
    + eapply (has_array_new _ _ 1 2 _ _ [Arr (mk_nd [1] [C1])]); cbn [self heap];
        [now attr|reflexivity|reflexivity|reflexivity].
    + cbn [self]. now attr.
    + reflexivity.
Qed.

(** C5, as worded, fails: on the instance constructed for order 0 with one
    sample, the forward transform of [1.] is twice what the pipeline ending
    with the inverse Fourier transform gives. *)
Lemma FHT_forward_with_inverse_fft_fails : ~ FHT_forward_with_inverse_fft.
Proof.
  intros H.
  destruct sample_FHT_arrays
    as (r0 & nu0 & j0 & j1 & k & Hr0 & Hn0 & Hj0 & Hk & Hrun & Ar & An & Ak & AN & AF).
  destruct (H sample_jn sample_fsolve 0%Z 1%Z 1%R _ _ 0 (mk_nd [1] [C1]) []
              ltac:(lia) ltac:(lra) sample_fsolve_root Hrun AF eq_refl)
    as (r & k' & nu & Hr & Hk' & Hn & E).
  rewrite (has_array_fun _ _ _ _ Hr Ar), (has_array_fun _ _ _ _ Hk' Ak),
    (has_array_fun _ _ _ _ Hn An) in E.
  pose proof (outcome_result _ _ _ _
                (outcome_FHT _ _ _ _ "r" "nu" _ _ _ Ar Ak An AN AF)) as E'.
  fold (FHT_transform 0) in E'. rewrite E in E'.
  now apply (FHT_one_sample_differs r0 nu0 j0 j1 k Hk Hr0 Hn0 Hj0).
Qed.

(** The sample instance: the forward transform of [1.] is the value of the
    pipeline with two forward Fourier transforms, a one-element array. *)
Lemma FHT_forward_pipeline_witness :
  exists r k nu,
    has_array sample_FHT_state "r" r
    /\ has_array sample_FHT_state "fft_j_convol" k
    /\ has_array sample_FHT_state "nu" nu
    /\ result_of (FHT_transform 0) sample_FHT_state
       = FHT_value r k nu 1 (mk_nd [1] [C1])
    /\ exists y, FHT_value r k nu 1 (mk_nd [1] [C1]) = inr y /\ shape y = [1].
Proof.
  destruct sample_FHT_arrays
    as (r0 & nu0 & j0 & j1 & k0 & _ & _ & _ & _ & Hrun & _ & _ & _ & _ & AF).
  destruct (FHT_forward_pipeline sample_jn sample_fsolve 0 1 1 _ _ 0
              (mk_nd [1] [C1]) Hrun AF)
    as (r & k & nu & Hr & Hk & Hn & E & Hsh).
  exists r, k, nu. refine (conj Hr (conj Hk (conj Hn (conj E _)))).
  exact (Hsh [] eq_refl).
Defined.

(** ** The grids are increasing (C7) *)

Lemma lookup_map {A B} (f : A -> B) (l : list A) i :
  map f l !! i = option_map f (l !! i).
Proof. revert i. induction l as [|a l IH]; intros [|i]; simpl; auto. Qed.

Lemma lookup_map_inv {A B} (f : A -> B) (l : list A) i y :
  map f l !! i = Some y -> exists x, l !! i = Some x /\ y = f x.
Proof.
  rewrite lookup_map. destruct (l !! i) as [x|]; [|discriminate].
  intros [= <-]. now exists x.
Qed.

Lemma lookup_In {A} (l : list A) i x : l !! i = Some x -> In x l.
Proof.
  revert i. induction l as [|a l IH]; intros [|i] H; simpl in *;
    try discriminate.
  - injection H as ->. now left.
  - right. eauto.
Qed.

Lemma lookup_removelast {A} (l : list A) i x :
  removelast l !! i = Some x -> l !! i = Some x.
Proof.
  destruct l as [|a l] using rev_ind; [discriminate|].
  rewrite removelast_last. apply lookup_app_l_Some.
Qed.

Lemma strictly_increasing_map f xs :
  (forall x y, x < y -> f x < f y)%R ->
  strictly_increasing xs -> strictly_increasing (map f xs).
Proof.
  intros Hf H i j x y Hi Hj Hij.
  destruct (lookup_map_inv _ _ _ _ Hi) as (x' & Hx & ->).
  destruct (lookup_map_inv _ _ _ _ Hj) as (y' & Hy & ->).
  apply Hf. exact (H i j x' y' Hx Hy Hij).
Qed.

Lemma strictly_increasing_removelast xs :
  strictly_increasing xs -> strictly_increasing (removelast xs).
Proof.
  intros H i j x y Hi Hj. apply H; now apply lookup_removelast.
Qed.

Lemma strictly_increasing_cons_0 xs :
  (forall x, In x xs -> 0 < x)%R ->
  strictly_increasing xs -> strictly_increasing (0%R :: xs).
Proof.
  intros Hp H [|i] [|j] x y Hi Hj Hij; try lia; simpl in Hi, Hj.
  - injection Hi as <-. apply Hp. eapply lookup_In; eauto.
  - apply (H i j); auto. lia.
Qed.

Lemma lookup_arange N i x : arange N !! i = Some x -> x = INR i.
Proof.
  unfold arange. intros H.
  destruct (lookup_map_inv _ _ _ _ H) as (k & Hk & ->).
  apply lookup_seq in Hk. f_equal. lia.
Qed.

Lemma strictly_increasing_arange N : strictly_increasing (arange N).
Proof.
  intros i j x y Hi Hj Hij.
  rewrite (lookup_arange _ _ _ Hi), (lookup_arange _ _ _ Hj).
  now apply lt_INR.
Qed.

Lemma arange_nonneg N x : In x (arange N) -> (0 <= x)%R.
Proof.
  unfold arange. intros H. apply in_map_iff in H.
  destruct H as (i & <- & _). apply pos_INR.
Qed.

(** A root of the equation of the FHT grid is positive. *)
Lemma FHT_root_pos N x : (1 <= N)%Z -> FHT_equation N x = 0%R -> (0 < x)%R.
Proof.
  intros HN H. unfold FHT_equation in H.
  destruct (Rlt_le_dec 0 x) as [|Hx]; [assumption|exfalso].
  pose proof (exp_pos (x * IZR N)) as E1.
  assert (1 <= exp (- x))%R as E2.
  { destruct Hx as [Hx| ->]; [|rewrite Ropp_0, exp_0; lra].
    rewrite <- exp_0. left. apply exp_increasing. lra. }
  nra.
Qed.

Lemma get_attr_result name s a :
  has_array s name a -> result_of (do v <- getattr name; as_ref v) s = inr a.
Proof.
  intros (l & H1 & H2). unfold result_of.
  rewrite (bind_ok _ _ _ _ _ (getattr_ok _ _ _ H1)), as_ref_ok. now rewrite H2.
Qed.

Lemma is_grid_intro N xs :
  length xs = Z.to_nat N -> strictly_increasing xs ->
  (forall x, In x xs -> 0 <= x)%R ->
  is_grid N (nd_of_reals [length xs] xs).
Proof.
  intros HL HS HP. exists xs. rewrite HL.
  refine (conj eq_refl (conj eq_refl (conj HS _))).
  intros x Hx. apply HP. eapply lookup_In; eauto.
Qed.

Lemma In_removelast {A} (l : list A) x : In x (removelast l) -> In x l.
Proof.
  destruct l as [|a l] using rev_ind; [auto|].
  rewrite removelast_last. intros H. apply in_or_app. now left.
Qed.

Lemma In_last {A} (l : list A) d : l <> [] -> In (List.last l d) l.
Proof.
  destruct l as [|a l] using rev_ind; [congruence|]. intros _.
  rewrite last_last. apply in_or_app. right. now left.
Qed.

(** The image of a non-negative increasing sequence under an increasing
    affine function with a non-negative constant is a grid. *)
Lemma affine_grid c b f xs N :
  (0 < c)%R -> (0 <= b)%R -> (forall x, f x = c * x + b)%R ->
  length xs = Z.to_nat N -> strictly_increasing xs ->
  (forall x, In x xs -> 0 <= x)%R ->
  is_grid N (nd_of_reals [length (map f xs)] (map f xs)).
Proof.
  intros Hc Hb Hf HL HS HP. apply is_grid_intro.
  - now rewrite length_map.
  - apply strictly_increasing_map; [|exact HS].
    intros x y Hxy. rewrite !Hf. nra.
  - intros y Hy. apply in_map_iff in Hy. destruct Hy as (x & <- & Hx).
    rewrite Hf. specialize (HP x Hx). nra.
Qed.

Section Grids.

Variable jn : Z -> R -> R.
Variable jn_zeros : Z -> nat -> list R.
Variable fsolve : (R -> R) -> R -> R.
Variable linalg_inv : nat -> list C -> option (list C).
Variable cuda_installed : bool.

(** [jn_zeros(n, nt)] returns the first [nt] positive zeros, in increasing
    order. *)
Hypothesis jn_zeros_length : forall n nt, length (jn_zeros n nt) = nt.
Hypothesis jn_zeros_pos : forall n nt x, In x (jn_zeros n nt) -> (0 < x)%R.
Hypothesis jn_zeros_increasing : forall n nt, strictly_increasing (jn_zeros n nt).

Lemma QDHT_grids p N rmax s s' :
  (0 < rmax)%R ->
  QDHT_init jn jn_zeros p N rmax s = (inr tt, s') ->
  exists r nu, has_array s' "r" r /\ has_array s' "nu" nu
               /\ is_grid N r /\ is_grid N nu.
Proof.
  intros Hr H.
  destruct (QDHT_init_inv jn jn_zeros jn_zeros_length _ _ _ _ _ H) as [HN Hz].
  rewrite (QDHT_init_run jn jn_zeros p N rmax s HN Hz) in H. injection H as <-.
  set (zeros := jn_zeros p (Z.to_nat (N + 1))) in *.
  assert (0 < List.last zeros 0)%R as Hla
    by (apply (jn_zeros_pos p (Z.to_nat (N + 1))), In_last, Hz).
  assert (length (removelast zeros) = Z.to_nat N) as La
    by (rewrite length_removelast; unfold zeros; rewrite jn_zeros_length; lia).
  assert (strictly_increasing (removelast zeros)) as Si
    by apply strictly_increasing_removelast, jn_zeros_increasing.
  assert (forall x, In x (removelast zeros) -> 0 <= x)%R as Po.
  { intros x Hx. left. apply (jn_zeros_pos p (Z.to_nat (N + 1))).
    now apply In_removelast. }
  pose proof PI_RGT_0 as HPI.
  assert (0 < / List.last zeros 0)%R as Hil by now apply Rinv_0_lt_compat.
  eexists _, _. refine (conj _ (conj _ (conj _ _))).
  - eapply (has_array_new _ _ (length (heap s)) 0); cbn [self heap];
      [attr; now rewrite Nat.add_0_r|reflexivity|reflexivity|reflexivity].
  - eapply (has_array_new _ _ (length (heap s)) 1); cbn [self heap];
      [now attr|reflexivity|reflexivity|reflexivity].
  - apply (affine_grid (rmax * / List.last zeros 0)%R 0%R); auto; try lra.
    + now apply Rmult_lt_0_compat.
    + intros x. unfold Rdiv. ring.
  - apply (affine_grid (/ (2 * PI * rmax))%R 0%R); auto; try lra.
    + apply Rinv_0_lt_compat.
      apply Rmult_lt_0_compat; [lra|exact Hr].
    + intros x. field. split; lra.
Qed.

Lemma MDHT_grids p N rmax m Fw s s' :
  (1 <= N)%Z -> (0 < rmax)%R ->
  MDHT_init jn jn_zeros linalg_inv p N rmax m (Some (1 / 2)%R) Fw s = (inr tt, s') ->
  exists r nu, has_array s' "r" r /\ has_array s' "nu" nu
               /\ is_grid N r /\ is_grid N nu.
Proof.
  intros HN Hr H.
  destruct (MDHT_init_grids jn jn_zeros linalg_inv _ _ _ _ _ _ _ _ H)
    as (zeros & r & S & Hz & Hne & _ & Hg & Hnu & Anu & Hrr & Ar).
  pose proof PI_RGT_0 as HPI.
  assert (0 < IZR N)%R as HNr by (apply IZR_lt; lia).
  specialize (Hg (mk_state ∅ [])). unfold MDHT_grid in Hg.
  rewrite (bind_stateless _ _ _ _ (py_div_ok (rmax * 1) (IZR N) ltac:(lra))) in Hg.
  injection Hg as <- _.
  assert (length (removelast zeros) = Z.to_nat N
          /\ strictly_increasing (removelast zeros)
          /\ (forall x, In x (removelast zeros) -> 0 <= x)%R) as (La & Si & Po).
  { destruct (MDHT_zeros_inv _ _ _ _ Hz) as [(_ & _ & ->)|(_ & _ & ->)].
    - refine (conj _ (conj _ _)).
      + rewrite length_removelast. simpl. rewrite jn_zeros_length. lia.
      + apply strictly_increasing_removelast, strictly_increasing_cons_0;
          [apply jn_zeros_pos|apply jn_zeros_increasing].
      + intros x Hx. apply In_removelast in Hx. destruct Hx as [<-|Hx]; [lra|].
        left. eapply jn_zeros_pos; eauto.
    - refine (conj _ (conj _ _)).
      + rewrite length_removelast, jn_zeros_length. lia.
      + apply strictly_increasing_removelast, jn_zeros_increasing.
      + intros x Hx. apply In_removelast in Hx.
        left. eapply jn_zeros_pos; eauto. }
  eexists _, _. refine (conj _ (conj _ (conj _ _))).
  - eexists. split; [exact Hrr|]. apply deref_Arr. exact Ar.
  - eexists. split; [exact Hnu|]. apply deref_Arr. exact Anu.
  - apply (affine_grid (rmax * 1 / IZR N)%R (rmax * 1 / IZR N * (1 / 2))%R).
    + apply Rdiv_lt_0_compat; lra.
    + apply Rmult_le_pos; [left; apply Rdiv_lt_0_compat; lra|lra].
    + intros x. ring.
    + apply length_arange.
    + apply strictly_increasing_arange.
    + apply arange_nonneg.
  - apply (affine_grid (1 / (2 * PI * rmax))%R 0%R); auto; try lra.
    + apply Rdiv_lt_0_compat; [lra|].
      apply Rmult_lt_0_compat; [lra|exact Hr].
    + intros x. ring.
Qed.

Lemma FHT_grids p N rmax s s' :
  (0 < rmax)%R ->
  FHT_equation N (fsolve (FHT_equation N) 1%R) = 0%R ->
  FHT_init jn fsolve p N rmax s = (inr tt, s') ->
  exists r nu, has_array s' "r" r /\ has_array s' "nu" nu
               /\ is_grid N r /\ is_grid N nu.
Proof.
  intros Hr Hroot H.
  destruct (FHT_init_inv jn fsolve _ _ _ _ _ H) as (HN & Hr0 & _).
  pose proof (FHT_root_pos N _ HN Hroot) as Ha.
  set (alpha := fsolve (FHT_equation N) 1%R) in *.
  destruct (FHT_ifft_ok
              (map (fun x => 2 * PI * alpha * x * jn p (2 * PI * x))%R
                 (map (fun n => rmax / exp (alpha * IZR N) / (4 * rmax)
                                * exp (alpha * n))%R
                    (arange (2 * N)))))
    as (f & Hf & _).
  { intros E. apply (f_equal (@length R)) in E.
    rewrite !length_map, length_arange in E. simpl in E. lia. }
  rewrite (FHT_init_run jn fsolve p N rmax s f Hr0 Hf) in H. injection H as <-.
  fold alpha.
  assert (forall c, 0 < c ->
            is_grid N (nd_of_reals
                         [length (map (fun n => c * exp (alpha * n)) (arange N))]
                         (map (fun n => c * exp (alpha * n)) (arange N))))%R
    as Hgrid.
  { intros c Hc. apply is_grid_intro.
    - now rewrite length_map, length_arange.
    - apply strictly_increasing_map; [|apply strictly_increasing_arange].
      intros x y Hxy. apply Rmult_lt_compat_l; [exact Hc|].
      apply exp_increasing. now apply Rmult_lt_compat_l.
    - intros y Hy. apply in_map_iff in Hy. destruct Hy as (x & <- & _).
      left. apply Rmult_lt_0_compat; [exact Hc|apply exp_pos]. }
  eexists _, _. refine (conj _ (conj _ (conj _ _))).
  - eapply (has_array_new _ _ (length (heap s)) 0); cbn [self heap];
      [attr; now rewrite Nat.add_0_r|reflexivity|reflexivity|reflexivity].
  - eapply (has_array_new _ _ (length (heap s)) 1); cbn [self heap];
      [now attr|reflexivity|reflexivity|reflexivity].
  - apply Hgrid. apply Rdiv_lt_0_compat; [exact Hr|apply exp_pos].
  - apply Hgrid. apply Rdiv_lt_0_compat; lra.
Qed.


End Grids.

Lemma sample_jn_zeros_increasing n nt : strictly_increasing (sample_jn_zeros n nt).
Proof.
  unfold sample_jn_zeros. intros i j x y Hi Hj Hij.
  destruct (lookup_map_inv _ _ _ _ Hi) as (a & Ha & ->).
  destruct (lookup_map_inv _ _ _ _ Hj) as (b & Hb & ->).
  apply lookup_seq in Ha, Hb. apply lt_INR. lia.
Qed.


(** ** Instances of every method *)

Section AllInstances.

Variable jn : Z -> R -> R.
Variable jn_zeros : Z -> nat -> list R.
Variable fsolve : (R -> R) -> R -> R.
Variable linalg_inv : nat -> list C -> option (list C).
Variable cuda_installed : bool.

Hypothesis jn_zeros_length : forall n nt, length (jn_zeros n nt) = nt.

(** Line 307: with Fw = 'symmetric', M is a multiple of the transpose of
    [self.invM], in a new array. *)
Lemma MDHT_matrix_M_symmetric p m rmax r la S num denom l s A n k :
  self s !! "invM" = Some (VRef l) ->
  heap s !! l = Some (Arr A) -> shape A = [n; k] ->
  MDHT_matrix_M jn linalg_inv p m rmax "symmetric" r la S num denom l s
  = (inr tt,
     mk_state (<["M" := VRef (length (heap s) + 1)]> (self s))
       (heap s ++ [View l [VSwap 0 1];
                   Arr (scalar_mul_val (swapaxes_val A 0 1)
                          (RtoC ((2 * PI * rmax ^ 2 / S) ^ 2)))])).
Proof.
  intros Hi Hl Hs. unfold MDHT_matrix_M, MDHT_matrix_M_with.
  change (String.eqb "symmetric" "inverse") with false.
  change (String.eqb "symmetric" "symmetric") with true. cbv iota.
  rewrite (bind_stateless _ _ _ _ (stateless_ret tt)).
  rewrite (bind_ok _ _ _ _ _ (getattr_ok _ _ _ Hi)).
  rewrite (bind_ok _ _ _ _ _ (as_ref_ok _ l)).
  assert (swapaxes l 0 1 s
          = (inr (length (heap s)),
             mk_state (self s) (heap s ++ [View l [VSwap 0 1]]))) as Hsw.
  { unfold swapaxes.
    rewrite (bind_ok _ _ _ _ _ (read_ok _ _ _ (deref_Arr _ _ _ Hl))).
    unfold ndim. rewrite Hs. cbn [length].
    change (norm_axis 2 0) with (Some 0). change (norm_axis 2 1) with (Some 1).
    cbv beta iota. now rewrite Hl. }
  rewrite (bind_ok _ _ _ _ _ Hsw).
  assert (deref (heap s ++ [View l [VSwap 0 1]]) (length (heap s))
          = Some (swapaxes_val A 0 1)) as Hd.
  { unfold deref. rewrite list_lookup_middle by reflexivity.
    rewrite lookup_app_l by (eapply lookup_lt_Some; eauto).
    unfold loc in *. now rewrite Hl. }
  unfold np_scalar_mul.
  rewrite (bind_ok _ _ _ _ _ (bind_ok _ _ _ _ _ (read_ok
             (mk_state (self s) (heap s ++ [View l [VSwap 0 1]])) _ _ Hd))).
  cbv [new_array setattr self heap].
  rewrite length_app. simpl length. rewrite <- app_assoc. reflexivity.
Qed.

(** A matrix instance constructed with Fw = 'symmetric'. *)
Lemma MDHT_init_symmetric_instance p N rmax m d s s' :
  (exists meth, self s !! "method" = Some (VStr meth)
                /\ str_in meth MDHT_methods = true) ->
  (exists uc, self s !! "use_cuda" = Some (VBool uc)
              /\ (uc = true -> self s !! "cuda_stream" = Some VBlas)) ->
  MDHT_init jn jn_zeros linalg_inv p N rmax m d "symmetric" s = (inr tt, s') ->
  exists M invM, MDHT_instance s' (Z.to_nat N) M invM.
Proof.
  intros (meth & Hmeth & Hin) (uc & Huc & Hcs) H.
  destruct (MDHT_init_inv _ _ _ _ _ _ _ _ _ _ _ H)
    as (zeros & r & S & denom & Hm & Hz & Hne & Hr & Hg & Hd).
  rewrite (MDHT_init_prefix jn jn_zeros linalg_inv p N rmax m d "symmetric" s
             zeros r S denom Hm Hz Hne Hr Hg Hd) in H.
  set (nu := map (Rmult (1 / (2 * PI * rmax))) (removelast zeros)) in *.
  destruct (shape_first_invM jn p m rmax r nu (removelast zeros) denom
              ltac:(unfold nu; now rewrite length_map) Hd) as [HA _].
  destruct (MDHT_grid_length jn jn_zeros jn_zeros_length _ _ _ _ _ _ _ _ Hz Hg)
    as [Lr La].
  rewrite Lr, La in HA.
  cbv zeta in H.
  erewrite MDHT_matrix_M_symmetric in H;
    [|cbn [self]; now attr
     |cbn [heap]; rewrite lookup_new; reflexivity
     |rewrite Lr; exact HA].
  injection H as <-. cbn [self heap]. rewrite <- app_assoc. simpl app.
  fold (MDHT_attrs p N rmax m d "symmetric" (length (heap s)) (self s)).
  assert (forall name, In name ["method"; "use_cuda"; "cuda_stream"] ->
            forall v,
              (<["M" := v]> (MDHT_attrs p N rmax m d "symmetric"
                               (length (heap s)) (self s))) !! name
              = self s !! name) as Hother.
  { intros name Hn v. rewrite lookup_insert_ne.
    - apply MDHT_attrs_other. intros Hi.
      rewrite !elem_of_cons, elem_of_nil in Hi. simpl in Hn.
      intuition (subst; discriminate).
    - simpl in Hn. intuition (subst; discriminate). }
  eexists _, _. constructor; cbn [self heap].
  - exists meth. split; [|exact Hin]. rewrite Hother; [exact Hmeth|simpl; auto].
  - exists uc. split.
    + rewrite Hother; [exact Huc|simpl; auto].
    + intros Hu. rewrite Hother; [now apply Hcs|simpl; auto].
  - eapply (has_array_new _ _ (length (heap s)) 4); cbn [self heap].
    + rewrite lookup_insert_eq. do 2 f_equal. rewrite length_app. simpl. lia.
    + reflexivity.
    + reflexivity.
    + reflexivity.
  - cbn [scalar_mul_val swapaxes_val shape]. rewrite Lr, HA. reflexivity.
  - eapply (has_array_new _ _ (length (heap s)) 2); cbn [self heap];
      [unfold MDHT_attrs; now attr|reflexivity|reflexivity|reflexivity].
  - rewrite Lr. exact HA.
Qed.

(** An instance that [FHT_init] constructs, once the method is recorded. *)
Lemma FHT_init_instance p N rmax s s' :
  self s !! "method" = Some (VStr "FHT") ->
  FHT_init jn fsolve p N rmax s = (inr tt, s') ->
  exists r nu k, FHT_instance s' (Z.to_nat N) r nu k.
Proof.
  intros Hm H.
  destruct (FHT_init_inv jn fsolve _ _ _ _ _ H)
    as (HN & _ & r & nu & k & Sr & Sn & Sk & ->).
  exists r, nu, k. constructor; cbn [self heap]; try assumption.
  - now attr.
  - attr. f_equal. f_equal. lia.
  - lia.
  - eapply (has_array_new _ _ (length (heap s)) 0); cbn [self heap];
      [attr; now rewrite Nat.add_0_r|reflexivity|reflexivity|reflexivity].
  - eapply (has_array_new _ _ (length (heap s)) 1); cbn [self heap];
      [now attr|reflexivity|reflexivity|reflexivity].
  - eapply (has_array_new _ _ (length (heap s)) 2); cbn [self heap];
      [now attr|reflexivity|reflexivity|reflexivity].
Qed.

(** Every construction that returns, with the forward mode 'inverse' or
    'symmetric', leaves an instance of one of the three kinds. *)
Lemma init_computes p N rmax method use_cuda kw s s' :
  kw_Fw_or_default kw = "inverse" \/ kw_Fw_or_default kw = "symmetric" ->
  __init__ jn jn_zeros fsolve linalg_inv cuda_installed
    p N rmax method use_cuda kw s = (inr tt, s') ->
  exists fwd inv, computes s' (Z.to_nat N) fwd inv.
Proof.
  intros HFw H.
  destruct (init_state_attrs cuda_installed method use_cuda s)
    as (_ & Hm0 & Hu0).
  destruct (available_methods_cases method
              (init_success_method _ _ _ _ _ _ _ _ _ _ _ _ _ H)) as [->|Hm].
  - rewrite init_dispatch_QDHT in H.
    destruct (QDHT_init_instance jn jn_zeros jn_zeros_length _ _ _ _ _ Hm0 H)
      as (J_inv & J & T & numax & HI).
    eexists _, _. eapply computes_QDHT; eauto.
  - rewrite init_dispatch_MDHT in H by exact Hm.
    destruct HFw as [E|E]; rewrite E in H.
    + destruct (MDHT_init_instance jn jn_zeros linalg_inv jn_zeros_length
                  _ _ _ _ _ _ _ (ex_intro _ method (conj Hm0 Hm)) Hu0 H)
        as (M & invM & A & HI & _).
      eexists _, _. eapply computes_MDHT; eauto.
    + destruct (MDHT_init_symmetric_instance
                  _ _ _ _ _ _ _ (ex_intro _ method (conj Hm0 Hm)) Hu0 H)
        as (M & invM & HI).
      eexists _, _. eapply computes_MDHT; eauto.
Qed.

End AllInstances.

(** What an instance computes is linear, and defined on the arrays whose last
    axis has the length of the grids. *)
Lemma computes_linear s n fwd inv :
  computes s n fwd inv -> linear_op fwd /\ linear_op inv.
Proof.
  intros [M invM _ -> ->|J_inv J T rmax numax _ -> ->|r nu k _ -> ->]; split;
    first [apply linear_MDHT_value|apply linear_QDHT_value|apply linear_FHT_value].
Qed.

Lemma computes_shape s n fwd inv x sh :
  computes s n fwd inv -> shape x = sh ++ [n] ->
  (exists y, fwd x = inr y /\ shape y = shape x)
  /\ (exists y, inv x = inr y /\ shape y = shape x).
Proof.
  intros [M invM [] -> ->|J_inv J T rmax numax [] -> ->|r nu k [] -> ->] Hx; split;
    first [ eapply MDHT_value_shape; eassumption
          | eapply QDHT_value_shape; eassumption
          | eapply FHT_value_shape; eassumption ].
Qed.

(** ** Linearity and frame of the calls (C8, C9) *)

Lemma outcome_pure_read c s x n (f : ndarray -> exn + ndarray) :
  outcome true c s (f x) ->
  (forall sh, shape x = sh ++ [n] -> exists y, f x = inr y /\ shape y = shape x) ->
  pure_read c s x n.
Proof.
  intros Ho Hs. unfold outcome in Ho. destruct (f x) as [e|v] eqn:E.
  - destruct Ho as (s' & H1 & H2). exists (inl e), s'.
    refine (conj H1 (conj H2 _)). intros sh Hx.
    destruct (Hs sh Hx) as (y & Hy & _). discriminate.
  - destruct Ho as (l & s' & H1 & H2 & H3 & H4). exists (inr l), s'.
    refine (conj H1 (conj H2 _)). intros sh Hx.
    destruct (Hs sh Hx) as (y & Hy & Sy). injection Hy as <-.
    now exists l, v.
Qed.

Section Calls.

Variable jn : Z -> R -> R.
Variable jn_zeros : Z -> nat -> list R.
Variable fsolve : (R -> R) -> R -> R.
Variable linalg_inv : nat -> list C -> option (list C).
Variable cuda_installed : bool.
Variable cuda_dot : ndarray -> ndarray -> exn + ndarray.

Hypothesis jn_zeros_length : forall n nt, length (jn_zeros n nt) = nt.
Hypothesis cuda_dot_spec : forall a b, cuda_dot a b = dot_val a b.

Lemma constructed_computes p N rmax s0 s :
  constructed jn jn_zeros fsolve linalg_inv cuda_installed p N rmax s0 s ->
  exists fwd inv, computes s (Z.to_nat N) fwd inv.
Proof.
  intros [(method & use_cuda & kw & HFw & H)|(Hm & H)].
  - eapply init_computes; eauto.
  - destruct (FHT_init_instance jn fsolve _ _ _ _ _ Hm H) as (r & nu & k & HI).
    eexists _, _. eapply computes_FHT; eauto.
Qed.

(** C8: on a constructed instance of any method, [transform] and
    [inverse_transform] are linear: for arrays F1 and F2 of one shape whose
    last axis has N elements and complex scalars a and b, the call on
    a F1 + b F2 returns a times what it returns on F1 plus b times what it
    returns on F2, in exact arithmetic. *)
Theorem transform_linear p N rmax s0 s s1 F1 F2 F x1 x2 a b sh :
  constructed jn jn_zeros fsolve linalg_inv cuda_installed p N rmax s0 s ->
  extends s s1 ->
  deref (heap s1) F1 = Some x1 -> deref (heap s1) F2 = Some x2 ->
  deref (heap s1) F = Some (lin_comb a b x1 x2) ->
  shape x1 = sh ++ [Z.to_nat N] -> same_shape x1 x2 ->
  (exists y1 y2,
      result_of (transform cuda_dot F1) s1 = inr y1
      /\ result_of (transform cuda_dot F2) s1 = inr y2
      /\ result_of (transform cuda_dot F) s1 = inr (lin_comb a b y1 y2))
  /\ (exists z1 z2,
         result_of (inverse_transform cuda_dot F1) s1 = inr z1
         /\ result_of (inverse_transform cuda_dot F2) s1 = inr z2
         /\ result_of (inverse_transform cuda_dot F) s1 = inr (lin_comb a b z1 z2)).
Proof.
  intros Hc E H1 H2 HF Hx1 Hss.
  destruct (constructed_computes _ _ _ _ _ Hc) as (fwd & inv & Hcomp).
  apply (computes_extends _ _ _ _ _ E) in Hcomp.
  destruct (computes_linear _ _ _ _ Hcomp) as [Lf Li].
  assert (shape x2 = sh ++ [Z.to_nat N]) as Hx2 by (rewrite <- (proj1 Hss); exact Hx1).
  destruct (computes_shape _ _ _ _ x1 sh Hcomp Hx1) as [(y1 & Y1 & _) (z1 & Z1 & _)].
  destruct (computes_shape _ _ _ _ x2 sh Hcomp Hx2) as [(y2 & Y2 & _) (z2 & Z2 & _)].
  destruct (transform_outcome cuda_dot cuda_dot_spec _ _ _ _ F1 x1 Hcomp H1)
    as [O1 P1].
  destruct (transform_outcome cuda_dot cuda_dot_spec _ _ _ _ F2 x2 Hcomp H2)
    as [O2 P2].
  destruct (transform_outcome cuda_dot cuda_dot_spec _ _ _ _ F _ Hcomp HF)
    as [O P].
  apply outcome_result in O1, O2, O, P1, P2, P.
  split.
  - exists y1, y2. rewrite O1, O2, O.
    refine (conj Y1 (conj Y2 _)). exact (proj2 (Lf a b x1 x2 y1 y2 Hss Y1 Y2)).
  - exists z1, z2. rewrite P1, P2, P.
    refine (conj Z1 (conj Z2 _)). exact (proj2 (Li a b x1 x2 z1 z2 Hss Z1 Z2)).
Qed.

(** C9: on a constructed instance of any method, a call of [transform] or
    of [inverse_transform] only reads: it leaves every attribute of the
    instance and every array that exists, the arrays of the instance and the
    input among them, as they were, and on an input whose last axis has N
    elements it returns a newly allocated array of the shape of the input. *)
Theorem transform_reads_only p N rmax s0 s s1 F x :
  constructed jn jn_zeros fsolve linalg_inv cuda_installed p N rmax s0 s ->
  extends s s1 ->
  deref (heap s1) F = Some x ->
  pure_read (transform cuda_dot F) s1 x (Z.to_nat N)
  /\ pure_read (inverse_transform cuda_dot F) s1 x (Z.to_nat N).
Proof.
  intros Hc E HF.
  destruct (constructed_computes _ _ _ _ _ Hc) as (fwd & inv & Hcomp).
  apply (computes_extends _ _ _ _ _ E) in Hcomp.
  destruct (transform_outcome cuda_dot cuda_dot_spec _ _ _ _ F x Hcomp HF)
    as [O P].
  split.
  - apply (outcome_pure_read _ _ _ _ fwd O).
    intros sh Hx. exact (proj1 (computes_shape _ _ _ _ x sh Hcomp Hx)).
  - apply (outcome_pure_read _ _ _ _ inv P).
    intros sh Hx. exact (proj2 (computes_shape _ _ _ _ x sh Hcomp Hx)).
Qed.

End Calls.

(** The QDHT instance of order 0 with one sample and rmax = 1, constructed
    beside three arrays: [1.], [1.] and their sum. *)
Lemma sample_QDHT_run :
  exists s,
    __init__ sample_jn sample_jn_zeros sample_fsolve sample_inv false
      0 1 1 "QDHT" false no_kw
      (mk_state ∅ [Arr (mk_nd [1] [C1]); Arr (mk_nd [1] [C1]);
                   Arr (lin_comb C1 C1 (mk_nd [1] [C1]) (mk_nd [1] [C1]))])
    = (inr tt, s)
    /\ deref (heap s) 0 = Some (mk_nd [1] [C1])
    /\ deref (heap s) 1 = Some (mk_nd [1] [C1])
    /\ deref (heap s) 2 = Some (lin_comb C1 C1 (mk_nd [1] [C1]) (mk_nd [1] [C1])).
Proof.
  assert (sample_jn_zeros 0 (Z.to_nat (1 + 1)) <> []) as Hz.
  { intros E. apply (f_equal (@length R)) in E.
    rewrite sample_jn_zeros_length in E. simpl in E. lia. }
  pose proof (QDHT_init_run sample_jn sample_jn_zeros 0 1 1
                (init_state false "QDHT" false
                   (mk_state ∅ [Arr (mk_nd [1] [C1]); Arr (mk_nd [1] [C1]);
                                Arr (lin_comb C1 C1 (mk_nd [1] [C1])
                                       (mk_nd [1] [C1]))]))
                ltac:(lia) Hz) as Hrun.
  cbv zeta in Hrun.
  rewrite <- (init_dispatch_QDHT sample_jn sample_jn_zeros sample_fsolve
                sample_inv false 0 1 1 false no_kw) in Hrun.
  eexists. split; [exact Hrun|]. repeat split.
Qed.

(** On the sample QDHT instance, the transforms of [1.] + [1.]. *)
Lemma transform_linear_witness :
  exists s y1 y2 z1 z2,
    __init__ sample_jn sample_jn_zeros sample_fsolve sample_inv false
      0 1 1 "QDHT" false no_kw
      (mk_state ∅ [Arr (mk_nd [1] [C1]); Arr (mk_nd [1] [C1]);
                   Arr (lin_comb C1 C1 (mk_nd [1] [C1]) (mk_nd [1] [C1]))])
    = (inr tt, s)
    /\ result_of (transform dot_val 0) s = inr y1
    /\ result_of (transform dot_val 1) s = inr y2
    /\ result_of (transform dot_val 2) s = inr (lin_comb C1 C1 y1 y2)
    /\ result_of (inverse_transform dot_val 0) s = inr z1
    /\ result_of (inverse_transform dot_val 1) s = inr z2
    /\ result_of (inverse_transform dot_val 2) s = inr (lin_comb C1 C1 z1 z2).
Proof.
  destruct sample_QDHT_run as (s & Hrun & D0 & D1 & D2).
  destruct (transform_linear sample_jn sample_jn_zeros sample_fsolve sample_inv
              false dot_val sample_jn_zeros_length (fun _ _ => eq_refl)
              0 1 1 _ s s 0 1 2 _ _ C1 C1 []
              (or_introl (ex_intro _ "QDHT" (ex_intro _ false (ex_intro _ no_kw
                            (conj (or_introl eq_refl) Hrun)))))
              (extends_refl s) D0 D1 D2 eq_refl (conj eq_refl eq_refl))
    as [(y1 & y2 & A1 & A2 & A3) (z1 & z2 & B1 & B2 & B3)].
  exists s, y1, y2, z1, z2. auto 10.
Defined.

(** On the sample QDHT instance, the two calls on [1.] only read and return
    a new array of one element. *)
Lemma transform_reads_only_witness :
  exists s,
    __init__ sample_jn sample_jn_zeros sample_fsolve sample_inv false
      0 1 1 "QDHT" false no_kw
      (mk_state ∅ [Arr (mk_nd [1] [C1]); Arr (mk_nd [1] [C1]);
                   Arr (lin_comb C1 C1 (mk_nd [1] [C1]) (mk_nd [1] [C1]))])
    = (inr tt, s)
    /\ pure_read (transform dot_val 0) s (mk_nd [1] [C1]) 1
    /\ pure_read (inverse_transform dot_val 0) s (mk_nd [1] [C1]) 1.
Proof.
  destruct sample_QDHT_run as (s & Hrun & D0 & _).
  exists s. split; [exact Hrun|].
  exact (transform_reads_only sample_jn sample_jn_zeros sample_fsolve sample_inv
           false dot_val sample_jn_zeros_length (fun _ _ => eq_refl)
           0 1 1 _ s s 0 _
           (or_introl (ex_intro _ "QDHT" (ex_intro _ false (ex_intro _ no_kw
                         (conj (or_introl eq_refl) Hrun)))))
           (extends_refl s) D0).
Defined.

(** ** Row-major indices *)

Lemma length_unravel s t : length (unravel s t) = length s.
Proof. revert t. induction s as [|d s IH]; intros t; simpl; auto. Qed.

Lemma valid_unravel s t : t < size_of s -> valid_index s (unravel s t).
Proof.
  revert t. induction s as [|d s IH]; intros t Ht; simpl; [constructor|].
  change (size_of (d :: s)) with (d * size_of s) in Ht.
  assert (size_of s <> 0) as Hm by (intros E; rewrite E in Ht; lia).
  constructor.
  - apply Nat.Div0.div_lt_upper_bound. lia.
  - apply IH. now apply Nat.mod_upper_bound.
Qed.

Lemma ravel_unravel s t : t < size_of s -> ravel s (unravel s t) = t.
Proof.
  revert t. induction s as [|d s IH]; intros t Ht; simpl.
  - simpl in Ht. lia.
  - change (size_of (d :: s)) with (d * size_of s) in Ht.
    assert (size_of s <> 0) as Hm by (intros E; rewrite E in Ht; lia).
    rewrite IH by now apply Nat.mod_upper_bound.
    pose proof (Nat.div_mod_eq t (size_of s)). lia.
Qed.

Lemma ravel_lt s idx : valid_index s idx -> ravel s idx < size_of s.
Proof.
  induction 1 as [|d j s idx Hj _ IH]; simpl; [lia|].
  change (fold_right Nat.mul 1 s) with (size_of s). nia.
Qed.

Lemma unravel_ravel s idx : valid_index s idx -> unravel s (ravel s idx) = idx.
Proof.
  induction 1 as [|d j s idx Hj Hv IH]; simpl; [reflexivity|].
  pose proof (ravel_lt _ _ Hv) as Hr.
  destruct (div_mod_row j (size_of s) (ravel s idx) Hr) as [E1 E2].
  now rewrite E1, E2, IH.
Qed.

Lemma nth_insert_nat (l : list nat) i k x :
  i < length l ->
  nth k (<[i := x]> l) 0 = if k =? i then x else nth k l 0.
Proof.
  revert i k. induction l as [|a l IH]; intros [|i] [|k] Hi; simpl in *;
    try lia; auto.
  apply IH. lia.
Qed.

Lemma nth_swap_list l i j k :
  i < length l -> j < length l ->
  nth k (swap_list l i j) 0
  = if k =? i then nth j l 0 else if k =? j then nth i l 0 else nth k l 0.
Proof.
  intros Hi Hj. unfold swap_list.
  rewrite nth_insert_nat by now rewrite length_insert.
  destruct (k =? i); [reflexivity|]. now apply nth_insert_nat.
Qed.

Lemma length_swap_list l i j : length (swap_list l i j) = length l.
Proof. unfold swap_list. now rewrite !length_insert. Qed.

Lemma swap_list_involutive l i j :
  i < length l -> j < length l -> swap_list (swap_list l i j) i j = l.
Proof.
  intros Hi Hj. apply (nth_ext _ _ 0 0).
  - now rewrite !length_swap_list.
  - intros k _. rewrite nth_swap_list by now rewrite length_swap_list.
    rewrite !nth_swap_list by assumption. rewrite !Nat.eqb_refl.
    destruct (Nat.eqb_spec k i) as [->|Hki].
    + destruct (Nat.eqb_spec j i) as [->|]; reflexivity.
    + destruct (Nat.eqb_spec k j) as [->|Hkj]; [|reflexivity].
      destruct (Nat.eqb_spec i j); reflexivity.
Qed.

Lemma valid_index_nth s idx k :
  valid_index s idx -> k < length s -> nth k idx 0 < nth k s 0.
Proof.
  intros H. revert k. induction H as [|d j s idx Hj _ IH]; intros [|k] Hk;
    simpl in *; try lia. apply IH. lia.
Qed.

Lemma valid_index_length s idx : valid_index s idx -> length idx = length s.
Proof. intros H. symmetry. exact (Forall2_length _ _ _ H). Qed.

Lemma valid_index_intro s idx :
  length idx = length s -> (forall k, k < length s -> nth k idx 0 < nth k s 0) ->
  valid_index s idx.
Proof.
  revert idx. induction s as [|d s IH]; intros [|j idx] HL H; simpl in HL;
    try discriminate; constructor.
  - apply (H 0). simpl. lia.
  - apply IH; [lia|]. intros k Hk. apply (H (S k)). simpl. lia.
Qed.

Lemma valid_swap s idx i j :
  valid_index s idx -> i < length s -> j < length s ->
  valid_index (swap_list s i j) (swap_list idx i j).
Proof.
  intros H Hi Hj. pose proof (valid_index_length _ _ H) as HL.
  apply valid_index_intro.
  - now rewrite !length_swap_list.
  - intros k Hk. rewrite length_swap_list in Hk.
    rewrite !nth_swap_list by lia.
    destruct (k =? i); [|destruct (k =? j)]; now apply valid_index_nth.
Qed.

Lemma ravel_snoc sh n ih x :
  length ih = length sh -> ravel (sh ++ [n]) (ih ++ [x]) = ravel sh ih * n + x.
Proof.
  revert ih. induction sh as [|d sh IH]; intros [|j ih] HL; simpl in HL;
    try discriminate; simpl; [lia|].
  rewrite IH by lia. change (fold_right Nat.mul 1) with size_of.
  rewrite size_of_snoc. lia.
Qed.

(** The last component of a multi-index is the index along the last axis. *)
Lemma ravel_mod_last s idx :
  s <> [] -> valid_index s idx ->
  ravel s idx mod List.last s 1 = nth (length s - 1) idx 0.
Proof.
  intros Hs H. pose proof (valid_index_length _ _ H) as HL.
  destruct s as [|d s0] using rev_ind; [congruence|]. clear IHs0.
  destruct idx as [|x ih] using rev_ind;
    [rewrite length_app in HL; simpl in HL; lia|]. clear IHih.
  rewrite !length_app in HL. simpl in HL.
  rewrite ravel_snoc by lia. rewrite last_last.
  rewrite length_app. simpl.
  replace (length s0 + 1 - 1) with (length ih) by lia.
  rewrite app_nth2 by lia. rewrite Nat.sub_diag. simpl.
  assert (x < d) as Hx.
  { pose proof (valid_index_nth _ _ (length s0) H) as K.
    rewrite length_app in K. simpl in K. specialize (K ltac:(lia)).
    rewrite app_nth2 in K by lia. rewrite app_nth2 in K by lia.
    replace (length s0 - length ih) with 0 in K by lia.
    rewrite Nat.sub_diag in K. exact K. }
  rewrite Nat.add_comm, Nat.Div0.mod_add. now apply Nat.mod_small.
Qed.

Lemma last_nth (l : list nat) d : l <> [] -> List.last l d = nth (length l - 1) l 0.
Proof.
  intros Hl. destruct l as [|x l0] using rev_ind; [congruence|].
  rewrite last_last, length_app. simpl.
  rewrite app_nth2 by lia. replace (length l0 + 1 - 1 - length l0) with 0 by lia.
  reflexivity.
Qed.

Lemma norm_axis_last nd : 1 <= nd -> norm_axis nd (-1) = Some (nd - 1).
Proof.
  intros H. unfold norm_axis. change (-1 <? 0)%Z with true. cbv iota.
  destruct (Z.leb_spec 0 (-1 + Z.of_nat nd)); [|lia].
  destruct (Z.ltb_spec (-1 + Z.of_nat nd) (Z.of_nat nd)); [|lia].
  simpl. f_equal. lia.
Qed.

Lemma norm_axis_lt nd axis k : norm_axis nd axis = Some k -> k < nd.
Proof.
  unfold norm_axis.
  set (ax := if (axis <? 0)%Z then (axis + Z.of_nat nd)%Z else axis).
  destruct (Z.leb_spec 0 ax); [|discriminate].
  destruct (Z.ltb_spec ax (Z.of_nat nd)); [|discriminate].
  simpl. intros [= <-]. lia.
Qed.

(** ** The value of array_multiply *)

(** Swapping the last axis with axis [k], multiplying along the last axis and
    swapping back multiplies along axis [k]. *)
Lemma mul_along_axis a v k n :
  1 <= ndim a -> k < ndim a -> shape v = [n] -> nth k (shape a) 0 = n ->
  exists r,
    ebind (mul_val (swapaxes_val a (ndim a - 1) k) v)
      (fun r => inr (swapaxes_val r (ndim a - 1) k)) = inr r
    /\ shape r = shape a
    /\ forall t, t < size_of (shape a) ->
         get (data r) t
         = (get (data a) t * get (data v) (nth k (unravel (shape a) t) 0))%C.
Proof.
  intros Hnd Hk Hv Hn. unfold ndim in *.
  set (s := shape a) in *. set (L := length s - 1) in *.
  assert (L < length s) as HL by (unfold L; lia).
  set (s1 := swap_list s L k).
  assert (s1 <> []) as Hs1.
  { intros E. apply (f_equal (@length nat)) in E.
    unfold s1 in E. rewrite length_swap_list in E. simpl in E. lia. }
  assert (List.last s1 1 = n) as Hlast.
  { rewrite (last_nth _ _ Hs1). unfold s1. rewrite length_swap_list.
    fold L. rewrite nth_swap_list by assumption. now rewrite Nat.eqb_refl. }
  assert (size_of (removelast s1) * n = size_of s1) as Hsz.
  { rewrite <- Hlast, <- size_of_snoc, <- app_removelast_last by exact Hs1.
    reflexivity. }
  unfold mul_val. rewrite Hv.
  change (shape (swapaxes_val a L k)) with s1.
  unfold ncols, nrows. change (shape (swapaxes_val a L k)) with s1.
  rewrite Hlast, Nat.eqb_refl, Hsz.
  destruct s1 as [|d0 s1'] eqn:Es1; [congruence|]. rewrite <- Es1 in *.
  cbn [ebind]. eexists. split; [reflexivity|]. split.
  - cbn [swapaxes_val shape]. unfold s1. now apply swap_list_involutive.
  - intros t Ht. cbn [swapaxes_val shape data].
    assert (swap_list s1 L k = s) as Hback
      by (unfold s1; now apply swap_list_involutive).
    rewrite Hback. rewrite get_tabulate by exact Ht.
    pose proof (valid_unravel s t Ht) as Vt.
    pose proof (valid_swap s _ L k Vt HL Hk) as Vs. fold s1 in Vs.
    pose proof (ravel_lt _ _ Vs) as Lt.
    rewrite get_tabulate by exact Lt.
    rewrite get_tabulate by exact Lt.
    change (shape a) with s. fold s1.
    rewrite (unravel_ravel _ _ Vs).
    rewrite swap_list_involutive by (rewrite length_unravel; assumption).
    rewrite (ravel_unravel _ _ Ht).
    f_equal. f_equal.
    rewrite <- Hlast, (ravel_mod_last _ _ Hs1 Vs).
    unfold s1 at 1. rewrite length_swap_list. fold L.
    rewrite nth_swap_list by (rewrite length_unravel; assumption).
    now rewrite Nat.eqb_refl.
Qed.

(** Along the last axis, the index into [v] is the last component. *)
Lemma unravel_last s t :
  s <> [] -> t < size_of s ->
  nth (length s - 1) (unravel s t) 0 = t mod List.last s 1.
Proof.
  intros Hs Ht. rewrite <- (ravel_unravel s t Ht) at 2.
  symmetry. apply ravel_mod_last; [exact Hs|now apply valid_unravel].
Qed.

(** [swapaxes] returns a view of its operand, or of the array its operand is
    a view of. *)
Lemma outcome_swapaxes s a av ax1 ax2 :
  deref (heap s) a = Some av ->
  outcome false (swapaxes a ax1 ax2) s (swapaxes_res av ax1 ax2).
Proof.
  intros Ha. unfold swapaxes, swapaxes_res.
  apply (outcome_step _ _ _ _ _ _ (read_ok _ _ _ Ha)).
  destruct (norm_axis (ndim av) ax1) as [i|];
    [destruct (norm_axis (ndim av) ax2) as [j|]|];
    try (exists s; split; [reflexivity|apply extends_refl]).
  unfold outcome. unfold deref in Ha.
  destruct (heap s !! a) as [[a0|b ops]|] eqn:Ea; [| |discriminate].
  - injection Ha as ->. unfold new_view. eexists _, _.
    refine (conj eq_refl (conj (extends_alloc _ _) (conj (le_n _) _))).
    simpl. unfold deref. rewrite list_lookup_middle by reflexivity.
    now rewrite (lookup_app_l_Some _ _ _ _ Ea).
  - destruct (heap s !! b) as [[a0|]|] eqn:Eb; try discriminate.
    destruct (apply_views ops a0) as [|a1] eqn:Ev; [discriminate|].
    injection Ha as ->. unfold new_view. eexists _, _.
    refine (conj eq_refl (conj (extends_alloc _ _) (conj (le_n _) _))).
    simpl. unfold deref. rewrite list_lookup_middle by reflexivity.
    rewrite (lookup_app_l_Some _ _ _ _ Eb), apply_views_app, Ev. reflexivity.
Qed.

(** [array_multiply] for any axis: what it returns denotes
    [array_multiply_val], and nothing that existed changes. *)
Lemma outcome_array_multiply_axis s a v av vv axis :
  deref (heap s) a = Some av -> deref (heap s) v = Some vv ->
  outcome false (array_multiply a v axis) s (array_multiply_val av vv axis).
Proof.
  intros Ha Hv. unfold array_multiply, array_multiply_val.
  apply (outcome_step _ _ _ _ _ _ (read_ok _ _ _ Ha)).
  destruct ((1 <? ndim av) && negb (axis =? -1)%Z).
  - apply outcome_bind; [now apply outcome_swapaxes|].
    intros l1 s1 x1 _ E1 D1 _.
    apply outcome_bind;
      [apply outcome_weaken, outcome_np_mul;
       [exact D1|exact (deref_extends _ _ _ _ E1 Hv)]|].
    intros l2 s2 x2 _ E2 D2 _.
    now apply outcome_bind_ret, outcome_swapaxes.
  - change (outcome false (do r <- np_mul a v; ret r) s (mul_val av vv)).
    now apply outcome_bind_ret, outcome_weaken, outcome_np_mul.
Qed.

(** X1: [array_multiply(a, v, axis)] multiplies along the axis it is given.
    For an array [a] of one dimension or more, an axis that exists (counted
    from the end when negative) and a vector [v] as long as that axis, it
    returns an array of the shape of [a] whose element at each multi-index is
    the element of [a] there times the element of [v] at the component of
    the multi-index along the axis; [a], [v] and everything else that
    existed are unchanged. *)
Theorem array_multiply_along_axis s a v av vv axis k n :
  deref (heap s) a = Some av -> deref (heap s) v = Some vv ->
  shape vv = [n] -> 1 <= ndim av ->
  norm_axis (ndim av) axis = Some k -> nth k (shape av) 0 = n ->
  exists l s' r,
    array_multiply a v axis s = (inr l, s')
    /\ extends s s' /\ length (heap s) <= l
    /\ deref (heap s') l = Some r
    /\ shape r = shape av
    /\ forall t, t < size_of (shape av) ->
         get (data r) t
         = (get (data av) t * get (data vv) (nth k (unravel (shape av) t) 0))%C.
Proof.
  intros Ha Hv Sv Hnd Hax Hn.
  pose proof (outcome_array_multiply_axis s a v av vv axis Ha Hv) as O.
  pose proof (norm_axis_lt _ _ _ Hax) as Hk.
  assert (exists r, array_multiply_val av vv axis = inr r
                    /\ shape r = shape av
                    /\ forall t, t < size_of (shape av) ->
                         get (data r) t
                         = (get (data av) t
                            * get (data vv) (nth k (unravel (shape av) t) 0))%C)
    as (r & Er & Sr & Dr).
  { unfold array_multiply_val.
    destruct ((1 <? ndim av) && negb (axis =? -1)%Z) eqn:Hmoved.
    - unfold swapaxes_res at 1. rewrite (norm_axis_last _ Hnd), Hax. cbn [ebind].
      destruct (mul_along_axis av vv k n Hnd Hk Sv Hn) as (r & Er & Sr & Dr).
      destruct (mul_val (swapaxes_val av (ndim av - 1) k) vv) as [e|r2] eqn:E2;
        [discriminate|].
      cbn [ebind] in Er |- *. unfold swapaxes_res.
      assert (ndim r2 = ndim av) as Hnd2.
      { unfold mul_val in E2. rewrite Sv in E2.
        cbn [swapaxes_val shape] in E2.
        destruct (swap_list (shape av) (ndim av - 1) k) as [|d0 s1] eqn:Es.
        - apply (f_equal (@length nat)) in Es.
          rewrite length_swap_list in Es. unfold ndim in Hnd. simpl in Es. lia.
        - assert (length (d0 :: s1) = ndim av) as HL
            by (rewrite <- Es, length_swap_list; reflexivity).
          assert (ncols (swapaxes_val av (ndim av - 1) k) = n) as Hc.
          { unfold ncols. cbn [swapaxes_val shape]. rewrite Es.
            rewrite last_nth by discriminate. rewrite HL, <- Es.
            rewrite nth_swap_list by (unfold ndim in *; lia).
            now rewrite Nat.eqb_refl. }
          rewrite Hc, Nat.eqb_refl in E2. injection E2 as <-.
          unfold ndim at 1. cbn [shape]. exact HL. }
      rewrite Hnd2, (norm_axis_last _ Hnd), Hax.
      exists r. injection Er as <-. auto.
    - assert (k = ndim av - 1) as ->.
      { apply andb_false_iff in Hmoved. destruct Hmoved as [H1|H1].
        - apply Nat.ltb_ge in H1. lia.
        - apply negb_false_iff, Z.eqb_eq in H1. subst axis.
          rewrite (norm_axis_last _ Hnd) in Hax. now injection Hax as <-. }
      assert (shape av <> []) as Hne
        by (intros E; unfold ndim in Hnd; rewrite E in Hnd; simpl in Hnd; lia).
      assert (ncols av = n) as Hc.
      { unfold ncols. rewrite (last_nth _ _ Hne). exact Hn. }
      unfold mul_val. rewrite Sv, Hc, Nat.eqb_refl.
      destruct (shape av) as [|d0 s1] eqn:Es; [congruence|]. rewrite <- Es in *.
      eexists. split; [reflexivity|]. split; [reflexivity|].
      intros t Ht. cbn [data].
      assert (nrows av * n = size_of (shape av)) as Hsz.
      { unfold nrows. rewrite <- Hc. unfold ncols.
        rewrite <- size_of_snoc, <- app_removelast_last by exact Hne.
        reflexivity. }
      rewrite Hsz, get_tabulate by exact Ht.
      unfold ndim. rewrite (unravel_last _ _ Hne Ht).
      fold (ncols av). now rewrite Hc. }
  rewrite Er in O. destruct O as (l & s' & H1 & H2 & H3 & H4).
  exists l, s', r. auto 10.
Qed.

(** A 2 by 2 array multiplied along its first axis. *)
Lemma array_multiply_along_axis_witness :
  exists l s' r,
    array_multiply 0 1 0
      (mk_state ∅ [Arr (mk_nd [2; 2] [C1; C0; C0; C1]); Arr (mk_nd [2] [C1; C0])])
    = (inr l, s')
    /\ extends
         (mk_state ∅ [Arr (mk_nd [2; 2] [C1; C0; C0; C1]); Arr (mk_nd [2] [C1; C0])])
         s'
    /\ 2 <= l
    /\ deref (heap s') l = Some r
    /\ shape r = [2; 2]
    /\ forall t, t < 4 ->
         get (data r) t
         = (get [C1; C0; C0; C1] t * get [C1; C0] (nth 0 (unravel [2; 2] t) 0))%C.
Proof.
  exact (array_multiply_along_axis
           (mk_state ∅ [Arr (mk_nd [2; 2] [C1; C0; C0; C1]);
                        Arr (mk_nd [2] [C1; C0])])
           0 1 (mk_nd [2; 2] [C1; C0; C0; C1]) (mk_nd [2] [C1; C0]) 0 0 2
           eq_refl eq_refl eq_refl (le_S _ _ (le_n 1)) eq_refl eq_refl).
Defined.

(** ** The errors and the configuration of the constructor *)

Section ConstructorErrors.

Variable jn : Z -> R -> R.
Variable jn_zeros : Z -> nat -> list R.
Variable fsolve : (R -> R) -> R -> R.
Variable linalg_inv : nat -> list C -> option (list C).
Variable cuda_installed : bool.

Lemma never_illegal_scipy_jn_zeros n nt :
  never is_illegal_method (scipy_jn_zeros jn_zeros n nt).
Proof.
  unfold scipy_jn_zeros. destruct (nt <=? 0)%Z;
    [now apply never_raise | apply never_ret].
Qed.

Lemma never_illegal_np_linalg_inv a :
  never is_illegal_method (np_linalg_inv linalg_inv a).
Proof.
  unfold np_linalg_inv. apply never_bind; [now apply never_read|].
  intros av. destruct (shape av) as [|n [|k [|]]]; try (now apply never_raise).
  destruct (n =? k); [|now apply never_raise].
  destruct (linalg_inv n (data av)); [apply never_new_array|now apply never_raise].
Qed.

Ltac never_illegal :=
  repeat first
    [ apply never_ret
    | apply never_setattr
    | apply never_new_array
    | apply never_illegal_scipy_jn_zeros
    | apply never_illegal_np_linalg_inv
    | apply never_py_index; reflexivity
    | apply never_py_setitem; reflexivity
    | apply never_py_div; reflexivity
    | apply never_getattr; reflexivity
    | apply never_as_ref; reflexivity
    | apply never_np_scalar_mul; reflexivity
    | apply never_swapaxes; reflexivity
    | apply never_setitem_row0; [reflexivity|reflexivity|reflexivity]
    | apply never_raise; reflexivity
    | apply never_bind; [|intros ?]
    | match goal with
      | |- never _ (if ?b then _ else _) => destruct b
      | |- never _ (match ?o with Some _ => _ | None => _ end) => destruct o
      end ].

Lemma never_illegal_QDHT_init p N rmax :
  never is_illegal_method (QDHT_init jn jn_zeros p N rmax).
Proof. unfold QDHT_init. never_illegal. Qed.

Lemma never_illegal_MDHT_init p N rmax m d Fw :
  never is_illegal_method (MDHT_init jn jn_zeros linalg_inv p N rmax m d Fw).
Proof.
  unfold MDHT_init, MDHT_init_with, MDHT_matrix_M, MDHT_matrix_M_with, MDHT_grid.
  unfold MDHT_zeros, MDHT_guard, MDHT_S_KaiMing. never_illegal.
Qed.

(** X2: the constructor raises ValueError('Illegal method string') exactly
    for the method strings outside [available_methods], and then before it
    stores anything; for a string of the list, whatever else goes wrong
    raises another error. *)
Theorem illegal_method_iff p N rmax method use_cuda kw s :
  (str_in method available_methods = false ->
   __init__ jn jn_zeros fsolve linalg_inv cuda_installed
     p N rmax method use_cuda kw s
   = (inl (ValueError "Illegal method string"), s))
  /\ (str_in method available_methods = true ->
      forall e s',
        __init__ jn jn_zeros fsolve linalg_inv cuda_installed
          p N rmax method use_cuda kw s = (inl e, s') ->
        is_illegal_method e = false).
Proof.
  split; [apply init_illegal_method|].
  intros Hm e s' H.
  destruct (available_methods_cases method Hm) as [->|Hmd].
  - rewrite init_dispatch_QDHT in H.
    pose proof (never_illegal_QDHT_init p N rmax
                  (init_state cuda_installed "QDHT" use_cuda s)) as K.
    now rewrite H in K.
  - rewrite init_dispatch_MDHT in H by exact Hmd.
    pose proof (never_illegal_MDHT_init p N rmax (aux_order method p)
                  (kw_d_or_default kw) (kw_Fw_or_default kw)
                  (init_state cuda_installed method use_cuda s)) as K.
    now rewrite H in K.
Qed.

Hypothesis jn_zeros_length : forall n nt, length (jn_zeros n nt) = nt.

(** X3: after a construction that returns, [self.method] is the method
    asked for and [self.use_cuda] is true only if it was asked for and the
    CUDA library could be imported; when it is true [self.cuda_stream] has
    been created, and when it is not [self.cuda_stream] is what it was. *)
Theorem constructor_configuration p N rmax method use_cuda kw s s' :
  __init__ jn jn_zeros fsolve linalg_inv cuda_installed
    p N rmax method use_cuda kw s = (inr tt, s') ->
  self s' !! "method" = Some (VStr method)
  /\ self s' !! "use_cuda" = Some (VBool (use_cuda && cuda_installed))
  /\ self s' !! "cuda_stream"
     = (if use_cuda && cuda_installed then Some VBlas
        else self s !! "cuda_stream").
Proof.
  intros H.
  assert (forall name, In name ["method"; "use_cuda"; "cuda_stream"] ->
            self s' !! name
            = self (init_state cuda_installed method use_cuda s) !! name) as K.
  { destruct (available_methods_cases method
                (init_success_method _ _ _ _ _ _ _ _ _ _ _ _ _ H)) as [->|Hm].
    - rewrite init_dispatch_QDHT in H.
      destruct (QDHT_init_inv jn jn_zeros jn_zeros_length _ _ _ _ _ H) as [HN Hz].
      rewrite (QDHT_init_run jn jn_zeros p N rmax _ HN Hz) in H.
      injection H as <-. intros name Hn. cbn [self]. simpl in Hn.
      repeat (rewrite lookup_insert_ne; [|intuition (subst; discriminate)]).
      reflexivity.
    - rewrite init_dispatch_MDHT in H by exact Hm.
      destruct (keeps_MDHT_init jn jn_zeros linalg_inv 0 _ _ _ _ _ _ _ _ _ H
                  (Nat.le_0_l _)) as (_ & _ & Ka).
      intros name Hn. apply Ka. simpl in Hn.
      rewrite !elem_of_cons, elem_of_nil. intuition (subst; discriminate). }
  rewrite !K by (simpl; auto). unfold init_state.
  destruct use_cuda, cuda_installed; cbn [andb negb self]; repeat split;
    now attr.
Qed.

End ConstructorErrors.

(** ** The quasi-discrete transform *)

Lemma get_map_RtoC (l : list R) k : get (map RtoC l) k = RtoC (nth k l 0%R).
Proof. unfold get. change C0 with (RtoC 0). apply map_nth. Qed.

Lemma nth_concat_rows (rows : list (list R)) n i j :
  (forall row, In row rows -> length row = n) ->
  i < length rows -> j < n ->
  nth (i * n + j) (concat rows) 0%R = nth j (nth i rows []) 0%R.
Proof.
  revert i. induction rows as [|r0 rows IH]; intros i Hr Hi Hj; simpl in Hi;
    [lia|].
  assert (length r0 = n) as L0 by (apply Hr; now left).
  simpl concat. destruct i as [|i].
  - simpl. apply app_nth1. lia.
  - rewrite app_nth2 by (rewrite L0; simpl; lia).
    replace (S i * n + j - length r0) with (i * n + j) by (rewrite L0; simpl; lia).
    simpl nth. apply IH; [|lia|exact Hj].
    intros row Hin. apply Hr. now right.
Qed.

Lemma nth_map_R {B} (f : R -> B) (l : list R) i d :
  i < length l -> nth i (map f l) d = f (nth i l 0%R).
Proof.
  intros Hi. rewrite (nth_indep _ d (f 0%R)) by now rewrite length_map.
  apply map_nth.
Qed.

Lemma nth_zip_with {A B D} (f : A -> B -> D) (l : list A) (k : list B) i da db dd :
  i < length l -> i < length k ->
  nth i (zip_with f l k) dd = f (nth i l da) (nth i k db).
Proof.
  revert k i. induction l as [|a l IH]; intros [|b k] [|i] Hl Hk; simpl in *;
    try lia; auto. apply IH; lia.
Qed.

Section QDHT.

Variable jn : Z -> R -> R.
Variable jn_zeros : Z -> nat -> list R.

Hypothesis jn_zeros_length : forall n nt, length (jn_zeros n nt) = nt.

(** X4: [QDHT_init] returns for every N that is not negative, whatever
    [rmax] is (0 included: no Python division is involved), and for a
    negative N it raises the ValueError of [jn_zeros] before it stores
    anything. *)
Theorem QDHT_init_returns_iff p N rmax s :
  ((0 <= N)%Z -> exists s', QDHT_init jn jn_zeros p N rmax s = (inr tt, s'))
  /\ ((N < 0)%Z ->
      exists msg, QDHT_init jn jn_zeros p N rmax s = (inl (ValueError msg), s)).
Proof.
  split; intros HN.
  - eexists. apply QDHT_init_run; [exact HN|].
    rewrite <- length_zero_iff_nil, jn_zeros_length. lia.
  - eexists. unfold QDHT_init, bind, scipy_jn_zeros.
    destruct (Z.leb_spec (N + 1) 0); [reflexivity|lia].
Qed.

(** X5: the matrix T that [QDHT_init] stores is N by N, its element (i, j)
    is 2 J_p(a_i a_j / a_{N+1}) / (|J_{p+1}(a_i)| |J_{p+1}(a_j)| a_{N+1})
    for the zeros a_1 .. a_{N+1} that [jn_zeros] returns, and it is
    symmetric. *)
Theorem QDHT_T_symmetric p N rmax s s' :
  QDHT_init jn jn_zeros p N rmax s = (inr tt, s') ->
  exists T,
    has_array s' "T" T /\ shape T = [Z.to_nat N; Z.to_nat N]
    /\ (forall i j, i < Z.to_nat N -> j < Z.to_nat N ->
          let zeros := jn_zeros p (Z.to_nat (N + 1)) in
          let a := fun k => nth k zeros 0%R in
          let la := List.last zeros 0%R in
          entry (Z.to_nat N) (data T) i j
          = RtoC (2 * jn p (a i * a j / la)
                  / (Rabs (jn (p + 1) (a i)) * Rabs (jn (p + 1) (a j)) * la)))
    /\ (forall i j, i < Z.to_nat N -> j < Z.to_nat N ->
          entry (Z.to_nat N) (data T) i j = entry (Z.to_nat N) (data T) j i).
Proof.
  intros H. destruct (QDHT_init_inv jn jn_zeros jn_zeros_length _ _ _ _ _ H)
    as [HN Hz].
  rewrite (QDHT_init_run jn jn_zeros p N rmax s HN Hz) in H. injection H as <-.
  set (zeros := jn_zeros p (Z.to_nat (N + 1))) in *.
  assert (length (removelast zeros) = Z.to_nat N) as La
    by (rewrite length_removelast; unfold zeros; rewrite jn_zeros_length; lia).
  set (alphas := removelast zeros) in *.
  set (la := List.last zeros 0%R).
  assert (forall k, k < Z.to_nat N -> nth k alphas 0%R = nth k zeros 0%R) as Hnth.
  { intros k Hk.
    transitivity (nth k (alphas ++ [List.last zeros 0%R]) 0%R);
      [symmetry; apply app_nth1; lia|].
    unfold alphas. now rewrite <- app_removelast_last. }
  assert (forall i j, i < Z.to_nat N -> j < Z.to_nat N ->
            entry (Z.to_nat N)
              (data (nd_of_rows (length alphas)
                 (zip_with (zip_with (fun x y => x / y)%R)
                    (map (fun ai => map (fun aj => 2 * jn p (ai * aj / la))%R
                                      alphas) alphas)
                    (map (fun Ji => map (fun Jj => Ji * Jj * la)%R
                                      (map (fun a => Rabs (jn (p + 1) a)) alphas))
                       (map (fun a => Rabs (jn (p + 1) a)) alphas))))) i j
            = RtoC (2 * jn p (nth i zeros 0 * nth j zeros 0 / la)
                    / (Rabs (jn (p + 1) (nth i zeros 0))
                       * Rabs (jn (p + 1) (nth j zeros 0)) * la))%R) as He.
  { intros i j Hi Hj. unfold entry, nd_of_rows, nd_of_reals. cbn [data].
    rewrite get_map_RtoC.
    rewrite (nth_concat_rows _ (Z.to_nat N)).
    - rewrite (nth_zip_with _ _ _ _ [] [] [])
        by (rewrite !length_map; lia).
      rewrite (nth_map_R _ alphas) by lia.
      rewrite (nth_map_R _ (map _ alphas)) by (rewrite length_map; lia).
      rewrite (nth_zip_with _ _ _ _ 0%R 0%R 0%R)
        by (rewrite !length_map; lia).
      rewrite (nth_map_R _ alphas) by lia.
      rewrite (nth_map_R _ (map _ alphas)) by (rewrite length_map; lia).
      rewrite !(nth_map_R _ alphas) by lia.
      now rewrite !Hnth by assumption.
    - intros row Hin. apply (In_nth _ _ []) in Hin.
      destruct Hin as (k & Hk & <-).
      rewrite length_zip_with, !length_map in Hk.
      rewrite (nth_zip_with _ _ _ _ [] [] [])
        by (rewrite !length_map; lia).
      rewrite length_zip_with.
      rewrite (nth_map_R _ alphas) by lia.
      rewrite (nth_map_R _ (map _ alphas)) by (rewrite length_map; lia).
      rewrite !length_map. lia.
    - rewrite length_zip_with, !length_map. lia.
    - exact Hj. }
  eexists. refine (conj _ (conj _ (conj _ _))).
  - eapply (has_array_new _ _ (length (heap s)) 4); cbn [self heap];
      [now attr|reflexivity|reflexivity|reflexivity].
  - unfold nd_of_rows, nd_of_reals. cbn [shape].
    rewrite length_zip_with, !length_map, La. f_equal. lia.
  - intros i j Hi Hj. cbv zeta. fold zeros la. now apply He.
  - intros i j Hi Hj. rewrite !He by assumption. f_equal.
    rewrite (Rmult_comm (nth i zeros 0%R)).
    rewrite (Rmult_comm (Rabs (jn (p + 1) (nth i zeros 0%R)))). reflexivity.
Qed.

End QDHT.

Lemma get_scalar_mul (d : list C) (c : C) t :
  get (map (fun y => y * c)%C d) t = (get d t * c)%C.
Proof.
  unfold get. rewrite <- (map_nth (fun y => y * c)%C). f_equal. ring.
Qed.

Lemma get_div_scalar (d : list C) (c : C) t :
  get (map (fun y => y / c)%C d) t = (get d t / c)%C.
Proof.
  unfold get. rewrite <- (map_nth (fun y => y / c)%C). f_equal.
  apply C_eq; simpl; unfold Rdiv; ring.
Qed.

(** The three steps of the quasi-discrete transform on a one-dimensional
    array. *)
Lemma QDHT_value_1d J_inv J T c1 c2 x n :
  shape J_inv = [n] -> shape J = [n] -> shape T = [n; n] -> shape x = [n] ->
  QDHT_value J_inv J T c1 c2 x
  = inr (mk_nd [n]
           (tabulate n
              (fun j =>
                 sum_n (fun t => get (data x) t * (get (data J_inv) t * RtoC c1)
                                 * entry n (data T) t j) n
                 * (get (data J) j / RtoC c2))%C)).
Proof.
  intros H1 H2 H3 Hx. unfold QDHT_value.
  unfold mul_val at 1. cbn [scalar_mul_val shape]. rewrite H1, Hx.
  unfold ncols, nrows. rewrite Hx. cbn [List.last removelast size_of fold_right].
  rewrite Nat.eqb_refl. cbn [ebind].
  rewrite (dot_val_rows (mk_nd [n] _) T [] n n eq_refl H3). cbn [ebind app size_of fold_right].
  unfold mul_val. cbn [div_scalar_val shape]. rewrite H2.
  unfold ncols, nrows. cbn [shape List.last removelast size_of fold_right].
  rewrite Nat.eqb_refl. rewrite !Nat.mul_1_l.
  f_equal. f_equal. apply tabulate_ext. intros j Hj. cbn [data].
  rewrite get_tabulate by exact Hj.
  rewrite Nat.div_small, Nat.mod_small by exact Hj.
  cbn [div_scalar_val scalar_mul_val data]. rewrite get_div_scalar. f_equal.
  apply sum_n_ext. intros t Ht. simpl Nat.add.
  rewrite get_tabulate by exact Ht. rewrite Nat.mod_small by exact Ht.
  rewrite get_scalar_mul. unfold entry. reflexivity.
Qed.

(** X6: on a QDHT instance, the transform of a one-dimensional array F of N
    elements has the elements
    G[j] = (sum over t of F[t] (J_inv[t] rmax) T[t, j]) J[j] / numax,
    and the inverse transform is the same formula with [rmax] and [numax]
    exchanged. *)
Theorem QDHT_transform_formula s n J_inv J T rmax numax F x :
  QDHT_instance s n J_inv J T rmax numax ->
  deref (heap s) F = Some x -> shape x = [n] ->
  result_of (QDHT_transform F) s
  = inr (mk_nd [n]
           (tabulate n
              (fun j =>
                 sum_n (fun t => get (data x) t * (get (data J_inv) t * RtoC rmax)
                                 * entry n (data T) t j) n
                 * (get (data J) j / RtoC numax))%C))
  /\ result_of (QDHT_inverse_transform F) s
     = inr (mk_nd [n]
              (tabulate n
                 (fun j =>
                    sum_n (fun t => get (data x) t
                                    * (get (data J_inv) t * RtoC numax)
                                    * entry n (data T) t j) n
                    * (get (data J) j / RtoC rmax))%C)).
Proof.
  intros [] HF Hx. split.
  - rewrite <- (QDHT_value_1d J_inv J T rmax numax x n) by assumption.
    apply (outcome_result true). unfold QDHT_transform.
    apply (outcome_QDHT _ _ _ _ _ _ "rmax" "numax"); assumption.
  - rewrite <- (QDHT_value_1d J_inv J T numax rmax x n) by assumption.
    apply (outcome_result true). unfold QDHT_inverse_transform.
    apply (outcome_QDHT _ _ _ _ _ _ "numax" "rmax"); assumption.
Qed.

Lemma lookup_nth_lt {A} (l : list A) i d : i < length l -> l !! i = Some (nth i l d).
Proof.
  revert i. induction l as [|a l IH]; intros [|i] Hi; simpl in *; try lia; auto.
  apply IH. lia.
Qed.

Lemma last_above (zeros : list R) x :
  strictly_increasing zeros -> In x (removelast zeros) ->
  (x < List.last zeros 0)%R.
Proof.
  intros Hs Hx. destruct zeros as [|z zs] using rev_ind; [contradiction|].
  clear IHzs. rewrite removelast_last in Hx. rewrite last_last.
  apply (In_nth _ _ 0%R) in Hx. destruct Hx as (i & Hi & <-).
  apply (Hs i (length zs)); [| |exact Hi].
  - rewrite lookup_app_l by exact Hi. now apply lookup_nth_lt.
  - now rewrite list_lookup_middle.
Qed.

Section QDHTGrid.

Variable jn : Z -> R -> R.
Variable jn_zeros : Z -> nat -> list R.

Hypothesis jn_zeros_length : forall n nt, length (jn_zeros n nt) = nt.
Hypothesis jn_zeros_pos : forall n nt x, In x (jn_zeros n nt) -> (0 < x)%R.
Hypothesis jn_zeros_increasing : forall n nt, strictly_increasing (jn_zeros n nt).


End QDHTGrid.

(** ** Sample runs of the constructor and of QDHT *)

Lemma sample_jn_zeros_nonempty : sample_jn_zeros 0 (Z.to_nat (1 + 1)) <> [].
Proof.
  intros E. apply (f_equal (@length R)) in E.
  rewrite sample_jn_zeros_length in E. simpl in E. lia.
Qed.

Lemma sample_QDHT_init_run :
  exists s', QDHT_init sample_jn sample_jn_zeros 0 1 1 (mk_state ∅ [])
             = (inr tt, s').
Proof.
  eexists.
  exact (QDHT_init_run sample_jn sample_jn_zeros 0 1 1 (mk_state ∅ [])
           ltac:(lia) sample_jn_zeros_nonempty).
Qed.

(** The constructor on the order 0 QDHT with one sample: what it records. *)
Lemma constructor_configuration_witness :
  exists s,
    __init__ sample_jn sample_jn_zeros sample_fsolve sample_inv false
      0 1 1 "QDHT" false no_kw
      (mk_state ∅ [Arr (mk_nd [1] [C1]); Arr (mk_nd [1] [C1]);
                   Arr (lin_comb C1 C1 (mk_nd [1] [C1]) (mk_nd [1] [C1]))])
    = (inr tt, s)
    /\ self s !! "method" = Some (VStr "QDHT")
    /\ self s !! "use_cuda" = Some (VBool false)
    /\ self s !! "cuda_stream" = None.
Proof.
  destruct sample_QDHT_run as (s & Hrun & _).
  exists s. split; [exact Hrun|].
  exact (constructor_configuration sample_jn sample_jn_zeros sample_fsolve
           sample_inv false sample_jn_zeros_length 0 1 1 "QDHT" false no_kw
           _ s Hrun).
Defined.

(** QDHT with one sample is constructed; with N = -1 it is refused. *)
Lemma QDHT_init_returns_iff_witness :
  (exists s', QDHT_init sample_jn sample_jn_zeros 0 1 1 (mk_state ∅ [])
              = (inr tt, s'))
  /\ (exists msg, QDHT_init sample_jn sample_jn_zeros 0 (-1) 1 (mk_state ∅ [])
                  = (inl (ValueError msg), mk_state ∅ [])).
Proof.
  split.
  - apply (proj1 (QDHT_init_returns_iff sample_jn sample_jn_zeros
                    sample_jn_zeros_length 0 1 1 (mk_state ∅ []))). lia.
  - apply (proj2 (QDHT_init_returns_iff sample_jn sample_jn_zeros
                    sample_jn_zeros_length 0 (-1) 1 (mk_state ∅ []))). lia.
Defined.

(** The matrix T of the order 0 QDHT with one sample. *)
Lemma QDHT_T_symmetric_witness :
  exists s' T,
    QDHT_init sample_jn sample_jn_zeros 0 1 1 (mk_state ∅ []) = (inr tt, s')
    /\ has_array s' "T" T /\ shape T = [1; 1]
    /\ forall i j, i < 1 -> j < 1 -> entry 1 (data T) i j = entry 1 (data T) j i.
Proof.
  destruct sample_QDHT_init_run as (s' & Hrun).
  destruct (QDHT_T_symmetric sample_jn sample_jn_zeros sample_jn_zeros_length
              0 1 1 _ s' Hrun) as (T & H1 & H2 & _ & H4).
  exists s', T. auto.
Defined.


(** The transforms of [1.] on the order 0 QDHT with one sample. *)
Lemma QDHT_transform_formula_witness :
  exists s y z,
    __init__ sample_jn sample_jn_zeros sample_fsolve sample_inv false
      0 1 1 "QDHT" false no_kw
      (mk_state ∅ [Arr (mk_nd [1] [C1]); Arr (mk_nd [1] [C1]);
                   Arr (lin_comb C1 C1 (mk_nd [1] [C1]) (mk_nd [1] [C1]))])
    = (inr tt, s)
    /\ result_of (QDHT_transform 0) s = inr y
    /\ result_of (QDHT_inverse_transform 0) s = inr z
    /\ shape y = [1] /\ shape z = [1].
Proof.
  destruct sample_QDHT_run as (s & Hrun & D0 & _).
  pose proof Hrun as Hq. rewrite init_dispatch_QDHT in Hq.
  destruct (init_state_attrs false "QDHT" false
              (mk_state ∅ [Arr (mk_nd [1] [C1]); Arr (mk_nd [1] [C1]);
                           Arr (lin_comb C1 C1 (mk_nd [1] [C1]) (mk_nd [1] [C1]))]))
    as (_ & Hm0 & _).
  destruct (QDHT_init_instance sample_jn sample_jn_zeros sample_jn_zeros_length
              _ _ _ _ _ Hm0 Hq) as (J_inv & J & T & numax & HI).
  destruct (QDHT_transform_formula s _ J_inv J T 1 numax 0 (mk_nd [1] [C1])
              HI D0 eq_refl) as [E1 E2].
  eexists s, _, _. refine (conj Hrun (conj E1 (conj E2 _))). split; reflexivity.
Defined.

(** ** The matrix transforms: arguments and errors *)

Section MDHTErrors.

Variable jn : Z -> R -> R.
Variable jn_zeros : Z -> nat -> list R.
Variable linalg_inv : nat -> list C -> option (list C).

(** X8: [MDHT_init] raises the ValueError of line 231, with the message
    'm must be either p-1, p or p+1, but is m', exactly when m is none of
    p-1, p and p+1, and then before it stores anything. *)
Theorem MDHT_init_bad_m_iff p N rmax m d Fw s :
  (Z_in m [p - 1; p; p + 1]%Z = false ->
   MDHT_init jn jn_zeros linalg_inv p N rmax m d Fw s
   = (inl (ValueError (msg_bad_m p m)), s))
  /\ (Z_in m [p - 1; p; p + 1]%Z = true ->
      forall e s', MDHT_init jn jn_zeros linalg_inv p N rmax m d Fw s = (inl e, s') ->
                   is_bad_m e = false).
Proof.
  split; [apply MDHT_init_bad_m|].
  intros Hm e s' H.
  pose proof (never_MDHT_init jn jn_zeros linalg_inv p N rmax m d Fw Hm s) as K.
  now rewrite H in K.
Qed.

Hypothesis jn_zeros_length : forall n nt, length (jn_zeros n nt) = nt.

(** X9: a call of [MDHT_init] that returns had an order m among p-1, p and
    p+1, at least one sample and a radius that is not zero; with a valid m
    and at least one sample, a zero radius raises ZeroDivisionError. *)
Theorem MDHT_init_valid_arguments p N rmax m d Fw s :
  (forall s', MDHT_init jn jn_zeros linalg_inv p N rmax m d Fw s = (inr tt, s') ->
              Z_in m [p - 1; p; p + 1]%Z = true /\ (1 <= N)%Z /\ rmax <> 0%R)
  /\ (Z_in m [p - 1; p; p + 1]%Z = true -> (1 <= N)%Z -> rmax = 0%R ->
      exists s', MDHT_init jn jn_zeros linalg_inv p N rmax m d Fw s
                 = (inl ZeroDivisionError, s')).
Proof.
  split.
  - intros s' H.
    destruct (MDHT_init_inv _ _ _ _ _ _ _ _ _ _ _ H)
      as (zeros & r & S & denom & Hm & Hz & Hne & Hr & Hg & Hd).
    refine (conj Hm (conj _ Hr)).
    destruct (MDHT_grid_length jn jn_zeros jn_zeros_length _ _ _ _ _ _ _ _ Hz Hg)
      as [_ La].
    destruct (shape_first_invM jn p m rmax r
                (map (Rmult (1 / (2 * PI * rmax))) (removelast zeros))
                (removelast zeros) denom ltac:(apply length_map) Hd) as [_ Ha].
    destruct (removelast zeros); [congruence|]. simpl in La. lia.
  - intros Hm HN ->. unfold MDHT_init, MDHT_init_with. rewrite Hm.
    rewrite (bind_stateless _ _ _ _ (stateless_ret tt)).
    rewrite !bind_setattr.
    rewrite (bind_stateless _ _ _ _ (MDHT_zeros_ok jn_zeros m N HN)).
    assert ((if Z_in m include_0 then 0%R :: jn_zeros m (Z.to_nat N)
             else jn_zeros m (Z.to_nat (N + 1))) <> []) as Hne.
    { destruct (Z_in m include_0); [discriminate|].
      rewrite <- length_zero_iff_nil, jn_zeros_length. lia. }
    rewrite (bind_stateless _ _ _ _ (py_index_last _ 0%R Hne)).
    unfold bind at 1, py_div.
    destruct (Req_dec_T (2 * PI * 0) 0) as [_|E]; [|exfalso; apply E; ring].
    eexists. reflexivity.
Qed.

End MDHTErrors.

(** The message for p = 0 and m = 5, and nothing is stored. *)
Lemma MDHT_init_bad_m_iff_witness :
  MDHT_init sample_jn sample_jn_zeros sample_inv 0 1 1 5 (Some (1 / 2)%R)
    "inverse" (mk_state ∅ [])
  = (inl (ValueError "m must be either -1, 0 or 1, but is 5"), mk_state ∅ []).
Proof.
  exact (proj1 (MDHT_init_bad_m_iff sample_jn sample_jn_zeros sample_inv
                  0 1 1 5 (Some (1 / 2)%R) "inverse" (mk_state ∅ [])) eq_refl).
Defined.

(** With rmax = 0 the order 0 construction with one sample raises. *)
Lemma MDHT_init_valid_arguments_witness :
  exists s', MDHT_init sample_jn sample_jn_zeros sample_inv 0 1 0 0
               (Some (1 / 2)%R) "inverse" (mk_state ∅ [])
             = (inl ZeroDivisionError, s').
Proof.
  exact (proj2 (MDHT_init_valid_arguments sample_jn sample_jn_zeros sample_inv
                  sample_jn_zeros_length 0 1 0 0 (Some (1 / 2)%R) "inverse"
                  (mk_state ∅ [])) eq_refl ltac:(lia) eq_refl).
Defined.

(** ** The matrix transforms: the two ways to build M *)

(** The transpose of a matrix, element by element. *)
Lemma swapaxes_val_2d A n k i j :
  shape A = [n; k] -> i < k -> j < n ->
  get (data (swapaxes_val A 0 1)) (i * n + j) = get (data A) (j * k + i).
Proof.
  intros HA Hi Hj. unfold swapaxes_val. rewrite HA.
  change (swap_list [n; k] 0 1) with [k; n]. cbn [data].
  assert (valid_index [k; n] [i; j]) as V by (repeat constructor; assumption).
  assert (ravel [k; n] [i; j] = i * n + j) as E by (simpl; lia).
  pose proof (ravel_lt _ _ V) as L. rewrite E in L.
  rewrite get_tabulate by exact L.
  rewrite <- E, (unravel_ravel _ _ V).
  change (swap_list [i; j] 0 1) with [j; i]. f_equal. simpl. lia.
Qed.

Section MDHTMatrices.

Variable jn : Z -> R -> R.
Variable jn_zeros : Z -> nat -> list R.
Variable linalg_inv : nat -> list C -> option (list C).

Hypothesis jn_zeros_length : forall n nt, length (jn_zeros n nt) = nt.

(** The construction with Fw = 'symmetric' returns. *)
Lemma MDHT_init_symmetric_run p N rmax m dv s :
  Z_in m [p - 1; p; p + 1]%Z = true -> (1 <= N)%Z -> rmax <> 0%R ->
  exists s',
    MDHT_init jn jn_zeros linalg_inv p N rmax m (Some dv) "symmetric" s
    = (inr tt, s').
Proof.
  intros Hm HN Hr.
  set (zeros := if Z_in m include_0 then 0%R :: jn_zeros m (Z.to_nat N)
                else jn_zeros m (Z.to_nat (N + 1))).
  set (S := List.last zeros 0%R). set (n := Z.to_nat N).
  destruct (MDHT_steps_ok jn jn_zeros jn_zeros_length p N rmax m dv HN)
    as (Hz & Hne & Hg & denom & Hd).
  fold zeros in Hz, Hne, Hg, Hd.
  pose proof (MDHT_init_prefix jn jn_zeros linalg_inv p N rmax m (Some dv)
                "symmetric" s _ _ _ denom Hm Hz Hne Hr Hg Hd) as E.
  cbv zeta in E.
  set (nu := map (Rmult (1 / (2 * PI * rmax))) (removelast zeros)) in *.
  set (r := map (fun n => rmax * 1 / IZR N * (n + dv))%R (arange N)) in *.
  assert (length r = n) as Lr
    by (subst r; now rewrite length_map, length_arange).
  destruct (MDHT_grid_length jn jn_zeros jn_zeros_length _ _ _ _ _ _ _ _ Hz Hg)
    as [_ La].
  destruct (shape_first_invM jn p m rmax r nu (removelast zeros) denom
              ltac:(apply length_map) Hd) as [HA0 _].
  set (A := nd_of_rows (length r) (divide_rows (MDHT_num jn p r nu) denom)) in *.
  assert (shape A = [n; n]) as HA by (rewrite HA0, La, Lr; reflexivity).
  erewrite (MDHT_matrix_M_symmetric jn linalg_inv) in E;
    [|cbn [self]; now attr
     |cbn [heap]; apply (lookup_new _ [_; _; _] 2)
     |exact HA].
  cbn [self heap] in E. rewrite <- app_assoc in E. simpl app in E.
  fold S in E.
  eexists. exact E.
Qed.

(** X10: with Fw = 'symmetric', a uniform grid ([d] given), a valid m, at
    least one sample and a radius that is not zero, [MDHT_init] always
    returns, since no matrix is inverted; it leaves M and invM of shape
    (N, N), M in an array of its own, with
    M[i, j] = (2 pi rmax^2 / S)^2 invM[j, i], S being the last Bessel zero. *)
Theorem MDHT_init_symmetric p N rmax m dv s :
  Z_in m [p - 1; p; p + 1]%Z = true -> (1 <= N)%Z -> rmax <> 0%R ->
  let zeros := if Z_in m include_0 then 0%R :: jn_zeros m (Z.to_nat N)
               else jn_zeros m (Z.to_nat (N + 1)) in
  let S := List.last zeros 0%R in
  let n := Z.to_nat N in
  exists s' M invM,
    MDHT_init jn jn_zeros linalg_inv p N rmax m (Some dv) "symmetric" s
    = (inr tt, s')
    /\ has_array s' "M" M /\ has_array s' "invM" invM
    /\ shape M = [n; n] /\ shape invM = [n; n]
    /\ (exists l, self s' !! "M" = Some (VRef l) /\ heap s' !! l = Some (Arr M))
    /\ forall i j, i < n -> j < n ->
         entry n (data M) i j
         = (entry n (data invM) j i * RtoC ((2 * PI * rmax ^ 2 / S) ^ 2))%C.
Proof.
  intros Hm HN Hr zeros S n.
  destruct (MDHT_steps_ok jn jn_zeros jn_zeros_length p N rmax m dv HN)
    as (Hz & Hne & Hg & denom & Hd).
  fold zeros in Hz, Hne, Hg, Hd.
  pose proof (MDHT_init_prefix jn jn_zeros linalg_inv p N rmax m (Some dv)
                "symmetric" s _ _ _ denom Hm Hz Hne Hr Hg Hd) as E.
  cbv zeta in E.
  set (nu := map (Rmult (1 / (2 * PI * rmax))) (removelast zeros)) in *.
  set (r := map (fun n => rmax * 1 / IZR N * (n + dv))%R (arange N)) in *.
  assert (length r = n) as Lr
    by (subst r; now rewrite length_map, length_arange).
  destruct (MDHT_grid_length jn jn_zeros jn_zeros_length _ _ _ _ _ _ _ _ Hz Hg)
    as [_ La].
  destruct (shape_first_invM jn p m rmax r nu (removelast zeros) denom
              ltac:(apply length_map) Hd) as [HA0 _].
  set (A := nd_of_rows (length r) (divide_rows (MDHT_num jn p r nu) denom)) in *.
  assert (shape A = [n; n]) as HA by (rewrite HA0, La, Lr; reflexivity).
  erewrite (MDHT_matrix_M_symmetric jn linalg_inv) in E;
    [|cbn [self]; now attr
     |cbn [heap]; apply (lookup_new _ [_; _; _] 2)
     |exact HA].
  cbn [self heap] in E. rewrite <- app_assoc in E. simpl app in E.
  fold S in E.
  eexists _, _, A. split; [exact E|].
  refine (conj _ (conj _ (conj _ (conj HA (conj _ _))))).
  - eapply (has_array_new _ _ (length (heap s)) 4); cbn [self heap].
    + rewrite lookup_insert_eq. do 2 f_equal. rewrite length_app. simpl. lia.
    + reflexivity.
    + reflexivity.
    + reflexivity.
  - eapply (has_array_new _ _ (length (heap s)) 2); cbn [self heap];
      [now attr|reflexivity|reflexivity|reflexivity].
  - cbn [scalar_mul_val swapaxes_val shape]. now rewrite HA.
  - exists (length (heap s) + 4). cbn [self heap]. split.
    + rewrite lookup_insert_eq. do 2 f_equal. rewrite length_app. simpl. lia.
    + apply (lookup_new _ [_; _; _; _; _] 4).
  - intros i j Hi Hj. unfold entry. cbn [scalar_mul_val data].
    rewrite get_scalar_mul. f_equal.
    now apply (swapaxes_val_2d A n n i j HA).
Qed.

(** X11: with Fw = 'inverse' outside the degenerate case, a uniform grid, a
    valid m, at least one sample and a radius that is not zero, [MDHT_init]
    returns exactly when [np.linalg.inv] returns on the matrix it has stored
    as invM, with M what the inversion returned; and when the inversion
    raises, [MDHT_init] raises LinAlgError with invM stored and M not. *)
Theorem MDHT_init_inverse p N rmax m dv s :
  Z_in m [p - 1; p; p + 1]%Z = true ->
  Z_in m include_0 && negb (p =? 0)%Z = false ->
  (1 <= N)%Z -> rmax <> 0%R ->
  let n := Z.to_nat N in
  exists A,
    shape A = [n; n]
    /\ (forall Md, linalg_inv n (data A) = Some Md ->
          exists s',
            MDHT_init jn jn_zeros linalg_inv p N rmax m (Some dv) "inverse" s
            = (inr tt, s')
            /\ has_array s' "invM" A /\ has_array s' "M" (mk_nd [n; n] Md))
    /\ (linalg_inv n (data A) = None ->
          exists s',
            MDHT_init jn jn_zeros linalg_inv p N rmax m (Some dv) "inverse" s
            = (inl LinAlgError, s')
            /\ has_array s' "invM" A /\ self s' !! "M" = self s !! "M").
Proof.
  intros Hm Hsp HN Hr n.
  destruct (MDHT_init_direct_run jn jn_zeros linalg_inv jn_zeros_length
              p N rmax m dv s Hm Hsp HN Hr) as (denom & Hd & E).
  cbv zeta in E. subst n.
  set (zeros := if Z_in m include_0 then 0%R :: jn_zeros m (Z.to_nat N)
                else jn_zeros m (Z.to_nat (N + 1))) in *.
  set (nu := map (Rmult (1 / (2 * PI * rmax))) (removelast zeros)) in *.
  set (r := map (fun n => rmax * 1 / IZR N * (n + dv))%R (arange N)) in *.
  set (A := nd_of_rows (Z.to_nat N) (divide_rows (MDHT_num jn p r nu) denom)) in *.
  assert (shape A = [Z.to_nat N; Z.to_nat N]) as HA.
  { destruct (MDHT_steps_ok jn jn_zeros jn_zeros_length p N rmax m dv HN)
      as (Hz & _ & Hg & _).
    destruct (MDHT_grid_length jn jn_zeros jn_zeros_length _ _ _ _ _ _ _ _ Hz Hg)
      as [_ La].
    destruct (MDHT_guard_length _ _ _ Hd) as [Ld _].
    unfold MDHT_denom in Ld. rewrite length_map in Ld. fold zeros in La.
    unfold A, nd_of_rows, nd_of_reals. cbn [shape].
    rewrite length_divide_rows, length_MDHT_num, Ld.
    unfold nu. rewrite length_map. unfold zeros in *. rewrite !La.
    f_equal. lia. }
  exists A. split; [exact HA|]. split.
  - intros Md EM. rewrite EM in E. eexists. split; [exact E|]. split.
    + eapply (has_array_new _ _ (length (heap s)) 2); cbn [self heap];
        [unfold MDHT_attrs; now attr|reflexivity|reflexivity|reflexivity].
    + eapply (has_array_new _ _ (length (heap s)) 3); cbn [self heap];
        [now attr|reflexivity|reflexivity|reflexivity].
  - intros EM. rewrite EM in E. eexists. split; [exact E|]. split.
    + eapply (has_array_new _ _ (length (heap s)) 2); cbn [self heap];
        [unfold MDHT_attrs; now attr|reflexivity|reflexivity|reflexivity].
    + cbn [self]. apply MDHT_attrs_other.
      rewrite !elem_of_cons, elem_of_nil. intuition discriminate.
Qed.

End MDHTMatrices.

(** The symmetric construction of order 0 with one sample. *)
Lemma MDHT_init_symmetric_witness :
  exists s' M invM,
    MDHT_init sample_jn sample_jn_zeros sample_inv 0 1 1 0 (Some (1 / 2)%R)
      "symmetric" (mk_state ∅ []) = (inr tt, s')
    /\ has_array s' "M" M /\ has_array s' "invM" invM
    /\ shape M = [1; 1] /\ shape invM = [1; 1].
Proof.
  destruct (MDHT_init_symmetric sample_jn sample_jn_zeros sample_inv
              sample_jn_zeros_length 0 1 1 0 (1 / 2) (mk_state ∅ [])
              eq_refl ltac:(lia) ltac:(lra))
    as (s' & M & invM & H1 & H2 & H3 & H4 & H5 & _).
  exists s', M, invM. auto 10.
Defined.

(** The construction by inversion of order 0 with one sample. *)
Lemma MDHT_init_inverse_witness :
  exists A,
    shape A = [1; 1]
    /\ (forall Md, sample_inv 1 (data A) = Some Md ->
          exists s',
            MDHT_init sample_jn sample_jn_zeros sample_inv 0 1 1 0
              (Some (1 / 2)%R) "inverse" (mk_state ∅ []) = (inr tt, s')
            /\ has_array s' "invM" A /\ has_array s' "M" (mk_nd [1; 1] Md)).
Proof.
  destruct (MDHT_init_inverse sample_jn sample_jn_zeros sample_inv
              sample_jn_zeros_length 0 1 1 0 (1 / 2) (mk_state ∅ [])
              eq_refl eq_refl ltac:(lia) ltac:(lra))
    as (A & H1 & H2 & _).
  exists A. split; [exact H1|exact H2].
Defined.

(** ** The matrix transforms: the calls *)

Section MDHTCalls.

Variable cuda_dot : ndarray -> ndarray -> exn + ndarray.
Hypothesis cuda_dot_spec : forall a b, cuda_dot a b = dot_val a b.

(** X12: on a matrix instance, [MDHT_transform] multiplies on the right by M
    along the last axis, every row for itself: for an input of shape
    (..., N), G[..., j] = sum over t of F[..., t] M[t, j]; and
    [MDHT_inverse_transform] does the same with invM. *)
Theorem MDHT_transform_rows s n M invM F x sh :
  MDHT_instance s n M invM ->
  deref (heap s) F = Some x -> shape x = sh ++ [n] ->
  result_of (MDHT_transform cuda_dot F) s
  = inr (mk_nd (sh ++ [n])
           (tabulate (size_of sh * n)
              (fun i => sum_n (fun t => get (data x) (i / n * n + t)
                                       * entry n (data M) t (i mod n))%C n)))
  /\ result_of (MDHT_inverse_transform cuda_dot F) s
     = inr (mk_nd (sh ++ [n])
              (tabulate (size_of sh * n)
                 (fun i => sum_n (fun t => get (data x) (i / n * n + t)
                                          * entry n (data invM) t (i mod n))%C n))).
Proof.
  intros HI HF Hx. split.
  - rewrite (outcome_result _ _ _ _
               (outcome_MDHT_transform cuda_dot cuda_dot_spec s n M invM F x HI HF)).
    unfold MDHT_value. apply dot_val_rows; [exact Hx|apply (md_M_shape _ _ _ _ HI)].
  - rewrite (outcome_result _ _ _ _
               (outcome_MDHT_inverse_transform cuda_dot cuda_dot_spec
                  s n M invM F x HI HF)).
    unfold MDHT_value.
    apply dot_val_rows; [exact Hx|apply (md_invM_shape _ _ _ _ HI)].
Qed.

(** X13: on a matrix instance, an input whose last axis has not N elements
    makes [MDHT_transform] and [MDHT_inverse_transform] raise ValueError;
    nothing that existed is changed. *)
Theorem MDHT_transform_wrong_length s n M invM F x sh k :
  MDHT_instance s n M invM ->
  deref (heap s) F = Some x -> shape x = sh ++ [k] -> k <> n ->
  (exists msg s', MDHT_transform cuda_dot F s = (inl (ValueError msg), s')
                  /\ extends s s')
  /\ (exists msg s', MDHT_inverse_transform cuda_dot F s = (inl (ValueError msg), s')
                     /\ extends s s').
Proof.
  intros HI HF Hx Hk.
  assert (forall A, shape A = [n; n] ->
            MDHT_value A x = inl (ValueError "shapes not aligned")) as Hv.
  { intros A HA. unfold MDHT_value, dot_val.
    rewrite HA, (ncols_snoc _ _ _ Hx), Hx, shape_snoc_case.
    now destruct (Nat.eqb_spec k n). }
  split.
  - pose proof (outcome_MDHT_transform cuda_dot cuda_dot_spec s n M invM F x HI HF)
      as O.
    rewrite (Hv M (md_M_shape _ _ _ _ HI)) in O. destruct O as (s' & O1 & O2).
    now exists "shapes not aligned", s'.
  - pose proof (outcome_MDHT_inverse_transform cuda_dot cuda_dot_spec
                  s n M invM F x HI HF) as O.
    rewrite (Hv invM (md_invM_shape _ _ _ _ HI)) in O.
    destruct O as (s' & O1 & O2).
    now exists "shapes not aligned", s'.
Qed.

End MDHTCalls.

(** A matrix instance, constructed with Fw = 'symmetric' for order 0 with
    one sample, beside an array of one element and an array of two. *)
Lemma sample_MDHT_instance :
  exists s M invM,
    MDHT_instance s 1 M invM
    /\ deref (heap s) 0 = Some (mk_nd [1] [C1])
    /\ deref (heap s) 1 = Some (mk_nd [2] [C1; C1]).
Proof.
  set (s0 := init_state false "MDHT(m,m)" false
               (mk_state ∅ [Arr (mk_nd [1] [C1]); Arr (mk_nd [2] [C1; C1])])).
  destruct (MDHT_init_symmetric_run sample_jn sample_jn_zeros sample_inv
              sample_jn_zeros_length 0 1 1 0 (1 / 2) s0
              eq_refl ltac:(lia) ltac:(lra))
    as (s' & Hrun).
  destruct (init_state_attrs false "MDHT(m,m)" false
              (mk_state ∅ [Arr (mk_nd [1] [C1]); Arr (mk_nd [2] [C1; C1])]))
    as (_ & Hm0 & Hu0).
  destruct (MDHT_init_symmetric_instance sample_jn sample_jn_zeros sample_fsolve
              sample_inv sample_jn_zeros_length 0 1 1 0 (Some (1 / 2)%R) s0 s'
              (ex_intro _ "MDHT(m,m)" (conj Hm0 eq_refl)) Hu0 Hrun)
    as (M & invM & HI).
  exists s', M, invM. split; [exact HI|].
  destruct (keeps_MDHT_init sample_jn sample_jn_zeros sample_inv 2
              0 1 1 0 (Some (1 / 2)%R) "symmetric" _ _ _ Hrun) as (_ & K & _);
    [simpl; lia|].
  split; apply deref_Arr; rewrite K by lia; reflexivity.
Qed.

(** On the sample matrix instance, the transforms of [1.]. *)
Lemma MDHT_transform_rows_witness :
  exists s M invM,
    MDHT_instance s 1 M invM
    /\ result_of (MDHT_transform dot_val 0) s
       = inr (mk_nd [1]
                (tabulate 1
                   (fun i => sum_n (fun t => get [C1] (i / 1 * 1 + t)
                                            * entry 1 (data M) t (i mod 1))%C 1))).
Proof.
  destruct sample_MDHT_instance as (s & M & invM & HI & D0 & _).
  exists s, M, invM. split; [exact HI|].
  exact (proj1 (MDHT_transform_rows dot_val (fun _ _ => eq_refl) s 1 M invM 0
                  (mk_nd [1] [C1]) [] HI D0 eq_refl)).
Defined.

(** On the sample matrix instance, an array of two elements is refused. *)
Lemma MDHT_transform_wrong_length_witness :
  exists s msg s',
    MDHT_transform dot_val 1 s = (inl (ValueError msg), s') /\ extends s s'.
Proof.
  destruct sample_MDHT_instance as (s & M & invM & HI & _ & D1).
  destruct (MDHT_transform_wrong_length dot_val (fun _ _ => eq_refl) s 1 M invM 1
              (mk_nd [2] [C1; C1]) [] 2 HI D1 eq_refl ltac:(lia))
    as [(msg & s' & H1 & H2) _].
  now exists s, msg, s'.
Defined.

(** ** The grids of the matrix transforms *)

Section MDHTGrids.

Variable jn : Z -> R -> R.
Variable jn_zeros : Z -> nat -> list R.
Variable linalg_inv : nat -> list C -> option (list C).

Hypothesis jn_zeros_length : forall n nt, length (jn_zeros n nt) = nt.


(** With m = p, no offset, and Fw = 'symmetric', every step succeeds. *)
Lemma MDHT_init_Bessel_run p N rmax s :
  (1 <= N)%Z -> rmax <> 0%R ->
  exists s', MDHT_init jn jn_zeros linalg_inv p N rmax p None "symmetric" s
             = (inr tt, s').
Proof.
  intros HN Hr.
  assert (Z_in p [p - 1; p; p + 1]%Z = true) as Hm
    by (unfold Z_in; simpl; rewrite Z.eqb_refl; now rewrite orb_true_r).
  pose proof (MDHT_zeros_ok jn_zeros p N HN) as Hz.
  set (zeros := if Z_in p include_0 then 0%R :: jn_zeros p (Z.to_nat N)
                else jn_zeros p (Z.to_nat (N + 1))) in *.
  assert (length zeros = S (Z.to_nat N)) as Lz.
  { unfold zeros. destruct (Z_in p include_0); simpl;
      rewrite jn_zeros_length; lia. }
  assert (zeros <> []) as Hne by (intros E; rewrite E in Lz; discriminate).
  assert (length (removelast zeros) = Z.to_nat N) as La
    by (rewrite length_removelast; lia).
  set (la := List.last zeros 0%R).
  set (r := map (fun a => rmax * a / la)%R (removelast zeros)).
  assert (stateless (MDHT_grid jn jn_zeros N rmax p p None (removelast zeros) la)
            (inr (r, la))) as Hg.
  { intros s0. unfold MDHT_grid. rewrite Z.eqb_refl.
    now rewrite (bind_stateless _ _ _ _ (stateless_ret la)). }
  set (nu := map (Rmult (1 / (2 * PI * rmax))) (removelast zeros)).
  destruct (MDHT_guard_ok (MDHT_num jn p r nu)
              (MDHT_denom jn p p rmax (removelast zeros))) as (denom & Hd).
  { unfold MDHT_denom. intros E. apply (f_equal (@length R)) in E.
    rewrite length_map in E. simpl in E. lia. }
  { intros E. apply (f_equal (@length (list R))) in E.
    rewrite length_MDHT_num in E. unfold nu in E.
    rewrite length_map in E. simpl in E. lia. }
  pose proof (MDHT_init_prefix jn jn_zeros linalg_inv p N rmax p None
                "symmetric" s zeros r la denom Hm Hz Hne Hr Hg Hd) as E.
  cbv zeta in E. fold nu in E.
  destruct (shape_first_invM jn p p rmax r nu (removelast zeros) denom
              ltac:(apply length_map) Hd) as [HA _].
  erewrite (MDHT_matrix_M_symmetric jn linalg_inv) in E;
    [|cbn [self]; now attr
     |cbn [heap]; apply (lookup_new _ [_; _; _] 2)
     |exact HA].
  eexists. exact E.
Qed.

Hypothesis jn_zeros_pos : forall n nt x, In x (jn_zeros n nt) -> (0 < x)%R.


End MDHTGrids.



(** ** The FHT: construction, grids and inverse transform *)

Section FHTExtras.

Variable jn : Z -> R -> R.
Variable fsolve : (R -> R) -> R -> R.

(** X16: [FHT_init] returns exactly when N is at least 1 and [rmax] is not
    zero; a zero [rmax] raises ZeroDivisionError, and otherwise an N below 1
    raises the ValueError of the Fourier transform of an empty array. *)
Theorem FHT_init_returns_iff p N rmax s :
  ((1 <= N)%Z -> rmax <> 0%R ->
   exists s', FHT_init jn fsolve p N rmax s = (inr tt, s'))
  /\ (rmax = 0%R ->
      exists s', FHT_init jn fsolve p N rmax s = (inl ZeroDivisionError, s'))
  /\ (rmax <> 0%R -> (N < 1)%Z ->
      exists msg s', FHT_init jn fsolve p N rmax s = (inl (ValueError msg), s')).
Proof.
  refine (conj _ (conj _ _)).
  - intros HN Hr.
    destruct (FHT_ifft_ok
                (map (fun x => 2 * PI * fsolve (FHT_equation N) 1 * x
                               * jn p (2 * PI * x))%R
                   (map (fun n => rmax / exp (fsolve (FHT_equation N) 1 * IZR N)
                                  / (4 * rmax)
                                  * exp (fsolve (FHT_equation N) 1 * n))%R
                      (arange (2 * N)))))
      as (f & Hf & _).
    { intros E. apply (f_equal (@length R)) in E.
      rewrite !length_map, length_arange in E. simpl in E. lia. }
    eexists. exact (FHT_init_run jn fsolve p N rmax s f Hr Hf).
  - intros ->. unfold FHT_init.
    rewrite bind_setattr, bind_new_array, bind_setattr.
    unfold bind at 1, py_div.
    destruct (Req_dec_T (4 * 0) 0) as [_|E]; [|exfalso; apply E; ring].
    eexists. reflexivity.
  - intros Hr HN. unfold FHT_init.
    rewrite bind_setattr, bind_new_array, bind_setattr.
    rewrite (bind_stateless _ _ _ _ (py_div_ok 1 (4 * rmax) ltac:(lra))).
    rewrite bind_new_array, bind_setattr.
    replace (arange (2 * N)) with (@nil R)
      by (unfold arange; now replace (Z.to_nat (2 * N)) with 0 by lia).
    cbn [map length]. rewrite FHT_ifft_empty.
    eexists _, _. reflexivity.
Qed.

(** The three arrays of an instance that [FHT_init] has constructed. *)
Lemma FHT_init_arrays p N rmax s s' :
  FHT_init jn fsolve p N rmax s = (inr tt, s') ->
  (1 <= N)%Z
  /\ self s' !! "N" = Some (VInt N)
  /\ exists r nu k,
       shape r = [Z.to_nat N] /\ shape nu = [Z.to_nat N]
       /\ shape k = [2 * Z.to_nat N]
       /\ has_array s' "r" r /\ has_array s' "nu" nu
       /\ has_array s' "fft_j_convol" k.
Proof.
  intros H.
  destruct (FHT_init_inv jn fsolve _ _ _ _ _ H)
    as (HN & _ & r & nu & k & Sr & Sn & Sk & ->).
  split; [exact HN|]. split; [cbn [self]; now attr|].
  exists r, nu, k. refine (conj Sr (conj Sn (conj Sk (conj _ (conj _ _))))).
  - eapply (has_array_new _ _ (length (heap s)) 0); cbn [self heap];
      [attr; now rewrite Nat.add_0_r|reflexivity|reflexivity|reflexivity].
  - eapply (has_array_new _ _ (length (heap s)) 1); cbn [self heap];
      [now attr|reflexivity|reflexivity|reflexivity].
  - eapply (has_array_new _ _ (length (heap s)) 2); cbn [self heap];
      [now attr|reflexivity|reflexivity|reflexivity].
Qed.

(** X17: on an instance that [FHT_init] has constructed, the inverse
    transform is the forward pipeline with r and nu exchanged: scale by nu,
    pad to 2N points and take the Fourier transform, multiply by the kernel
    [fft_j_convol], take the (forward) Fourier transform again, keep the
    first half, and scale by 1/r; on an input with N elements along its last
    axis the result has the shape of the input. *)
Theorem FHT_inverse_pipeline p N rmax s s' G x :
  FHT_init jn fsolve p N rmax s = (inr tt, s') ->
  deref (heap s') G = Some x ->
  exists r k nu,
    has_array s' "r" r /\ has_array s' "fft_j_convol" k /\ has_array s' "nu" nu
    /\ result_of (FHT_inverse_transform G) s' = FHT_value nu k r N x
    /\ forall sh, shape x = sh ++ [Z.to_nat N] ->
                  exists y, FHT_value nu k r N x = inr y /\ shape y = shape x.
Proof.
  intros Hi HG.
  destruct (FHT_init_arrays _ _ _ _ _ Hi)
    as (HN & AN & r & nu & k & Sr & Sn & Sk & Hr & Hn & Hk).
  exists r, k, nu. refine (conj Hr (conj Hk (conj Hn (conj _ _)))).
  - apply (outcome_result true). unfold FHT_inverse_transform.
    exact (outcome_FHT _ nu k r "nu" "r" N G x Hn Hk Hr AN HG).
  - intros sh Hx.
    destruct (FHT_value_shape nu k r x sh (Z.to_nat N) Sn Sk Sr ltac:(lia) Hx)
      as (y & Hy & Sy).
    rewrite Z2Nat.id in Hy by lia. now exists y.
Qed.


End FHTExtras.

(** The inverse transform of [1.] on the sample FHT instance. *)
Lemma FHT_inverse_pipeline_witness :
  exists r k nu,
    has_array sample_FHT_state "r" r
    /\ has_array sample_FHT_state "fft_j_convol" k
    /\ has_array sample_FHT_state "nu" nu
    /\ result_of (FHT_inverse_transform 0) sample_FHT_state
       = FHT_value nu k r 1 (mk_nd [1] [C1])
    /\ exists y, FHT_value nu k r 1 (mk_nd [1] [C1]) = inr y /\ shape y = [1].
Proof.
  destruct sample_FHT_arrays
    as (r0 & nu0 & j0 & j1 & k0 & _ & _ & _ & _ & Hrun & _ & _ & _ & _ & AF).
  destruct (FHT_inverse_pipeline sample_jn sample_fsolve 0 1 1 _ _ 0
              (mk_nd [1] [C1]) Hrun AF)
    as (r & k & nu & Hr & Hk & Hn & E & Hsh).
  exists r, k, nu. refine (conj Hr (conj Hk (conj Hn (conj E _)))).
  exact (Hsh [] eq_refl).
Defined.


(** ** What a call can raise *)

Lemma mul_val_raises a v n :
  shape v = [n] -> value_or_ValueError (mul_val a v).
Proof.
  intros Hv. unfold mul_val. rewrite Hv.
  destruct (shape a) as [|d0 sh] eqn:E; [simpl; discriminate|].
  cbv zeta. destruct (ncols a =? n); [simpl; discriminate|].
  destruct (ncols a =? 1).
  - simpl. intros K. apply (f_equal (@length nat)) in K.
    rewrite length_app in K. simpl in K. lia.
  - destruct (n =? 1); simpl; [discriminate|eauto].
Qed.

Lemma dot_val_raises a B k j :
  shape B = [k; j] -> value_or_ValueError (dot_val a B).
Proof.
  intros HB. unfold dot_val. rewrite HB.
  destruct (shape a) as [|d0 sh] eqn:E; [simpl; discriminate|].
  destruct (ncols a =? k); simpl; [|eauto].
  intros K. apply (f_equal (@length nat)) in K.
  rewrite length_app in K. simpl in K. lia.
Qed.

Lemma fft_gen_raises inverse a n :
  shape a <> [] -> value_or_ValueError (fft_gen inverse a n).
Proof.
  intros Ha. unfold fft_gen. destruct (shape a) as [|d0 sh]; [congruence|].
  cbv zeta. destruct (_ <? 1)%Z; simpl; [eauto|].
  intros K. apply (f_equal (@length nat)) in K.
  rewrite length_app in K. simpl in K. lia.
Qed.

Lemma split_first_val_raises a :
  shape a <> [] -> value_or_ValueError (split_first_val a).
Proof.
  intros Ha. unfold split_first_val. destruct (shape a) as [|d0 sh]; [congruence|].
  cbv zeta. destruct (_ =? 0); simpl; [|eauto].
  intros K. apply (f_equal (@length nat)) in K.
  rewrite length_app in K. simpl in K. lia.
Qed.

Lemma ebind_raises (r : exn + ndarray) (f : ndarray -> exn + ndarray) :
  value_or_ValueError r ->
  (forall y, shape y <> [] -> value_or_ValueError (f y)) ->
  value_or_ValueError (ebind r f).
Proof. destruct r as [e|y]; simpl; auto. Qed.

Lemma computes_raises s n fwd inv x :
  computes s n fwd inv ->
  value_or_ValueError (fwd x) /\ value_or_ValueError (inv x).
Proof.
  intros [M invM [] -> ->|J_inv J T rmax numax [] -> ->|r nu k [] -> ->].
  - split; eapply dot_val_raises; eassumption.
  - split; unfold QDHT_value;
      (apply ebind_raises; [eapply mul_val_raises; eassumption|]; intros y1 _;
       apply ebind_raises; [eapply dot_val_raises; eassumption|]; intros y2 _;
       eapply mul_val_raises; eassumption).
  - split; unfold FHT_value, fft_val;
      (apply ebind_raises; [eapply mul_val_raises; eassumption|]; intros y1 H1;
       apply ebind_raises; [now apply fft_gen_raises|]; intros y2 H2;
       apply ebind_raises; [eapply mul_val_raises; eassumption|]; intros y3 H3;
       apply ebind_raises; [now apply fft_gen_raises|]; intros y4 H4;
       apply ebind_raises; [now apply split_first_val_raises|]; intros y5 H5;
       eapply mul_val_raises; cbn [rdiv_scalar_val shape]; eassumption).
Qed.

Section Raises.

Variable jn : Z -> R -> R.
Variable jn_zeros : Z -> nat -> list R.
Variable fsolve : (R -> R) -> R -> R.
Variable linalg_inv : nat -> list C -> option (list C).
Variable cuda_installed : bool.
Variable cuda_dot : ndarray -> ndarray -> exn + ndarray.

Hypothesis jn_zeros_length : forall n nt, length (jn_zeros n nt) = nt.
Hypothesis cuda_dot_spec : forall a b, cuda_dot a b = dot_val a b.

(** X19: on a constructed instance of any method, whatever array they are
    given, [transform] and [inverse_transform] raise nothing but ValueError
    (the error of numpy for operands whose shapes do not fit): no attribute
    is missing, no method name is unknown, no index is out of range. *)
Theorem transform_raises_only_ValueError p N rmax s0 s s1 F x e s2 :
  constructed jn jn_zeros fsolve linalg_inv cuda_installed p N rmax s0 s ->
  extends s s1 -> deref (heap s1) F = Some x ->
  transform cuda_dot F s1 = (inl e, s2)
  \/ inverse_transform cuda_dot F s1 = (inl e, s2) ->
  exists msg, e = ValueError msg.
Proof.
  intros Hc E HF H.
  destruct (constructed_computes jn jn_zeros fsolve linalg_inv cuda_installed
              jn_zeros_length _ _ _ _ _ Hc) as (fwd & inv & Hcomp).
  apply (computes_extends _ _ _ _ _ E) in Hcomp.
  destruct (transform_outcome cuda_dot cuda_dot_spec _ _ _ _ F x Hcomp HF)
    as [O P].
  destruct (computes_raises _ _ _ _ x Hcomp) as [Vf Vi].
  destruct H as [H|H].
  - destruct (fwd x) as [e'|y]; unfold outcome in O.
    + destruct O as (s' & O1 & _). rewrite H in O1. injection O1 as -> _.
      exact Vf.
    + destruct O as (l & s' & O1 & _). rewrite H in O1. discriminate.
  - destruct (inv x) as [e'|y]; unfold outcome in P.
    + destruct P as (s' & P1 & _). rewrite H in P1. injection P1 as -> _.
      exact Vi.
    + destruct P as (l & s' & P1 & _). rewrite H in P1. discriminate.
Qed.

End Raises.

(** X20: [array_multiply] looks at its axis only for an array of more than
    one dimension: for an array of at most one dimension every axis, even
    one that does not exist, gives what axis -1 gives; for an array of more
    dimensions an axis that does not exist raises ValueError and changes
    nothing. *)
Theorem array_multiply_axis_check s a v av axis :
  deref (heap s) a = Some av ->
  (ndim av <= 1 -> array_multiply a v axis s = array_multiply a v (-1) s)
  /\ (1 < ndim av -> axis <> (-1)%Z -> norm_axis (ndim av) axis = None ->
      exists msg, array_multiply a v axis s = (inl (ValueError msg), s)).
Proof.
  intros Ha. split.
  - intros Hnd. unfold array_multiply.
    rewrite !(bind_ok _ _ _ _ _ (read_ok _ _ _ Ha)).
    destruct (Nat.ltb_spec 1 (ndim av)); [lia|]. reflexivity.
  - intros Hnd Hax Hno. unfold array_multiply.
    rewrite (bind_ok _ _ _ _ _ (read_ok _ _ _ Ha)).
    destruct (Nat.ltb_spec 1 (ndim av)); [|lia].
    destruct (Z.eqb_spec axis (-1)); [congruence|]. cbn [andb negb].
    unfold bind at 1, swapaxes. unfold bind at 1.
    rewrite (read_ok _ _ _ Ha), Hno.
    destruct (norm_axis (ndim av) (-1)); eexists; reflexivity.
Qed.

(** A vector multiplied along an axis it does not have, and a matrix refused
    for an axis it does not have. *)
Lemma array_multiply_axis_check_witness :
  array_multiply 0 1 7
    (mk_state ∅ [Arr (mk_nd [2] [C1; C1]); Arr (mk_nd [2] [C1; C0])])
  = array_multiply 0 1 (-1)
      (mk_state ∅ [Arr (mk_nd [2] [C1; C1]); Arr (mk_nd [2] [C1; C0])])
  /\ exists msg,
       array_multiply 0 1 7
         (mk_state ∅ [Arr (mk_nd [2; 2] [C1; C0; C0; C1]);
                      Arr (mk_nd [2] [C1; C0])])
       = (inl (ValueError msg),
          mk_state ∅ [Arr (mk_nd [2; 2] [C1; C0; C0; C1]);
                      Arr (mk_nd [2] [C1; C0])]).
Proof.
  split.
  - exact (proj1 (array_multiply_axis_check
                    (mk_state ∅ [Arr (mk_nd [2] [C1; C1]);
                                 Arr (mk_nd [2] [C1; C0])])
                    0 1 (mk_nd [2] [C1; C1]) 7 eq_refl) (le_n 1)).
  - exact (proj2 (array_multiply_axis_check
                    (mk_state ∅ [Arr (mk_nd [2; 2] [C1; C0; C0; C1]);
                                 Arr (mk_nd [2] [C1; C0])])
                    0 1 (mk_nd [2; 2] [C1; C0; C0; C1]) 7 eq_refl)
             (le_n 2) ltac:(discriminate) eq_refl).
Defined.

(** The order 0 matrix instance with one sample refuses an array of two
    elements with a ValueError. *)
Lemma transform_raises_only_ValueError_witness :
  exists s e s2,
    __init__ sample_jn sample_jn_zeros sample_fsolve sample_inv false
      0 1 1 "MDHT(m,m)" false (mk_kw None (Some "symmetric"))
      (mk_state ∅ [Arr (mk_nd [1] [C1]); Arr (mk_nd [2] [C1; C1])])
    = (inr tt, s)
    /\ transform dot_val 1 s = (inl e, s2)
    /\ exists msg, e = ValueError msg.
Proof.
  set (s0 := mk_state ∅ [Arr (mk_nd [1] [C1]); Arr (mk_nd [2] [C1; C1])]).
  destruct (MDHT_init_symmetric_run sample_jn sample_jn_zeros sample_inv
              sample_jn_zeros_length 0 1 1 0 (1 / 2)
              (init_state false "MDHT(m,m)" false s0)
              eq_refl ltac:(lia) ltac:(lra))
    as (s' & Hrun).
  assert (__init__ sample_jn sample_jn_zeros sample_fsolve sample_inv false
            0 1 1 "MDHT(m,m)" false (mk_kw None (Some "symmetric")) s0
          = (inr tt, s')) as Hinit
    by (rewrite init_dispatch_MDHT by reflexivity; exact Hrun).
  destruct (init_state_attrs false "MDHT(m,m)" false s0) as (_ & Hm0 & Hu0).
  destruct (MDHT_init_symmetric_instance sample_jn sample_jn_zeros sample_fsolve
              sample_inv sample_jn_zeros_length 0 1 1 0 (Some (1 / 2)%R) _ s'
              (ex_intro _ "MDHT(m,m)" (conj Hm0 eq_refl)) Hu0 Hrun)
    as (M & invM & HI).
  assert (deref (heap s') 1 = Some (mk_nd [2] [C1; C1])) as D1.
  { destruct (keeps_MDHT_init sample_jn sample_jn_zeros sample_inv 2
                0 1 1 0 (Some (1 / 2)%R) "symmetric" _ _ _ Hrun) as (_ & K & _);
      [simpl; lia|].
    apply deref_Arr. rewrite K by lia. reflexivity. }
  destruct (transform_outcome dot_val (fun _ _ => eq_refl) s' _ _ _ 1 _
              (computes_MDHT _ _ _ _ M invM HI eq_refl eq_refl) D1) as [O _].
  assert (MDHT_value M (mk_nd [2] [C1; C1])
          = inl (ValueError "shapes not aligned")) as Ev.
  { unfold MDHT_value, dot_val. now rewrite (md_M_shape _ _ _ _ HI). }
  rewrite Ev in O. destruct O as (s2 & O1 & _).
  exists s', (ValueError "shapes not aligned"), s2.
  refine (conj Hinit (conj O1 _)).
  exact (transform_raises_only_ValueError sample_jn sample_jn_zeros sample_fsolve
           sample_inv false dot_val sample_jn_zeros_length (fun _ _ => eq_refl)
           0 1 1 s0 s' s' 1 _ _ s2
           (or_introl (ex_intro _ "MDHT(m,m)" (ex_intro _ false
              (ex_intro _ (mk_kw None (Some "symmetric"))
                 (conj (or_intror eq_refl) Hinit)))))
           (extends_refl s') D1 (or_introl O1)).
Defined.
